(** * Chess play animation generator: notation and move-resolution engine

    A shallow embedding of the TypeScript engine of the repository,
    together with the properties its specification states about it.  The
    modules embedded are the piece and square types ([types/notation.ts],
    [types/chess.ts]), the notation converter
    ([utils/NotationConverter.ts]), the record parser ([utils/FENParser.ts])
    and the rules ([utils/ChessRules.ts]), in its current form and in the
    earlier, string-typed form that the player component still imports,
    together with the state logic of the two player components.

    Conventions of the embedding.
    - A JavaScript string is a [string]: a sequence of code units below 256.
      Every literal of the source is of that form; inputs are taken over the
      same alphabet, for which [for .. of], [charCodeAt] and indexing agree.
    - A JavaScript number is a [JS.num]: an integer, or [None] for [NaN].
      The engine only adds, subtracts and compares integers, which stay
      far below 2^53 in every run that ends.
    - A [PositionMap] object is an association list in property creation
      order; [Obj.keys] yields the enumeration order of [for .. in].
    - A [throw] is a result [inl message]; a loop that may not exit takes
      fuel and answers [None] when the fuel does not suffice. *)

From Stdlib Require Import ZArith List Bool Ascii String Lia DecimalString.
Import ListNotations.
Local Open Scope string_scope.
Local Open Scope Z_scope.

(** ** JavaScript primitives used by the engine *)

Module JS.

(** Numbers: integers and [NaN]. *)
Definition num := option Z.
Definition NaN : num := None.

Definition add (a b : num) : num :=
  match a, b with Some x, Some y => Some (x + y) | _, _ => None end.
Definition sub (a b : num) : num :=
  match a, b with Some x, Some y => Some (x - y) | _, _ => None end.
Definition abs (a : num) : num := option_map Z.abs a.
Definition sign (a : num) : num := option_map Z.sgn a.

(** [a || 0] on a number: [NaN] and [0] are falsy. *)
Definition or0 (a : num) : Z := match a with Some x => x | None => 0 end.

(** [===], [!==], [>], [>=], [<=]: every comparison with [NaN] is false,
    except [!==] which is true. *)
Definition seq (a b : num) : bool :=
  match a, b with Some x, Some y => x =? y | _, _ => false end.
Definition sne (a b : num) : bool := negb (seq a b).
Definition gt (a b : num) : bool :=
  match a, b with Some x, Some y => y <? x | _, _ => false end.
Definition ge (a b : num) : bool :=
  match a, b with Some x, Some y => y <=? x | _, _ => false end.
Definition le (a b : num) : bool :=
  match a, b with Some x, Some y => x <=? y | _, _ => false end.

(** Characters. *)
Definition code (c : ascii) : Z := Z.of_N (N_of_ascii c).

Definition isDigit (c : ascii) : bool :=
  (48 <=? code c) && (code c <=? 57).

(** White space and line terminators among the code units below 256:
    TAB, LF, VT, FF, CR, SP and NBSP.  They are what [\s] matches, what
    [trim] removes and what [Number] and [parseInt] skip. *)
Definition isSpace (c : ascii) : bool :=
  let n := code c in
  ((9 <=? n) && (n <=? 13)) || (n =? 32) || (n =? 160).

Definition digitValue (c : ascii) : Z := code c - 48.

(** [isNaN(Number(char))] for a one-character string: [Number] maps a
    decimal digit to its value and a white-space character to [0]; any
    other single character gives [NaN]. *)
Definition isNaN_Number_char (c : ascii) : bool :=
  negb (isDigit c || isSpace c).

(** [parseInt(char)] and [parseInt(char, 10)] for a one-character string. *)
Definition parseInt_char (c : ascii) : num :=
  if isDigit c then Some (digitValue c) else NaN.

(** [s.charCodeAt(0)]: [NaN] on the empty string. *)
Definition charCodeAt0 (s : string) : num :=
  match s with
  | EmptyString => NaN
  | String c _ => Some (code c)
  end.

(** [s[1]]: [undefined] when the string has fewer than two characters. *)
Definition at1 (s : string) : option ascii :=
  match s with
  | String _ (String c _) => Some c
  | _ => None
  end.

(** [String.fromCharCode(x)]: the code unit [ToUint16 x] ([0] for [NaN]).
    [None] stands for a code unit of 256 or more, which no string of the
    model contains. *)
Definition fromCharCode (x : num) : option ascii :=
  match x with
  | None => Some zero
  | Some z =>
      let u := z mod 65536 in
      if u <? 256 then Some (ascii_of_N (Z.to_N u)) else None
  end.

(** Number to string conversion, as done by [+] and by template literals. *)
Definition toString (x : num) : string :=
  match x with
  | None => "NaN"
  | Some z => NilZero.string_of_int (Z.to_int z)
  end.

(** [s.includes(t)] *)
Fixpoint startsWith (t s : string) : bool :=
  match t, s with
  | EmptyString, _ => true
  | String a t', String b s' => Ascii.eqb a b && startsWith t' s'
  | String _ _, EmptyString => false
  end.

Fixpoint includes (s t : string) : bool :=
  startsWith t s ||
  match s with
  | EmptyString => false
  | String _ s' => includes s' t
  end.

Definition includesChar (s : string) (c : ascii) : bool :=
  includes s (String c EmptyString).

(** [s.split(c)] for a one-character separator [c]: never the empty list. *)
Fixpoint split (c : ascii) (s : string) : list string :=
  match s with
  | EmptyString => [EmptyString]
  | String a s' =>
      if Ascii.eqb a c then EmptyString :: split c s'
      else match split c s' with
           | [] => [String a EmptyString]
           | w :: ws => String a w :: ws
           end
  end.

(** [s.trim()] *)
Fixpoint trimStart (s : string) : string :=
  match s with
  | String c s' => if isSpace c then trimStart s' else s
  | EmptyString => EmptyString
  end.

Fixpoint trimEnd (s : string) : string :=
  match s with
  | EmptyString => EmptyString
  | String c s' =>
      match trimEnd s' with
      | EmptyString => if isSpace c then EmptyString else String c EmptyString
      | r => String c r
      end
  end.

Definition trim (s : string) : string := trimEnd (trimStart s).

(** [s.replace(/\s+/g, ' ')]: every maximal run of white space becomes one
    space. *)
Fixpoint collapseSpaces (s : string) : string :=
  match s with
  | EmptyString => EmptyString
  | String c s' =>
      if isSpace c then
        match s' with
        | String d _ =>
            if isSpace d then collapseSpaces s'
            else String " " (collapseSpaces s')
        | EmptyString => String " " EmptyString
        end
      else String c (collapseSpaces s')
  end.

(** [s.split(/\s+/)]: the pieces between maximal runs of white space;
    a leading or trailing run leaves an empty piece, and the empty string
    splits into one empty piece. *)
Fixpoint splitSpaces (s : string) : list string :=
  match s with
  | EmptyString => [EmptyString]
  | String c s' =>
      if isSpace c then
        match s' with
        | String d _ =>
            if isSpace d then splitSpaces s'
            else EmptyString :: splitSpaces s'
        | EmptyString => [EmptyString; EmptyString]
        end
      else match splitSpaces s' with
           | [] => [String c EmptyString]
           | w :: ws => String c w :: ws
           end
  end.

(** [xs.filter(x => x.length > 0)] *)
Definition nonEmpty (s : string) : bool :=
  match s with EmptyString => false | String _ _ => true end.

(** [s.replace(/[+#!?]/g, '')] and the like: drop the characters of a
    class. *)
Fixpoint removeChars (p : ascii -> bool) (s : string) : string :=
  match s with
  | EmptyString => EmptyString
  | String c s' =>
      if p c then removeChars p s' else String c (removeChars p s')
  end.

(** [s.replace(/X/g, 'Y')] for single characters. *)
Fixpoint replaceAllChar (x y : ascii) (s : string) : string :=
  match s with
  | EmptyString => EmptyString
  | String c s' =>
      String (if Ascii.eqb c x then y else c) (replaceAllChar x y s')
  end.

(** The remainder of [s] after a match of [\d+\.] anchored at its start,
    if there is one.  [\d+] is greedy and a shorter run of digits is
    followed by a digit, so the match, when it exists, is the maximal run
    of leading digits followed by a dot. *)
Fixpoint afterDigits (s : string) : string :=
  match s with
  | String c s' => if isDigit c then afterDigits s' else s
  | EmptyString => EmptyString
  end.

Definition matchMoveNumber (s : string) : option string :=
  match s with
  | String c _ =>
      if isDigit c then
        match afterDigits s with
        | String "."%char r => Some r
        | _ => None
        end
      else None
  | EmptyString => None
  end.

(** [s.replace(/^\d+\./, '')] *)
Definition stripMoveNumber (s : string) : string :=
  match matchMoveNumber s with
  | Some r => r
  | None => s
  end.

(** [s.replace(/\d+\./g, '')]: scanning from the left, each match of
    [\d+\.] is removed and scanning resumes after it; a run of digits that
    no dot follows is kept. *)
Fixpoint stripAllMoveNumbers_aux (fuel : nat) (s : string) : string :=
  match fuel with
  | O => s
  | S fuel' =>
      match s with
      | EmptyString => EmptyString
      | String c s' =>
          match matchMoveNumber s with
          | Some r => stripAllMoveNumbers_aux fuel' r
          | None => String c (stripAllMoveNumbers_aux fuel' s')
          end
      end
  end.

Definition stripAllMoveNumbers (s : string) : string :=
  stripAllMoveNumbers_aux (S (String.length s)) s.

(** [s.search(/\d+\./)]: the index of the first match, if any. *)
Fixpoint searchMoveNumber (s : string) : option nat :=
  match matchMoveNumber s with
  | Some _ => Some O
  | None =>
      match s with
      | EmptyString => None
      | String _ s' => option_map S (searchMoveNumber s')
      end
  end.

(** [s.slice(0, n)] and [s.slice(n)] for [0 <= n]. *)
Fixpoint take (n : nat) (s : string) : string :=
  match n, s with
  | S n', String c s' => String c (take n' s')
  | _, _ => EmptyString
  end.

Fixpoint drop (n : nat) (s : string) : string :=
  match n, s with
  | S n', String _ s' => drop n' s'
  | _, _ => s
  end.

(** [s.slice(0, -2)] and [s.slice(-2)] *)
Definition dropLast2 (s : string) : string :=
  take (String.length s - 2) s.
Definition last2 (s : string) : string :=
  drop (String.length s - 2) s.

(** [parseInt(s)] without a radix: leading white space is skipped, a sign
    is read, a [0x] or [0X] prefix selects radix 16, and the longest
    prefix of digits is converted; no digit gives [NaN]. *)
Definition hexValue (c : ascii) : option Z :=
  let n := code c in
  if (48 <=? n) && (n <=? 57) then Some (n - 48)
  else if (65 <=? n) && (n <=? 70) then Some (n - 55)
  else if (97 <=? n) && (n <=? 102) then Some (n - 87)
  else None.

Definition decValue (c : ascii) : option Z :=
  if isDigit c then Some (digitValue c) else None.

Fixpoint digitsPrefix (value : ascii -> option Z) (radix : Z)
    (acc : num) (s : string) : num :=
  match s with
  | EmptyString => acc
  | String c s' =>
      match value c with
      | Some d =>
          digitsPrefix value radix (Some (or0 acc * radix + d)) s'
      | None => acc
      end
  end.

Definition parseUnsigned (s : string) : num :=
  match s with
  | String "0"%char (String x r) =>
      if Ascii.eqb x "x" || Ascii.eqb x "X"
      then digitsPrefix hexValue 16 NaN r
      else digitsPrefix decValue 10 NaN s
  | _ => digitsPrefix decValue 10 NaN s
  end.

Definition parseInt (s : string) : num :=
  match trimStart s with
  | String "-"%char r => option_map Z.opp (parseUnsigned r)
  | String "+"%char r => parseUnsigned r
  | r => parseUnsigned r
  end.

End JS.

(** ** Pieces: [types/notation.ts] *)

(** [enum StandardPiece]: the twelve pieces; each value is its letter of the
    standard alphabet. *)
Inductive StandardPiece : Type :=
| WhiteKing | WhiteQueen | WhiteRook | WhiteBishop | WhiteKnight | WhitePawn
| BlackKing | BlackQueen | BlackRook | BlackBishop | BlackKnight | BlackPawn.

Definition StandardPiece_eqb (p q : StandardPiece) : bool :=
  match p, q with
  | WhiteKing, WhiteKing | WhiteQueen, WhiteQueen | WhiteRook, WhiteRook
  | WhiteBishop, WhiteBishop | WhiteKnight, WhiteKnight
  | WhitePawn, WhitePawn
  | BlackKing, BlackKing | BlackQueen, BlackQueen | BlackRook, BlackRook
  | BlackBishop, BlackBishop | BlackKnight, BlackKnight
  | BlackPawn, BlackPawn => true
  | _, _ => false
  end.

Definition standardLetter (p : StandardPiece) : ascii :=
  match p with
  | WhiteKing => "K" | WhiteQueen => "Q" | WhiteRook => "R"
  | WhiteBishop => "B" | WhiteKnight => "N" | WhitePawn => "P"
  | BlackKing => "k" | BlackQueen => "q" | BlackRook => "r"
  | BlackBishop => "b" | BlackKnight => "n" | BlackPawn => "p"
  end%char.

(** [enum FrenchPiece]: the letter of each piece in the French alphabet. *)
Definition frenchLetter (p : StandardPiece) : ascii :=
  match p with
  | WhiteKing => "R" | WhiteQueen => "D" | WhiteRook => "T"
  | WhiteBishop => "F" | WhiteKnight => "C" | WhitePawn => "P"
  | BlackKing => "r" | BlackQueen => "d" | BlackRook => "t"
  | BlackBishop => "f" | BlackKnight => "c" | BlackPawn => "p"
  end%char.

Definition allPieces : list StandardPiece :=
  [WhiteKing; WhiteQueen; WhiteRook; WhiteBishop; WhiteKnight; WhitePawn;
   BlackKing; BlackQueen; BlackRook; BlackBishop; BlackKnight; BlackPawn].

(** [type CastlingRights] *)
Record CastlingRights : Type := {
  whiteKingSide : bool;
  whiteQueenSide : bool;
  blackKingSide : bool;
  blackQueenSide : bool
}.

(** ** Objects keyed by strings *)

Module Obj.
Section Objects.
Variable V : Type.

(** Own properties in creation order. *)
Definition t := list (string * V).

(** [o[k]] *)
Fixpoint get (o : t) (k : string) : option V :=
  match o with
  | [] => None
  | (k', v) :: o' => if String.eqb k' k then Some v else get o' k
  end.

(** [o[k] = v]: an existing property keeps its place, a new one is
    created last. *)
Fixpoint set (o : t) (k : string) (v : V) : t :=
  match o with
  | [] => [(k, v)]
  | (k', v') :: o' =>
      if String.eqb k' k then (k, v) :: o' else (k', v') :: set o' k v
  end.

(** [delete o[k]] *)
Definition delete (o : t) (k : string) : t :=
  filter (fun kv => negb (String.eqb (fst kv) k)) o.

(** A key is an array index when it is the canonical decimal form of an
    integer between [0] and [2^32 - 2]. *)
Fixpoint allDigits (s : string) : bool :=
  match s with
  | EmptyString => true
  | String c s' => JS.isDigit c && allDigits s'
  end.

Definition arrayIndex (k : string) : option Z :=
  match k with
  | EmptyString => None
  | String c r =>
      if allDigits k
         && (negb (Ascii.eqb c "0") || String.eqb r EmptyString)
      then
        match JS.digitsPrefix JS.decValue 10 JS.NaN k with
        | Some n => if n <=? 4294967294 then Some n else None
        | None => None
        end
      else None
  end.

Fixpoint insertIndex (i : Z) (k : string) (l : list (Z * string))
    : list (Z * string) :=
  match l with
  | [] => [(i, k)]
  | (j, k') :: l' =>
      if i <? j then (i, k) :: l else (j, k') :: insertIndex i k l'
  end.

Fixpoint indexKeys (ks : list string) : list (Z * string) :=
  match ks with
  | [] => []
  | k :: ks' =>
      match arrayIndex k with
      | Some i => insertIndex i k (indexKeys ks')
      | None => indexKeys ks'
      end
  end.

Definition isName (k : string) : bool :=
  match arrayIndex k with Some _ => false | None => true end.

(** The order of [for (k in o)] and of [{ ...o }]: array indices in
    ascending order, then the other keys in creation order. *)
Definition keys (o : t) : list string :=
  map snd (indexKeys (map fst o)) ++ filter isName (map fst o).

End Objects.
Arguments get {V} o k.
Arguments set {V} o k v.
Arguments delete {V} o k.
Arguments keys {V} o.
End Obj.

(** ** Positions and moves: [types/chess.ts] *)

(** [type PositionMap = Partial<Record<Square, StandardPiece>>].  The keys
    are strings at run time: the resolver stores the target of a move under
    whatever two characters the token ends with.  Only own properties are
    modelled: no key that the engine looks up (two characters, or a
    character followed by a number) names a property inherited from
    [Object.prototype]. *)
Definition PositionMap := Obj.t StandardPiece.

(** [{ ...o }]: a fresh object with the same properties; read in enumeration
    order and created in that order, it enumerates like the original.  No
    object of the engine is shared between two holders, so a copy is the
    value itself. *)
Definition spread (o : PositionMap) : PositionMap := o.

(** [interface SecondaryMove] and [interface MoveDetail]; their fields
    [from], [to] and [piece] carry the prefixes [sm_] and [md_]. *)
Record SecondaryMove : Type := {
  sm_from : string;
  sm_to : string;
  sm_piece : StandardPiece
}.

Record MoveDetail : Type := {
  md_from : string;
  md_to : string;
  md_piece : StandardPiece;
  secondaryMove : option SecondaryMove
}.

Record GeneratePositionsResult : Type := {
  positions : list PositionMap;
  moveDetails : list MoveDetail;
  error : option string
}.

(** ** Notation converter: [utils/NotationConverter.ts] *)

Definition charIn (cs : string) (c : ascii) : bool := JS.includesChar cs c.

(** [Object.values(FrenchPiece).includes(piece)] *)
Definition isFrenchPiece (piece : ascii) : bool :=
  existsb (fun p => Ascii.eqb (frenchLetter p) piece) allPieces.

Definition isStandardPiece (piece : ascii) : bool :=
  existsb (fun p => Ascii.eqb (standardLetter p) piece) allPieces.

(** [conversionMap[piece] || piece] *)
Definition convertPieceToStandard (piece : ascii) : ascii :=
  match piece with
  | "R" => "K" | "r" => "k"
  | "D" => "Q" | "d" => "q"
  | "T" => "R" | "t" => "r"
  | "F" => "B" | "f" => "b"
  | "C" => "N" | "c" => "n"
  | "P" => "P" | "p" => "p"
  | c => c
  end%char.

(** [/^[RDTFC]/.test(move)] *)
Definition isFrenchNotation (move : string) : bool :=
  match move with
  | String c _ => charIn "RDTFC" c
  | EmptyString => false
  end.

(** [move.replace(/^[RDTFC]/i, piece => convertPieceToStandard(piece))]:
    the flag [i] lets the lower-case letters match as well. *)
Definition replaceLeadingFrench (move : string) : string :=
  match move with
  | String c r =>
      if charIn "RDTFCrdtfc" c then String (convertPieceToStandard c) r
      else move
  | EmptyString => EmptyString
  end.

Definition convertMoveToStandard (move : string) : string :=
  if String.eqb move "O-O" || String.eqb move "O-O-O" then move
  else replaceLeadingFrench move.

(** ** Record parser: [utils/FENParser.ts] *)

(** A computation that may [throw new Error(message)]. *)
Definition Result (A : Type) : Type := (string + A)%type.

Definition coordsToAlgebraic (row col : JS.num) : option string :=
  match JS.fromCharCode (JS.add (Some 97) col) with
  | Some file => Some (String file (JS.toString (JS.sub (Some 8) row)))
  | None => None
  end.

(** [/[DTFCdtfc]/.test(s)] *)
Fixpoint hasFrenchLetter (s : string) : bool :=
  match s with
  | EmptyString => false
  | String c s' => charIn "DTFCdtfc" c || hasFrenchLetter s'
  end.

Definition isFrenchFENNotation (fen : string) : bool :=
  let boardPart := hd_error (JS.split "/" fen) in
  hasFrenchLetter (match boardPart with Some b => b | None => "" end).

(** The two [switch] statements of [parsePosition].  The first one switches
    on [char.toUpperCase()] and tells the colour by the case of [char]; it
    is entered for the twelve French letters only. *)
Definition frenchSwitch (char : ascii) : Result StandardPiece :=
  match char with
  | "R" => inr WhiteKing | "r" => inr BlackKing
  | "D" => inr WhiteQueen | "d" => inr BlackQueen
  | "T" => inr WhiteRook | "t" => inr BlackRook
  | "F" => inr WhiteBishop | "f" => inr BlackBishop
  | "C" => inr WhiteKnight | "c" => inr BlackKnight
  | "P" => inr WhitePawn | "p" => inr BlackPawn
  | c => inl ("Invalid French notation piece: " ++ String c "")
  end%char.

Definition standardSwitch (char : ascii) : Result StandardPiece :=
  match char with
  | "K" => inr WhiteKing | "Q" => inr WhiteQueen | "R" => inr WhiteRook
  | "B" => inr WhiteBishop | "N" => inr WhiteKnight | "P" => inr WhitePawn
  | "k" => inr BlackKing | "q" => inr BlackQueen | "r" => inr BlackRook
  | "b" => inr BlackBishop | "n" => inr BlackKnight | "p" => inr BlackPawn
  | c => inl ("Invalid piece character: " ++ String c "")
  end%char.

Definition rankName (rankIndex : Z) : string :=
  JS.toString (Some (8 - rankIndex)).

(** The body of [for (let char of rank)]: the state is [fileIndex] and the
    [position] object under construction. *)
Definition parseChar (isFrench : bool) (rankIndex : Z) (char : ascii)
    (st : JS.num * PositionMap) : Result (JS.num * PositionMap) :=
  let '(fileIndex, position) := st in
  if JS.isNaN_Number_char char then
    if JS.ge fileIndex (Some 8) then
      inl ("Invalid FEN: too many pieces in rank " ++ rankName rankIndex)
    else
      let square := coordsToAlgebraic (Some rankIndex) fileIndex in
      match (if isFrench && isFrenchPiece char
             then frenchSwitch char else standardSwitch char) with
      | inl e => inl e
      | inr piece =>
          let position' :=
            match square with
            | Some sq => Obj.set position sq piece
            | None => position
            end in
          inr (JS.add fileIndex (Some 1), position')
      end
  else
    let emptySquares := JS.parseInt_char char in
    if JS.gt (JS.add fileIndex emptySquares) (Some 8) then
      inl ("Invalid FEN: rank " ++ rankName rankIndex ++ " is too long")
    else inr (JS.add fileIndex emptySquares, position).

Fixpoint parseChars (isFrench : bool) (rankIndex : Z) (rank : string)
    (st : JS.num * PositionMap) : Result (JS.num * PositionMap) :=
  match rank with
  | EmptyString => inr st
  | String char rank' =>
      match parseChar isFrench rankIndex char st with
      | inl e => inl e
      | inr st' => parseChars isFrench rankIndex rank' st'
      end
  end.

(** The callback of [ranks.forEach]. *)
Definition parseRank (isFrench : bool) (rankIndex : Z) (rank : string)
    (position : PositionMap) : Result PositionMap :=
  match parseChars isFrench rankIndex rank (Some 0, position) with
  | inl e => inl e
  | inr (fileIndex, position') =>
      if JS.sne fileIndex (Some 8) then
        inl ("Invalid FEN: rank " ++ rankName rankIndex
             ++ " is incorrect length")
      else inr position'
  end.

Fixpoint parseRanks (isFrench : bool) (rankIndex : Z) (ranks : list string)
    (position : PositionMap) : Result PositionMap :=
  match ranks with
  | [] => inr position
  | rank :: ranks' =>
      match parseRank isFrench rankIndex rank position with
      | inl e => inl e
      | inr position' => parseRanks isFrench (rankIndex + 1) ranks' position'
      end
  end.

Definition parsePosition (boardPart : string) : Result PositionMap :=
  let ranks := JS.split "/" boardPart in
  if negb (Nat.eqb (List.length ranks) 8) then
    inl "Invalid FEN: must have 8 ranks"
  else
    let isFrench := isFrenchFENNotation boardPart in
    parseRanks isFrench 0 ranks [].

Definition parseMoves (movePart : string) : list string :=
  if negb (JS.nonEmpty movePart) then []
  else
    let moves :=
      filter JS.nonEmpty
        (JS.splitSpaces (JS.trim (JS.collapseSpaces movePart))) in
    map (fun move =>
           if String.eqb move "O-O" || String.eqb move "O-O-O" then move
           else replaceLeadingFrench move)
      (filter JS.nonEmpty
         (map (fun move => JS.trim (JS.stripMoveNumber move)) moves)).

Definition parseCastlingRights (castlingString : string) : CastlingRights :=
  {| whiteKingSide := JS.includesChar castlingString "K";
     whiteQueenSide := JS.includesChar castlingString "Q";
     blackKingSide := JS.includesChar castlingString "k";
     blackQueenSide := JS.includesChar castlingString "q" |}.

Record FENStructure : Type := {
  position : PositionMap;
  activeColor : string;
  castling : CastlingRights;
  enPassant : string;
  halfMoveClock : JS.num;
  fullMoveNumber : JS.num;
  moves : list string
}.

(** [interface ParsedFEN]; its field [error] is [parseError] here. *)
Record ParsedFEN : Type := {
  structure : FENStructure;
  isValid : bool;
  parseError : option string
}.

(** [xs[i] ?? ""] and [xs[i] || d] on an array of strings. *)
Definition nthOr (xs : list string) (i : nat) (d : string) : string :=
  match nth_error xs i with
  | Some (String c r) => String c r
  | _ => d
  end.

Definition parseFEN_try (fenString : string) : Result FENStructure :=
  let moveStartIndex := JS.searchMoveNumber fenString in
  let fenPart :=
    match moveStartIndex with
    | Some i => JS.trim (JS.take i fenString)
    | None => JS.trim fenString
    end in
  let movePart :=
    match moveStartIndex with
    | Some i => JS.trim (JS.drop i fenString)
    | None => ""
    end in
  let fenParts := JS.splitSpaces fenPart in
  if (List.length fenParts <? 4)%nat then
    inl "Invalid FEN: missing required components"
  else
    match parsePosition (nthOr fenParts 0 "") with
    | inl e => inl e
    | inr position =>
        inr {| position := position;
               activeColor := nthOr fenParts 1 "";
               castling := parseCastlingRights (nthOr fenParts 2 "");
               enPassant := nthOr fenParts 3 "";
               halfMoveClock := JS.parseInt (nthOr fenParts 4 "0");
               fullMoveNumber := JS.parseInt (nthOr fenParts 5 "1");
               moves := parseMoves movePart |}
    end.

Definition parseFEN (fenString : string) : ParsedFEN :=
  match parseFEN_try fenString with
  | inr s => {| isValid := true; structure := s; parseError := None |}
  | inl message =>
      {| isValid := false;
         parseError := Some message;
         structure :=
           {| position := [];
              activeColor := "w";
              castling := {| whiteKingSide := false; whiteQueenSide := false;
                             blackKingSide := false; blackQueenSide := false |};
              enPassant := "-";
              halfMoveClock := Some 0;
              fullMoveNumber := Some 1;
              moves := [] |} |}
  end.

(** ** Rules, resolver and sequencer: [utils/ChessRules.ts] *)

Definition isWhitePiece (piece : StandardPiece) : bool :=
  existsb (StandardPiece_eqb piece)
    [WhiteKing; WhiteQueen; WhiteRook; WhiteBishop; WhiteKnight; WhitePawn].

Definition getPieceType (piece : StandardPiece) : string :=
  if existsb (StandardPiece_eqb piece) [WhiteKing; BlackKing] then "K"
  else if existsb (StandardPiece_eqb piece) [WhiteQueen; BlackQueen] then "Q"
  else if existsb (StandardPiece_eqb piece) [WhiteRook; BlackRook] then "R"
  else if existsb (StandardPiece_eqb piece) [WhiteBishop; BlackBishop] then "B"
  else if existsb (StandardPiece_eqb piece) [WhiteKnight; BlackKnight] then "N"
  else if existsb (StandardPiece_eqb piece) [WhitePawn; BlackPawn] then "P"
  else "".

(** [sq.charCodeAt(0) - 97] and [8 - parseInt(sq[1] ?? '1', 10)] *)
Definition fileOf (sq : string) : JS.num :=
  JS.sub (JS.charCodeAt0 sq) (Some 97).

Definition rankOf (sq : string) : JS.num :=
  JS.sub (Some 8)
    (JS.parseInt_char
       (match JS.at1 sq with Some c => c | None => "1"%char end)).

(** [String.fromCharCode(97 + file) + (8 - rank)] *)
Definition squareAt (file rank : JS.num) : option string :=
  match JS.fromCharCode (JS.add (Some 97) file) with
  | Some c => Some (String c (JS.toString (JS.sub (Some 8) rank)))
  | None => None
  end.

(** [position[square]] for a computed key; a key outside the alphabet of the
    model names no property. *)
Definition pieceAt (position : PositionMap) (square : option string)
    : option StandardPiece :=
  match square with
  | Some sq => Obj.get position sq
  | None => None
  end.

Definition truthy {A : Type} (x : option A) : bool :=
  match x with Some _ => true | None => false end.

(** The [while] loop of [isPieceBetween]: one unit of fuel per evaluation of
    its condition. *)
Fixpoint betweenLoop (fuel : nat) (position : PositionMap)
    (fileStep rankStep : Z) (toFile toRank : JS.num)
    (currentFile currentRank : JS.num) : option bool :=
  match fuel with
  | O => None
  | S fuel' =>
      if JS.sne currentFile toFile || JS.sne currentRank toRank then
        if truthy (pieceAt position (squareAt currentFile currentRank))
        then Some true
        else betweenLoop fuel' position fileStep rankStep toFile toRank
               (JS.add currentFile (Some fileStep))
               (JS.add currentRank (Some rankStep))
      else Some false
  end.

Definition isPieceBetween (fuel : nat) (from to : string)
    (position : PositionMap) : option bool :=
  let fromFile := fileOf from in
  let fromRank := rankOf from in
  let toFile := fileOf to in
  let toRank := rankOf to in
  let fileStep := JS.or0 (JS.sign (JS.sub toFile fromFile)) in
  let rankStep := JS.or0 (JS.sign (JS.sub toRank fromRank)) in
  betweenLoop fuel position fileStep rankStep toFile toRank
    (JS.add fromFile (Some fileStep)) (JS.add fromRank (Some rankStep)).

(** [c && !isPieceBetween(from, to, position)]: the call is made only when
    [c] holds. *)
Definition andNotBetween (c : bool) (fuel : nat) (from to : string)
    (position : PositionMap) : option bool :=
  if c then option_map negb (isPieceBetween fuel from to position)
  else Some false.

Definition isLegalMove (fuel : nat) (from to : string)
    (piece : StandardPiece) (position : PositionMap) : option bool :=
  let fromFile := fileOf from in
  let fromRank := rankOf from in
  let toFile := fileOf to in
  let toRank := rankOf to in
  let deltaFile := JS.abs (JS.sub toFile fromFile) in
  let deltaRank := JS.abs (JS.sub toRank fromRank) in
  let pieceIsWhite := isWhitePiece piece in
  let targetPiece := Obj.get position to in
  if match targetPiece with
     | Some t => Bool.eqb pieceIsWhite (isWhitePiece t)
     | None => false
     end
  then Some false
  else
    let pieceType := getPieceType piece in
    if String.eqb pieceType "P" then
      let forwardDirection := if pieceIsWhite then -1 else 1 in
      let startRank := if pieceIsWhite then 6 else 1 in
      let advance := JS.sub toRank fromRank in
      if JS.seq fromFile toFile && negb (truthy targetPiece)
         && JS.seq advance (Some forwardDirection)
      then Some true
      else if JS.seq fromFile toFile && negb (truthy targetPiece)
              && JS.seq fromRank (Some startRank)
              && JS.seq advance (Some (forwardDirection * 2))
      then
        let intermediateSquare :=
          squareAt fromFile (JS.add fromRank (Some forwardDirection)) in
        Some (negb (truthy (pieceAt position intermediateSquare)))
      else
        Some (JS.seq deltaFile (Some 1)
              && JS.seq advance (Some forwardDirection)
              && truthy targetPiece)
    else if String.eqb pieceType "R" then
      andNotBetween (JS.seq fromFile toFile || JS.seq fromRank toRank)
        fuel from to position
    else if String.eqb pieceType "N" then
      Some ((JS.seq deltaFile (Some 2) && JS.seq deltaRank (Some 1))
            || (JS.seq deltaFile (Some 1) && JS.seq deltaRank (Some 2)))
    else if String.eqb pieceType "B" then
      andNotBetween (JS.seq deltaFile deltaRank) fuel from to position
    else if String.eqb pieceType "Q" then
      andNotBetween
        ((JS.seq fromFile toFile || JS.seq fromRank toRank)
         || JS.seq deltaFile deltaRank)
        fuel from to position
    else if String.eqb pieceType "K" then
      Some (JS.le deltaFile (Some 1) && JS.le deltaRank (Some 1))
    else Some false.

(** [validSquares.find(square =>
      isLegalMove(square, targetSquare, piece, position))] *)
Fixpoint findLegal (fuel : nat) (squares : list string) (target : string)
    (piece : StandardPiece) (position : PositionMap)
    : option (option string) :=
  match squares with
  | [] => Some None
  | square :: squares' =>
      match isLegalMove fuel square target piece position with
      | None => None
      | Some true => Some (Some square)
      | Some false => findLegal fuel squares' target piece position
      end
  end.

Definition castle (isWhiteTurn : bool) (kingTo rookFrom rookTo : ascii)
    : MoveDetail :=
  let rank := if isWhiteTurn then "1" else "8" in
  let king := if isWhiteTurn then WhiteKing else BlackKing in
  let rook := if isWhiteTurn then WhiteRook else BlackRook in
  {| md_from := "e" ++ rank;
     md_to := String kingTo rank;
     md_piece := king;
     secondaryMove :=
       Some {| sm_from := String rookFrom rank;
               sm_to := String rookTo rank;
               sm_piece := rook |} |}.

(** [s.split('x')]: its first two parts. *)
Definition splitCapture (s : string) : string * string :=
  match JS.split "x" s with
  | a :: b :: _ => (a, b)
  | a :: [] => (a, "")
  | [] => ("", "")
  end.

(** The piece, the disambiguation and the target square that a cleaned token
    denotes. *)
Definition classify (cleanMove : string) (isWhiteTurn : bool)
    : StandardPiece * string * string :=
  match cleanMove with
  | String pieceChar rest =>
      if charIn "KQRBN" pieceChar then
        let piece :=
          if Ascii.eqb pieceChar "K"
          then (if isWhiteTurn then WhiteKing else BlackKing)
          else if Ascii.eqb pieceChar "Q"
          then (if isWhiteTurn then WhiteQueen else BlackQueen)
          else if Ascii.eqb pieceChar "R"
          then (if isWhiteTurn then WhiteRook else BlackRook)
          else if Ascii.eqb pieceChar "B"
          then (if isWhiteTurn then WhiteBishop else BlackBishop)
          else if Ascii.eqb pieceChar "N"
          then (if isWhiteTurn then WhiteKnight else BlackKnight)
          else (if isWhiteTurn then WhitePawn else BlackPawn) in
        if JS.includesChar rest "x" then
          let '(disambiguation, targetSquare) := splitCapture rest in
          (piece, disambiguation, targetSquare)
        else if (2 <? String.length rest)%nat then
          (piece, JS.dropLast2 rest, JS.last2 rest)
        else (piece, "", rest)
      else
        let piece := if isWhiteTurn then WhitePawn else BlackPawn in
        if JS.includesChar cleanMove "x" then
          let '(disambiguation, targetSquare) := splitCapture cleanMove in
          (piece, disambiguation, targetSquare)
        else (piece, "", cleanMove)
  | EmptyString =>
      (if isWhiteTurn then WhitePawn else BlackPawn, "", "")
  end.

Definition findPieceForMove (fuel : nat) (position : PositionMap)
    (move : string) (isWhiteTurn : bool) : option (option MoveDetail) :=
  if String.eqb move "O-O" then Some (Some (castle isWhiteTurn "g" "h" "f"))
  else if String.eqb move "O-O-O"
  then Some (Some (castle isWhiteTurn "c" "a" "d"))
  else
    let cleanMove := JS.removeChars (charIn "+#!?") move in
    let cleanMove :=
      if isFrenchNotation cleanMove then convertMoveToStandard cleanMove
      else cleanMove in
    let '(piece, disambiguation, targetSquare) :=
      classify cleanMove isWhiteTurn in
    if negb (String.length targetSquare =? 2)%nat then Some None
    else
      let candidateSquares :=
        filter (fun square =>
                  match Obj.get position square with
                  | Some pieceAtSquare => StandardPiece_eqb pieceAtSquare piece
                  | None => false
                  end)
          (Obj.keys position) in
      let validSquares :=
        if JS.nonEmpty disambiguation
        then filter (fun square => JS.includes square disambiguation)
               candidateSquares
        else candidateSquares in
      match findLegal fuel validSquares targetSquare piece position with
      | None => None
      | Some (Some (String c r)) =>
          Some (Some {| md_from := String c r; md_to := targetSquare;
                        md_piece := piece; secondaryMove := None |})
      | Some _ => Some None
      end.

(** What [console.warn] is called with. *)
Inductive Warning : Type :=
| InvalidMove (index : nat) (move standardMove : string)
| MovesNotExecuted (expected generated : nat).

(** The variables that the callback of [moveList.forEach] reads and writes,
    and the console. *)
Record SequencerState : Type := {
  st_positions : list PositionMap;
  st_moveDetails : list MoveDetail;
  st_currentPos : PositionMap;
  st_isWhiteTurn : bool;
  st_console : list Warning
}.

Definition applyMove (currentPos : PositionMap) (moveInfo : MoveDetail)
    : PositionMap :=
  let newPos := spread currentPos in
  let newPos := Obj.delete newPos (md_from moveInfo) in
  let newPos := Obj.set newPos (md_to moveInfo) (md_piece moveInfo) in
  match secondaryMove moveInfo with
  | Some sm =>
      let newPos := Obj.delete newPos (sm_from sm) in
      Obj.set newPos (sm_to sm) (sm_piece sm)
  | None => newPos
  end.

Definition sequencerStep (fuel : nat) (st : SequencerState)
    (move : string) (index : nat) : option SequencerState :=
  let standardMove :=
    if isFrenchNotation move then convertMoveToStandard move else move in
  match findPieceForMove fuel (st_currentPos st) standardMove
          (st_isWhiteTurn st) with
  | None => None
  | Some (Some moveInfo) =>
      let currentPos := applyMove (st_currentPos st) moveInfo in
      Some {| st_positions := st_positions st ++ [spread currentPos];
              st_moveDetails := st_moveDetails st ++ [moveInfo];
              st_currentPos := currentPos;
              st_isWhiteTurn := negb (st_isWhiteTurn st);
              st_console := st_console st |}
  | Some None =>
      Some {| st_positions := st_positions st ++ [spread (st_currentPos st)];
              st_moveDetails := st_moveDetails st;
              st_currentPos := st_currentPos st;
              st_isWhiteTurn := negb (st_isWhiteTurn st);
              st_console :=
                st_console st ++ [InvalidMove index move standardMove] |}
  end.

(** [moveList.forEach((move, index) => ...)] from [index] on. *)
Fixpoint sequencerLoop (fuel : nat) (moveList : list string) (index : nat)
    (st : SequencerState) : option SequencerState :=
  match moveList with
  | [] => Some st
  | move :: moveList' =>
      match sequencerStep fuel st move index with
      | None => None
      | Some st' => sequencerLoop fuel moveList' (S index) st'
      end
  end.

(** The message of the [error] field; its two accented letters are the code
    units 234 and 233. *)
Definition notExecutedMessage : string :=
  "Certains coups n'ont pas pu " ++ String (ascii_of_nat 234) "tre ex"
  ++ String (ascii_of_nat 233) "cut" ++ String (ascii_of_nat 233) "s".

(** The result and the warnings written to the console. *)
Definition generatePositions (fuel : nat) (initialPos : PositionMap)
    (moveList : list string)
    : option (GeneratePositionsResult * list Warning) :=
  let st0 := {| st_positions := [];
                st_moveDetails := [];
                st_currentPos := spread initialPos;
                st_isWhiteTurn := true;
                st_console := [] |} in
  match sequencerLoop fuel moveList O st0 with
  | None => None
  | Some st =>
      let mismatch :=
        negb (List.length (st_positions st) =? List.length moveList)%nat in
      Some ({| positions := st_positions st;
               moveDetails := st_moveDetails st;
               error :=
                 if mismatch
                 then Some notExecutedMessage
                 else None |},
            if mismatch
            then (st_console st
                  ++ [MovesNotExecuted (List.length moveList)
                        (List.length (st_positions st))])%list
            else st_console st)
  end.

Definition initialBoard : string :=
  "rnbqkbnr/pppppppp/8/8/8/8/PPPPPPPP/RNBQKBNR".

Definition initialPosition : PositionMap :=
  match parsePosition initialBoard with
  | inr p => p
  | inl _ => []
  end.

(** ** The earlier, string-typed rules module *)

Module Legacy.

(** [isFrenchFEN]: the board part is what precedes the first space. *)
Definition isFrenchFEN (fen : string) : bool :=
  hasFrenchLetter
    (match JS.split " " fen with b :: _ => b | [] => "" end).

(** [frenchToStandardFEN]: ten replacements applied one after the other. *)
Definition frenchToStandardFEN (fen : string) : string :=
  if negb (isFrenchFEN fen) then fen
  else
    let s1 := JS.replaceAllChar "r" "k" (JS.replaceAllChar "R" "K" fen) in
    let s2 := JS.replaceAllChar "d" "q" (JS.replaceAllChar "D" "Q" s1) in
    let s3 := JS.replaceAllChar "t" "r" (JS.replaceAllChar "T" "R" s2) in
    let s4 := JS.replaceAllChar "f" "b" (JS.replaceAllChar "F" "B" s3) in
    JS.replaceAllChar "c" "n" (JS.replaceAllChar "C" "N" s4).

(** [parseMoves] *)
Definition parseMoves (moveString : string) : list string :=
  if negb (JS.nonEmpty moveString) then []
  else
    filter JS.nonEmpty
      (JS.splitSpaces (JS.trim (JS.stripAllMoveNumbers moveString))).

End Legacy.

(** ** Notions used to state the properties *)

(** [moveList.forEach] first converts a token that starts with a French
    letter. *)
Definition standardize (move : string) : string :=
  if isFrenchNotation move then convertMoveToStandard move else move.

(** The position a token is resolved against: the initial one for the first
    token, the position recorded for the previous token afterwards. *)
Definition positionBefore (initialPos : PositionMap)
    (ps : list PositionMap) (i : nat) : PositionMap :=
  match i with
  | O => initialPos
  | S j => nth j ps []
  end.

(** A key made of one character followed by one decimal digit.  The squares
    [a1] to [h8] are of that form, and so is every key the sequencer adds. *)
Definition squareLike (k : string) : bool :=
  match k with
  | String _ (String d EmptyString) => JS.isDigit d
  | _ => false
  end.

Definition isBoardSquare (k : string) : bool :=
  match k with
  | String f (String r EmptyString) =>
      (97 <=? JS.code f) && (JS.code f <=? 104)
      && (49 <=? JS.code r) && (JS.code r <=? 56)
  | _ => false
  end.

Definition squareKeys (position : PositionMap) : Prop :=
  Forall (fun kv => squareLike (fst kv) = true) position.

(** The condition under which [isLegalMove] calls [isPieceBetween]. *)
Definition walkGuard (from to : string) : bool :=
  JS.seq (fileOf from) (fileOf to) || JS.seq (rankOf from) (rankOf to)
  || JS.seq (JS.abs (JS.sub (fileOf to) (fileOf from)))
       (JS.abs (JS.sub (rankOf to) (rankOf from))).

(** The outcome of one token: the position recorded for it. *)
Definition outcome (prior : PositionMap) (res : option MoveDetail)
    : PositionMap :=
  match res with
  | Some moveInfo => applyMove prior moveInfo
  | None => prior
  end.

(** The side to move at token [i] when [startWhite] moves first. *)
Definition turnAt (startWhite : bool) (i : nat) : bool :=
  if Nat.even i then startWhite else negb startWhite.

(** The resolution of token [i], against the position recorded before it. *)
Definition resolutionAt (fuel : nat) (initialPos : PositionMap)
    (startWhite : bool) (moveList : list string) (ps : list PositionMap)
    (i : nat) : option (option MoveDetail) :=
  match nth_error moveList i with
  | Some move =>
      findPieceForMove fuel (positionBefore initialPos ps i)
        (standardize move) (turnAt startWhite i)
  | None => None
  end.

Definition recordedAt (fuel : nat) (initialPos : PositionMap)
    (startWhite : bool) (moveList : list string) (ps : list PositionMap)
    (i : nat) : list MoveDetail :=
  match resolutionAt fuel initialPos startWhite moveList ps i with
  | Some (Some moveInfo) => [moveInfo]
  | _ => []
  end.

(** A French rook ending: black king e8, white rook a1, white king e1. *)
Definition frenchRookEnding : string := "4r3/8/8/8/8/8/8/T3R3".

(** [s] with [f] applied to each of its characters. *)
Fixpoint mapChars (f : ascii -> ascii) (s : string) : string :=
  match s with
  | EmptyString => EmptyString
  | String c s' => String (f c) (mapChars f s')
  end.

(** A logical position: eight ranks, from rank 8 down to rank 1, of eight
    squares each, from file a to file h. *)
Definition Board : Type := list (list (option StandardPiece)).

Definition isBoard (b : Board) : bool :=
  (List.length b =? 8)%nat
  && forallb (fun rank => (List.length rank =? 8)%nat) b.

(** The board section that writes a logical position with the letters of
    one alphabet: a run of empty squares is written as its length, the
    ranks are joined by slashes. *)
Definition emptyRun (n : nat) : string :=
  match n with
  | O => ""
  | S _ => String (ascii_of_nat (48 + n)) ""
  end.

Fixpoint writeRank (letter : StandardPiece -> ascii) (run : nat)
    (squares : list (option StandardPiece)) : string :=
  match squares with
  | [] => emptyRun run
  | None :: rest => writeRank letter (S run) rest
  | Some p :: rest =>
      emptyRun run ++ String (letter p) (writeRank letter 0 rest)
  end.

Fixpoint joinRanks (ranks : list string) : string :=
  match ranks with
  | [] => ""
  | r :: rs =>
      match rs with
      | [] => r
      | _ :: _ => r ++ String "/" (joinRanks rs)
      end
  end.

Definition boardSection (letter : StandardPiece -> ascii) (b : Board)
    : string :=
  joinRanks (map (writeRank letter 0) b).

Definition emptyRank : list (option StandardPiece) :=
  [None; None; None; None; None; None; None; None].

(** The two kings on their home squares and nothing else. *)
Definition kingsOnly : Board :=
  [[None; None; None; None; Some BlackKing; None; None; None];
   emptyRank; emptyRank; emptyRank; emptyRank; emptyRank; emptyRank;
   [None; None; None; None; Some WhiteKing; None; None; None]].

Definition initialBoardFrench : string :=
  "tcfdrfct/pppppppp/8/8/8/8/PPPPPPPP/TCFDRFCT".

(** The pieces of a string between the characters of a class: one more
    piece than there are such characters. *)
Fixpoint splitOn (p : ascii -> bool) (s : string) : list string :=
  match s with
  | EmptyString => [EmptyString]
  | String c s' =>
      if p c then EmptyString :: splitOn p s'
      else match splitOn p s' with
           | [] => [String c EmptyString]
           | w :: ws => String c w :: ws
           end
  end.

(** The tokens of a move section: its pieces between white-space
    characters, each without a leading move number, the empty ones
    dropped. *)
Definition tokensOf (moveSection : string) : list string :=
  filter JS.nonEmpty
    (map JS.stripMoveNumber
       (filter JS.nonEmpty (splitOn JS.isSpace moveSection))).



(** No character of the string is white space. *)
Fixpoint noSpace (s : string) : bool :=
  match s with
  | EmptyString => true
  | String c s' => negb (JS.isSpace c) && noSpace s'
  end.

(** The first piece, and the later pieces that are not empty. *)
Definition pieceView (l : list string) : string * list string :=
  (hd "" l, filter JS.nonEmpty (tl l)).

Definition pieceStep (c : ascii) (v : string * list string)
    : string * list string :=
  if JS.isSpace c
  then ("", (if JS.nonEmpty (fst v) then [fst v] else []) ++ snd v)%list
  else (String c (fst v), snd v).

(** The letters that the decoder accepts in each mode, and the number of
    files that a character of a rank stands for. *)
Definition recognized (isFrench : bool) (c : ascii) : bool :=
  if isFrench && isFrenchPiece c then true else isStandardPiece c.

Definition charWidth (isFrench : bool) (c : ascii) : option Z :=
  if JS.isDigit c then Some (JS.digitValue c)
  else if JS.isSpace c then None
  else if recognized isFrench c then Some 1
  else None.

Fixpoint rankWidth (isFrench : bool) (rank : string) : option Z :=
  match rank with
  | EmptyString => Some 0
  | String c r =>
      match charWidth isFrench c, rankWidth isFrench r with
      | Some a, Some b => Some (a + b)
      | _, _ => None
      end
  end.

(** Eight ranks, each made of digits and accepted letters that stand for
    eight files in all. *)
Definition accepted (boardPart : string) : bool :=
  let ranks := JS.split "/" boardPart in
  (List.length ranks =? 8)%nat
  && forallb (fun rank =>
                match rankWidth (isFrenchFENNotation boardPart) rank with
                | Some w => w =? 8
                | None => false
                end) ranks.

(** ** Further notions, for the properties beyond the specification *)

(** [standardToFrenchMap] and [convertPieceToFrench] of the notation
    converter: each piece is sent to the French piece of the same name. *)
Definition convertPieceToFrench (piece : StandardPiece) : ascii :=
  frenchLetter piece.

(** The token that [findPieceForMove] classifies: the glyphs [+ # ! ?]
    removed, then the leading French letter converted. *)
Definition cleanToken (move : string) : string :=
  let cleanMove := JS.removeChars (charIn "+#!?") move in
  if isFrenchNotation cleanMove then convertMoveToStandard cleanMove
  else cleanMove.

Definition isCastlingToken (move : string) : bool :=
  String.eqb move "O-O" || String.eqb move "O-O-O".

(** [parseInt(sq[1] ?? '1', 10)]: the rank number written in a square. *)
Definition rankNumber (sq : string) : JS.num :=
  JS.parseInt_char (match JS.at1 sq with Some c => c | None => "1"%char end).

(** The fields of the record as [parseFEN] splits them: what precedes the
    first move number, trimmed and cut at runs of white space. *)
Definition fenFields (fenString : string) : list string :=
  JS.splitSpaces
    (match JS.searchMoveNumber fenString with
     | Some i => JS.trim (JS.take i fenString)
     | None => JS.trim fenString
     end).

(** Some digit of the string is immediately followed by a dot. *)
Fixpoint digitDot (s : string) : bool :=
  match s with
  | String c ((String d _) as s') =>
      (JS.isDigit c && Ascii.eqb d ".") || digitDot s'
  | _ => false
  end.

(** The keys of an object are pairwise different. *)
Definition distinctKeys {V : Type} (o : Obj.t V) : Prop :=
  NoDup (map fst o).

(** The first character of the string is one of [cs]. *)
Definition startsIn (cs : string) (w : string) : bool :=
  match w with
  | String c _ => charIn cs c
  | EmptyString => false
  end.

(** Every key of the position names a square of the board, a1 to h8. *)
Definition boardKeys (position : PositionMap) : Prop :=
  Forall (fun kv => isBoardSquare (fst kv) = true) position.

(** The squares strictly between two squares of a line: those at 1, ...,
    n - 1 steps from the first towards the second, where n is the larger
    of the distances in files and in ranks. *)
Definition squaresBetween (from to : string) : list (option string) :=
  match fileOf from, rankOf from, fileOf to, rankOf to with
  | Some ff, Some fr, Some tf, Some tr =>
      let n := Z.to_nat (Z.max (Z.abs (tf - ff)) (Z.abs (tr - fr))) in
      map (fun k =>
             squareAt (Some (ff + Z.of_nat k * Z.sgn (tf - ff)))
               (Some (fr + Z.of_nat k * Z.sgn (tr - fr))))
        (seq 1 (n - 1))
  | _, _, _, _ => []
  end.

(** The name of the square in row [r] (row 0 is rank 8) and file [f]
    (file 0 is file a) of a logical position. *)
Definition squareName (r f : nat) : string :=
  String (ascii_of_nat (97 + f)) (String (ascii_of_nat (56 - r)) "").

(** A position after the squares of row [r], from file [f] on, and after
    the rows from row [r] on, are written into it. *)
Fixpoint placeSquares (r f : nat) (squares : list (option StandardPiece))
    (position : PositionMap) : PositionMap :=
  match squares with
  | [] => position
  | None :: rest => placeSquares r (S f) rest position
  | Some p :: rest =>
      placeSquares r (S f) rest (Obj.set position (squareName r f) p)
  end.

Fixpoint placeRows (r : nat) (rows : Board) (position : PositionMap)
    : PositionMap :=
  match rows with
  | [] => position
  | row :: rest => placeRows (S r) rest (placeSquares r 0 row position)
  end.

(** ** The earlier rules and parser: the string-typed [utils/ChessRules.ts]

    The player component imports this earlier form of the engine.  Pieces
    are strings there, a position maps squares to strings, and nothing is
    validated. *)

Module LegacyRules.

(** [interface PositionMap { [square: string]: string }] *)
Definition PositionMap : Type := Obj.t string.

(** [interface SecondaryMove], [interface MoveInfo] and
    [interface MoveDetail] of the earlier [types/chess.ts]; the fields carry
    the prefixes [ls_], [mi_] and [ld_]. *)
Record SecondaryMove : Type := {
  ls_from : string;
  ls_to : string;
  ls_piece : string
}.

Record MoveInfo : Type := {
  mi_from : string;
  mi_to : string;
  mi_piece : string;
  mi_secondaryMove : option SecondaryMove
}.

Record MoveDetail : Type := {
  ld_from : string;
  ld_to : string;
  ld_piece : string;
  ld_secondaryFrom : option string;
  ld_secondaryTo : option string;
  ld_secondaryPiece : option string
}.

Record GeneratePositionsResult : Type := {
  lr_positions : list PositionMap;
  lr_moveDetails : list MoveDetail
}.

(** [s.toUpperCase()].  Among the code units below 256, the letters a to z
    and the accented letters from 224 to 254 (the division sign, 247,
    apart) move down by 32, the sharp s (223) becomes [SS], and the micro
    sign (181) and the y with diaeresis (255) become characters of code
    256 or more: the result is then no string of the model, [None]. *)
Definition upperChar (c : ascii) : option string :=
  let n := JS.code c in
  if ((97 <=? n) && (n <=? 122))
     || ((224 <=? n) && (n <=? 254) && negb (n =? 247))
  then Some (String (ascii_of_N (Z.to_N (n - 32))) "")
  else if n =? 223 then Some "SS"
  else if (n =? 181) || (n =? 255) then None
  else Some (String c "").

Fixpoint toUpperCase (s : string) : option string :=
  match s with
  | EmptyString => Some EmptyString
  | String c s' =>
      match upperChar c, toUpperCase s' with
      | Some a, Some b => Some (a ++ b)
      | _, _ => None
      end
  end.

(** [s === s.toUpperCase()] and [s.toUpperCase() === t]: a string of the
    model differs from every string that is not of the model. *)
Definition isUpperCase (s : string) : bool :=
  match toUpperCase s with
  | Some u => String.eqb s u
  | None => false
  end.

Definition upperIs (s t : string) : bool :=
  match toUpperCase s with
  | Some u => String.eqb u t
  | None => false
  end.

(** [s.toLowerCase()]: the letters A to Z and the accented letters from
    192 to 222 (the multiplication sign, 215, apart) move up by 32. *)
Definition lowerChar (c : ascii) : ascii :=
  let n := JS.code c in
  if ((65 <=? n) && (n <=? 90))
     || ((192 <=? n) && (n <=? 222) && negb (n =? 215))
  then ascii_of_N (Z.to_N (n + 32))
  else c.

Fixpoint toLowerCase (s : string) : string :=
  match s with
  | EmptyString => EmptyString
  | String c s' => String (lowerChar c) (toLowerCase s')
  end.

(** The truth value of [position[square]]: a missing property and the
    empty string are falsy. *)
Definition truthy (x : option string) : bool :=
  match x with
  | Some s => JS.nonEmpty s
  | None => false
  end.

Definition pieceAt (position : PositionMap) (square : option string)
    : option string :=
  match square with
  | Some sq => Obj.get position sq
  | None => None
  end.

(** [sq.charCodeAt(0) - 97] and [8 - parseInt(sq[1])]; [parseInt] of
    [undefined] is [NaN]. *)
Definition fileOf (sq : string) : JS.num :=
  JS.sub (JS.charCodeAt0 sq) (Some 97).

Definition rankOf (sq : string) : JS.num :=
  JS.sub (Some 8)
    (match JS.at1 sq with
     | Some c => JS.parseInt_char c
     | None => JS.NaN
     end).

(** The [while] loop of [isPieceBetween]: one unit of fuel per evaluation
    of its condition. *)
Fixpoint betweenLoop (fuel : nat) (position : PositionMap)
    (fileStep rankStep : Z) (toFile toRank : JS.num)
    (currentFile currentRank : JS.num) : option bool :=
  match fuel with
  | O => None
  | S fuel' =>
      if JS.sne currentFile toFile || JS.sne currentRank toRank then
        if truthy (pieceAt position (squareAt currentFile currentRank))
        then Some true
        else betweenLoop fuel' position fileStep rankStep toFile toRank
               (JS.add currentFile (Some fileStep))
               (JS.add currentRank (Some rankStep))
      else Some false
  end.

Definition isPieceBetween (fuel : nat) (from to : string)
    (position : PositionMap) : option bool :=
  let fromFile := fileOf from in
  let fromRank := rankOf from in
  let toFile := fileOf to in
  let toRank := rankOf to in
  let fileStep := JS.or0 (JS.sign (JS.sub toFile fromFile)) in
  let rankStep := JS.or0 (JS.sign (JS.sub toRank fromRank)) in
  betweenLoop fuel position fileStep rankStep toFile toRank
    (JS.add fromFile (Some fileStep)) (JS.add fromRank (Some rankStep)).

(** [c && !isPieceBetween(from, to, position)] *)
Definition andNotBetween (c : bool) (fuel : nat) (from to : string)
    (position : PositionMap) : option bool :=
  if c then option_map negb (isPieceBetween fuel from to position)
  else Some false.

Definition isLegalMove (fuel : nat) (from to : string) (piece : string)
    (position : PositionMap) : option bool :=
  let fromFile := fileOf from in
  let fromRank := rankOf from in
  let toFile := fileOf to in
  let toRank := rankOf to in
  let deltaFile := JS.abs (JS.sub toFile fromFile) in
  let deltaRank := JS.abs (JS.sub toRank fromRank) in
  let isWhitePiece := isUpperCase piece in
  let targetPiece := Obj.get position to in
  if match targetPiece with
     | Some t => JS.nonEmpty t && Bool.eqb isWhitePiece (isUpperCase t)
     | None => false
     end
  then Some false
  else if upperIs piece "P" then
    let forwardDirection := if isWhitePiece then -1 else 1 in
    let startRank := if isWhitePiece then 6 else 1 in
    let advance := JS.sub toRank fromRank in
    let capture :=
      JS.seq deltaFile (Some 1) && JS.seq advance (Some forwardDirection)
      && truthy targetPiece in
    if JS.seq fromFile toFile && negb (truthy targetPiece) then
      if JS.seq advance (Some forwardDirection) then Some true
      else if JS.seq fromRank (Some startRank)
              && JS.seq advance (Some (forwardDirection * 2))
              && negb (truthy
                         (pieceAt position
                            (squareAt fromFile
                               (JS.add fromRank (Some forwardDirection)))))
      then Some true
      else Some capture
    else Some capture
  else if upperIs piece "R" then
    andNotBetween (JS.seq fromFile toFile || JS.seq fromRank toRank)
      fuel from to position
  else if upperIs piece "N" then
    Some ((JS.seq deltaFile (Some 2) && JS.seq deltaRank (Some 1))
          || (JS.seq deltaFile (Some 1) && JS.seq deltaRank (Some 2)))
  else if upperIs piece "B" then
    andNotBetween (JS.seq deltaFile deltaRank) fuel from to position
  else if upperIs piece "Q" then
    andNotBetween
      ((JS.seq fromFile toFile || JS.seq fromRank toRank)
       || JS.seq deltaFile deltaRank)
      fuel from to position
  else if upperIs piece "K" then
    Some (JS.le deltaFile (Some 1) && JS.le deltaRank (Some 1))
  else Some false.

(** [validSquares.find(square =>
      isLegalMove(square, targetSquare, piece, position))] *)
Fixpoint findLegal (fuel : nat) (squares : list string) (target : string)
    (piece : string) (position : PositionMap) : option (option string) :=
  match squares with
  | [] => Some None
  | square :: squares' =>
      match isLegalMove fuel square target piece position with
      | None => None
      | Some true => Some (Some square)
      | Some false => findLegal fuel squares' target piece position
      end
  end.

Definition castle (isWhiteTurn : bool) (kingTo rookFrom rookTo : ascii)
    : MoveInfo :=
  let rank := if isWhiteTurn then "1" else "8" in
  let king := if isWhiteTurn then "K" else "k" in
  let rook := if isWhiteTurn then "R" else "r" in
  {| mi_from := "e" ++ rank;
     mi_to := String kingTo rank;
     mi_piece := king;
     mi_secondaryMove :=
       Some {| ls_from := String rookFrom rank;
               ls_to := String rookTo rank;
               ls_piece := rook |} |}.

(** The piece letter, the disambiguation and the target square that a
    cleaned token denotes, before the letter is lowered for Black. *)
Definition classify (cleanMove : string) : string * string * string :=
  match cleanMove with
  | String pieceChar rest =>
      if charIn "KQRBN" pieceChar then
        let piece := String pieceChar "" in
        if JS.includesChar rest "x" then
          let '(disambiguation, targetSquare) := splitCapture rest in
          (piece, disambiguation, targetSquare)
        else if (2 <? String.length rest)%nat then
          (piece, JS.dropLast2 rest, JS.last2 rest)
        else (piece, "", rest)
      else
        if JS.includesChar cleanMove "x" then
          let '(disambiguation, targetSquare) := splitCapture cleanMove in
          ("P", disambiguation, targetSquare)
        else ("P", "", cleanMove)
  | EmptyString => ("P", "", "")
  end.

Definition findPieceForMove (fuel : nat) (position : PositionMap)
    (move : string) (isWhiteTurn : bool) : option (option MoveInfo) :=
  if String.eqb move "O-O" || String.eqb move "O-O-O" then
    if String.eqb move "O-O"
    then Some (Some (castle isWhiteTurn "g" "h" "f"))
    else Some (Some (castle isWhiteTurn "c" "a" "d"))
  else
    let cleanMove := JS.removeChars (charIn "+#!?") move in
    let '(piece, disambiguation, targetSquare) := classify cleanMove in
    let piece := if negb isWhiteTurn then toLowerCase piece else piece in
    let candidateSquares :=
      filter (fun square =>
                match Obj.get position square with
                | Some pieceAtSquare => String.eqb pieceAtSquare piece
                | None => false
                end)
        (Obj.keys position) in
    let validSquares :=
      if JS.nonEmpty disambiguation
      then filter (fun square => JS.includes square disambiguation)
             candidateSquares
      else candidateSquares in
    match findLegal fuel validSquares targetSquare piece position with
    | None => None
    | Some (Some (String c r)) =>
        Some (Some {| mi_from := String c r; mi_to := targetSquare;
                      mi_piece := piece; mi_secondaryMove := None |})
    | Some _ => Some None
    end.

(** The variables that the callback of [moveList.forEach] reads and
    writes. *)
Record SequencerState : Type := {
  lst_positions : list PositionMap;
  lst_moveDetails : list MoveDetail;
  lst_currentPos : PositionMap;
  lst_isWhiteTurn : bool
}.

Definition detailOf (moveInfo : MoveInfo) : MoveDetail :=
  {| ld_from := mi_from moveInfo;
     ld_to := mi_to moveInfo;
     ld_piece := mi_piece moveInfo;
     ld_secondaryFrom := option_map ls_from (mi_secondaryMove moveInfo);
     ld_secondaryTo := option_map ls_to (mi_secondaryMove moveInfo);
     ld_secondaryPiece := option_map ls_piece (mi_secondaryMove moveInfo) |}.

Definition applyMove (currentPos : PositionMap) (moveInfo : MoveInfo)
    : PositionMap :=
  let newPos := Obj.delete currentPos (mi_from moveInfo) in
  let newPos := Obj.set newPos (mi_to moveInfo) (mi_piece moveInfo) in
  match mi_secondaryMove moveInfo with
  | Some sm =>
      let newPos := Obj.delete newPos (ls_from sm) in
      Obj.set newPos (ls_to sm) (ls_piece sm)
  | None => newPos
  end.

Definition sequencerStep (fuel : nat) (st : SequencerState) (move : string)
    : option SequencerState :=
  match findPieceForMove fuel (lst_currentPos st) move (lst_isWhiteTurn st) with
  | None => None
  | Some (Some moveInfo) =>
      let currentPos := applyMove (lst_currentPos st) moveInfo in
      Some {| lst_positions := lst_positions st ++ [currentPos];
              lst_moveDetails := lst_moveDetails st ++ [detailOf moveInfo];
              lst_currentPos := currentPos;
              lst_isWhiteTurn := negb (lst_isWhiteTurn st) |}
  | Some None =>
      Some {| lst_positions := lst_positions st;
              lst_moveDetails := lst_moveDetails st;
              lst_currentPos := lst_currentPos st;
              lst_isWhiteTurn := negb (lst_isWhiteTurn st) |}
  end.

Fixpoint sequencerLoop (fuel : nat) (moveList : list string)
    (st : SequencerState) : option SequencerState :=
  match moveList with
  | [] => Some st
  | move :: moveList' =>
      match sequencerStep fuel st move with
      | None => None
      | Some st' => sequencerLoop fuel moveList' st'
      end
  end.

Definition generatePositions (fuel : nat) (initialPos : PositionMap)
    (moveList : list string) : option GeneratePositionsResult :=
  let st0 := {| lst_positions := [initialPos];
                lst_moveDetails := [];
                lst_currentPos := initialPos;
                lst_isWhiteTurn := true |} in
  match sequencerLoop fuel moveList st0 with
  | None => None
  | Some st =>
      Some {| lr_positions := lst_positions st;
              lr_moveDetails := lst_moveDetails st |}
  end.

(** [coordsToAlgebraic] and [parseFEN].  No character is rejected and no
    length is checked, so a file index can grow past the alphabet of the
    model: the object under construction is then [None]. *)
Definition coordsToAlgebraic (row col : JS.num) : option string :=
  match JS.fromCharCode (JS.add (Some 97) col) with
  | Some file => Some (String file (JS.toString (JS.sub (Some 8) row)))
  | None => None
  end.

Definition parseChar (rankIndex : Z) (char : ascii)
    (st : JS.num * option PositionMap) : JS.num * option PositionMap :=
  let '(fileIndex, position) := st in
  if JS.isNaN_Number_char char then
    (JS.add fileIndex (Some 1),
     match position, coordsToAlgebraic (Some rankIndex) fileIndex with
     | Some o, Some square => Some (Obj.set o square (String char ""))
     | _, _ => None
     end)
  else (JS.add fileIndex (JS.parseInt_char char), position).

Fixpoint parseChars (rankIndex : Z) (rank : string)
    (st : JS.num * option PositionMap) : JS.num * option PositionMap :=
  match rank with
  | EmptyString => st
  | String char rank' => parseChars rankIndex rank' (parseChar rankIndex char st)
  end.

(** [ranks.forEach((rank, rankIndex) => ...)] from [rankIndex] on. *)
Fixpoint parseRanks (rankIndex : Z) (ranks : list string)
    (position : option PositionMap) : option PositionMap :=
  match ranks with
  | [] => position
  | rank :: ranks' =>
      parseRanks (rankIndex + 1) ranks'
        (snd (parseChars rankIndex rank (Some 0, position)))
  end.

Definition parseFEN (fen : string) : option PositionMap :=
  let standardFEN := Legacy.frenchToStandardFEN fen in
  let parts := JS.split " " standardFEN in
  let boardPart := match parts with b :: _ => b | [] => "" end in
  let ranks := JS.split "/" boardPart in
  parseRanks 0 ranks (Some []).

End LegacyRules.

(** The earlier form of a position and of a resolved move: each piece is
    written as its standard letter. *)
Definition pieceString (p : StandardPiece) : string :=
  String (standardLetter p) "".

Definition asLegacy (position : PositionMap) : LegacyRules.PositionMap :=
  map (fun kv => (fst kv, pieceString (snd kv))) position.

Definition asLegacyMove (detail : MoveDetail) : LegacyRules.MoveInfo :=
  {| LegacyRules.mi_from := md_from detail;
     LegacyRules.mi_to := md_to detail;
     LegacyRules.mi_piece := pieceString (md_piece detail);
     LegacyRules.mi_secondaryMove :=
       option_map
         (fun sm =>
            {| LegacyRules.ls_from := sm_from sm;
               LegacyRules.ls_to := sm_to sm;
               LegacyRules.ls_piece := pieceString (sm_piece sm) |})
         (secondaryMove detail) |}.

(** A token that both forms of the resolver read alike: once its glyphs
    are removed it does not start with a French letter, and the square it
    names has two characters. *)
Definition directToken (move : string) : bool :=
  let cleanMove := JS.removeChars (charIn "+#!?") move in
  negb (isFrenchNotation cleanMove)
  && (String.length (snd (LegacyRules.classify cleanMove)) =? 2)%nat.

(** The positions reached by applying the details one after the other. *)
Fixpoint replay (position : PositionMap) (details : list MoveDetail)
    : list PositionMap :=
  match details with
  | [] => []
  | detail :: details' =>
      applyMove position detail :: replay (applyMove position detail) details'
  end.

Definition asLegacyDetail (detail : MoveDetail) : LegacyRules.MoveDetail :=
  LegacyRules.detailOf (asLegacyMove detail).

(** The 64 squares of the board, rank 8 first. *)
Definition allSquares : list string :=
  flat_map (fun r => map (squareName r) (seq 0 8)) (seq 0 8).

(** ** The player: [components/ChessPlayGenerator/ChessPlayGenerator.tsx]

    The state of the component is the record of its [useState] variables;
    a handler or an effect is the function from the state it reads to the
    state after its updates.  The fields carry the prefix [pl_]. *)

(** [xs[i]] for an integer [i]: [undefined] out of range. *)
Definition nthZ {A : Type} (xs : list A) (i : Z) : option A :=
  if i <? 0 then None else nth_error xs (Z.to_nat i).

Module Player.

Record State : Type := {
  pl_fenInput : string;
  pl_currentPosition : PositionMap;
  pl_isAnimating : bool;
  pl_currentMoveIndex : Z;
  pl_moves : list string;
  pl_positions : list PositionMap;
  pl_moveDetails : list MoveDetail
}.

Definition initialFEN : string :=
  "rnbqkbnr/pppppppp/8/8/8/8/PPPPPPPP/RNBQKBNR w KQkq - 0 1".

(** The state at the first render. *)
Definition initialState : State :=
  {| pl_fenInput :=
       "rnbqkbnr/pppppppp/8/8/8/8/PPPPPPPP/RNBQKBNR w KQkq - 0 1 1.e4 e5 2.Nf3 Nc6";
     pl_currentPosition := [];
     pl_isAnimating := false;
     pl_currentMoveIndex := 0;
     pl_moves := [];
     pl_positions := [];
     pl_moveDetails := [] |}.

(** An object is truthy, so [positions[index]] is truthy exactly when the
    index is in range. *)
Definition goToPosition (st : State) (index : Z) : State :=
  if (0 <=? index) && (index <? Z.of_nat (List.length (pl_positions st)))
  then
    match nthZ (pl_positions st) index with
    | Some position =>
        {| pl_fenInput := pl_fenInput st;
           pl_currentPosition := position;
           pl_isAnimating := pl_isAnimating st;
           pl_currentMoveIndex := index;
           pl_moves := pl_moves st;
           pl_positions := pl_positions st;
           pl_moveDetails := pl_moveDetails st |}
    | None => st
    end
  else st.

Definition resetToInitial (st : State) : State :=
  let currentPosition :=
    match
      (if 0 <? Z.of_nat (List.length (pl_positions st))
       then nthZ (pl_positions st) 0 else None)
    with
    | Some position => position
    | None =>
        let parsedFEN := parseFEN initialFEN in
        if isValid parsedFEN then position (structure parsedFEN)
        else pl_currentPosition st
    end in
  {| pl_fenInput := pl_fenInput st;
     pl_currentPosition := currentPosition;
     pl_isAnimating := false;
     pl_currentMoveIndex := 0;
     pl_moves := pl_moves st;
     pl_positions := pl_positions st;
     pl_moveDetails := pl_moveDetails st |}.

Definition stepForward (st : State) : State :=
  if pl_currentMoveIndex st <? Z.of_nat (List.length (pl_positions st)) - 1
  then goToPosition st (pl_currentMoveIndex st + 1)
  else st.

Definition stepBack (st : State) : State :=
  if 0 <? pl_currentMoveIndex st
  then goToPosition st (pl_currentMoveIndex st - 1)
  else st.

Definition toggleAnimation (st : State) : State :=
  {| pl_fenInput := pl_fenInput st;
     pl_currentPosition := pl_currentPosition st;
     pl_isAnimating := negb (pl_isAnimating st);
     pl_currentMoveIndex := pl_currentMoveIndex st;
     pl_moves := pl_moves st;
     pl_positions := pl_positions st;
     pl_moveDetails := pl_moveDetails st |}.

Definition setFenInput (st : State) (fenInput : string) : State :=
  {| pl_fenInput := fenInput;
     pl_currentPosition := pl_currentPosition st;
     pl_isAnimating := pl_isAnimating st;
     pl_currentMoveIndex := pl_currentMoveIndex st;
     pl_moves := pl_moves st;
     pl_positions := pl_positions st;
     pl_moveDetails := pl_moveDetails st |}.

(** The effect that follows [fenInput]: nothing changes for a blank or an
    invalid record. *)
Definition sync (fuel : nat) (st : State) : option State :=
  if negb (JS.nonEmpty (pl_fenInput st))
     || (String.length (JS.trim (pl_fenInput st)) =? 0)%nat
  then Some st
  else
    let parsedFEN := parseFEN (pl_fenInput st) in
    if negb (isValid parsedFEN) then Some st
    else
      match generatePositions fuel (position (structure parsedFEN))
              (moves (structure parsedFEN)) with
      | None => None
      | Some (result, _) =>
          Some {| pl_fenInput := pl_fenInput st;
                  pl_currentPosition := position (structure parsedFEN);
                  pl_isAnimating := pl_isAnimating st;
                  pl_currentMoveIndex := 0;
                  pl_moves := moves (structure parsedFEN);
                  pl_positions :=
                    position (structure parsedFEN) :: positions result;
                  pl_moveDetails := moveDetails result |}
      end.

(** The [useMemo] values handed to the board. *)
Definition lastMoveSquares (currentMoveIndex : Z)
    (moveDetails : list MoveDetail) : list string :=
  if currentMoveIndex =? 0 then []
  else
    match nthZ moveDetails (currentMoveIndex - 1) with
    | None => []
    | Some currentMove =>
        ([md_from currentMove; md_to currentMove]
         ++ match secondaryMove currentMove with
            | Some sm => [sm_from sm; sm_to sm]
            | None => []
            end)%list
    end.

Definition ghostPieces (currentMoveIndex : Z)
    (moveDetails : list MoveDetail) : PositionMap :=
  if currentMoveIndex =? 0 then []
  else
    match nthZ moveDetails (currentMoveIndex - 1) with
    | None => []
    | Some currentMove =>
        let pieces := Obj.set [] (md_from currentMove) (md_piece currentMove) in
        match secondaryMove currentMove with
        | Some sm => Obj.set pieces (sm_from sm) (sm_piece sm)
        | None => pieces
        end
    end.

Definition boardOrientation (fenInput : string) : bool :=
  if (String.length (JS.trim fenInput) =? 0)%nat then true
  else
    let parsedFEN := parseFEN fenInput in
    if isValid parsedFEN
    then String.eqb (activeColor (structure parsedFEN)) "w"
    else true.

(** What the user and the effect do to the state, one after the other. *)
Inductive Action : Type :=
| GoTo (index : Z)
| Reset
| Forward
| Back
| Toggle
| SetFen (fenInput : string)
| Sync.

Definition step (fuel : nat) (st : State) (a : Action) : option State :=
  match a with
  | GoTo index => Some (goToPosition st index)
  | Reset => Some (resetToInitial st)
  | Forward => Some (stepForward st)
  | Back => Some (stepBack st)
  | Toggle => Some (toggleAnimation st)
  | SetFen fenInput => Some (setFenInput st fenInput)
  | Sync => sync fuel st
  end.

Fixpoint run (fuel : nat) (st : State) (actions : list Action)
    : option State :=
  match actions with
  | [] => Some st
  | a :: actions' =>
      match step fuel st a with
      | Some st' => run fuel st' actions'
      | None => None
      end
  end.

(** The position on the board is the one stored at the current index. *)
Definition coherent (st : State) : Prop :=
  pl_positions st = []
  \/ nthZ (pl_positions st) (pl_currentMoveIndex st)
     = Some (pl_currentPosition st).

End Player.

(** ** The earlier player: [components/chess-play-generator.tsx]

    It loads a record with the earlier parser and sequencer. *)

(** [xs.join(' ')] *)
Fixpoint joinSpace (xs : list string) : string :=
  match xs with
  | [] => ""
  | x :: xs' =>
      match xs' with
      | [] => x
      | _ :: _ => x ++ String " " (joinSpace xs')
      end
  end.

Module LegacyPlayer.

(** What the effect that follows [fenInput] stores: the moves, the
    positions and the move details.  The inner [None] is the case where it
    stores nothing; the outer one, the case where the fuel does not
    suffice or a key leaves the alphabet of the model. *)
Definition load (fuel : nat) (fenInput : string)
    : option
        (option
           (list string * list LegacyRules.PositionMap
            * list LegacyRules.MoveDetail)) :=
  if JS.nonEmpty fenInput && (0 <? String.length (JS.trim fenInput))%nat
  then
    let parts := JS.split " " fenInput in
    let fenPart := joinSpace (firstn 6 parts) in
    let movePart := joinSpace (skipn 6 parts) in
    match LegacyRules.parseFEN fenPart with
    | None => None
    | Some initialPos =>
        let moveList := Legacy.parseMoves movePart in
        match LegacyRules.generatePositions fuel initialPos moveList with
        | None => None
        | Some result =>
            Some (Some (moveList,
                        initialPos :: tl (LegacyRules.lr_positions result),
                        LegacyRules.lr_moveDetails result))
        end
    end
  else Some None.

Definition lastMoveSquares (currentMoveIndex : Z)
    (moveDetails : list LegacyRules.MoveDetail) : list string :=
  if currentMoveIndex =? 0 then []
  else
    match nthZ moveDetails (currentMoveIndex - 1) with
    | None => []
    | Some currentMove =>
        ([LegacyRules.ld_from currentMove; LegacyRules.ld_to currentMove]
         ++ match LegacyRules.ld_secondaryFrom currentMove,
                  LegacyRules.ld_secondaryTo currentMove with
            | Some secondaryFrom, Some secondaryTo =>
                if JS.nonEmpty secondaryFrom && JS.nonEmpty secondaryTo
                then [secondaryFrom; secondaryTo]
                else []
            | _, _ => []
            end)%list
    end.

(** [boardOrientation]: it reads the number of stored positions and the
    record. *)
Definition boardOrientation (positionCount : nat) (fenInput : string)
    : bool :=
  if (positionCount =? 0)%nat then true
  else
    let parts := JS.split " " fenInput in
    if (List.length parts <? 2)%nat then true
    else
      let fenPart := joinSpace (firstn 6 parts) in
      let standardFEN := Legacy.frenchToStandardFEN fenPart in
      match nth_error (JS.split " " standardFEN) 1 with
      | Some activeColor => String.eqb activeColor "w"
      | None => false
      end.

End LegacyPlayer.

(** The positions reached by applying the moves one after the other, in
    the earlier form. *)
Fixpoint replayLegacy (position : LegacyRules.PositionMap)
    (infos : list LegacyRules.MoveInfo) : list LegacyRules.PositionMap :=
  match infos with
  | [] => []
  | info :: infos' =>
      LegacyRules.applyMove position info
      :: replayLegacy (LegacyRules.applyMove position info) infos'
  end.

(** The run of decimal digits that a string starts with. *)
Fixpoint leadingDigits (s : string) : string :=
  match s with
  | String c s' => if JS.isDigit c then String c (leadingDigits s') else ""
  | EmptyString => ""
  end.

(** * Properties *)

(** ** Fuel: a result, once reached, is not changed by more fuel *)

Section Fuel.

Variables fuel fuel' : nat.
Hypothesis more : (fuel <= fuel')%nat.

Lemma betweenLoop_mono position fileStep rankStep toFile toRank b :
  forall currentFile currentRank,
    betweenLoop fuel position fileStep rankStep toFile toRank
      currentFile currentRank = Some b ->
    betweenLoop fuel' position fileStep rankStep toFile toRank
      currentFile currentRank = Some b.
Proof.
  revert fuel' more.
  induction fuel as [|n IH]; intros m Hle cf cr H; [discriminate|].
  destruct m as [|m]; [lia|].
  simpl in *.
  destruct (JS.sne cf toFile || JS.sne cr toRank); [|assumption].
  destruct (truthy _); [assumption|].
  apply IH; [lia|assumption].
Qed.

Lemma isPieceBetween_mono from to position b :
  isPieceBetween fuel from to position = Some b ->
  isPieceBetween fuel' from to position = Some b.
Proof. unfold isPieceBetween. apply betweenLoop_mono. Qed.

Lemma andNotBetween_mono c from to position b :
  andNotBetween c fuel from to position = Some b ->
  andNotBetween c fuel' from to position = Some b.
Proof.
  unfold andNotBetween. destruct c; [|trivial].
  destruct (isPieceBetween fuel from to position) as [x|] eqn:E;
    [|discriminate].
  rewrite (isPieceBetween_mono _ _ _ _ E). trivial.
Qed.

Lemma isLegalMove_mono from to piece position b :
  isLegalMove fuel from to piece position = Some b ->
  isLegalMove fuel' from to piece position = Some b.
Proof.
  unfold isLegalMove.
  repeat match goal with
         | |- context [if ?c then _ else _] => destruct c
         end; trivial; apply andNotBetween_mono.
Qed.

Lemma findLegal_mono squares target piece position r :
  findLegal fuel squares target piece position = Some r ->
  findLegal fuel' squares target piece position = Some r.
Proof.
  induction squares as [|sq l IH]; simpl; [trivial|].
  destruct (isLegalMove fuel sq target piece position) as [b|] eqn:E;
    [|discriminate].
  rewrite (isLegalMove_mono _ _ _ _ _ E).
  destruct b; trivial.
Qed.

Lemma findPieceForMove_mono position move isWhiteTurn r :
  findPieceForMove fuel position move isWhiteTurn = Some r ->
  findPieceForMove fuel' position move isWhiteTurn = Some r.
Proof.
  unfold findPieceForMove.
  destruct (String.eqb move "O-O"); [trivial|].
  destruct (String.eqb move "O-O-O"); [trivial|].
  destruct (classify _ _) as [[piece dis] target].
  destruct (negb _); [trivial|].
  match goal with
  | |- context [findLegal fuel ?l ?t ?p ?q] =>
      destruct (findLegal fuel l t p q) as [x|] eqn:E; [|discriminate];
      rewrite (findLegal_mono _ _ _ _ _ E)
  end.
  trivial.
Qed.

Lemma sequencerStep_mono st move index st' :
  sequencerStep fuel st move index = Some st' ->
  sequencerStep fuel' st move index = Some st'.
Proof.
  unfold sequencerStep.
  match goal with
  | |- context [findPieceForMove fuel ?p ?m ?w] =>
      destruct (findPieceForMove fuel p m w) as [x|] eqn:E; [|discriminate];
      rewrite (findPieceForMove_mono _ _ _ _ E)
  end.
  trivial.
Qed.

Lemma sequencerLoop_mono moveList :
  forall index st st',
    sequencerLoop fuel moveList index st = Some st' ->
    sequencerLoop fuel' moveList index st = Some st'.
Proof.
  induction moveList as [|m l IH]; simpl; intros index st st' H; [trivial|].
  destruct (sequencerStep fuel st m index) as [x|] eqn:E; [|discriminate].
  rewrite (sequencerStep_mono _ _ _ _ E). auto.
Qed.

Lemma generatePositions_mono initialPos moveList r :
  generatePositions fuel initialPos moveList = Some r ->
  generatePositions fuel' initialPos moveList = Some r.
Proof.
  unfold generatePositions.
  match goal with
  | |- context [sequencerLoop fuel ?l ?i ?s] =>
      destruct (sequencerLoop fuel l i s) as [x|] eqn:E; [|discriminate];
      rewrite (sequencerLoop_mono _ _ _ _ E)
  end.
  trivial.
Qed.

End Fuel.

(** ** Basic facts *)

Lemma StandardPiece_eqb_eq p q : StandardPiece_eqb p q = true -> p = q.
Proof. destruct p, q; simpl; congruence. Qed.

Lemma includesChar_cons c s x :
  JS.includesChar (String c s) x = Ascii.eqb x c || JS.includesChar s x.
Proof.
  unfold JS.includesChar. cbn [JS.includes JS.startsWith].
  rewrite andb_true_r. reflexivity.
Qed.

Lemma includesChar_app s t x :
  JS.includesChar (s ++ t) x = JS.includesChar s x || JS.includesChar t x.
Proof.
  induction s as [|c s IH].
  - simpl. destruct t; reflexivity.
  - cbn [append]. rewrite !includesChar_cons, IH, orb_assoc. reflexivity.
Qed.

Lemma parsePosition_initialBoard :
  parsePosition initialBoard = inr initialPosition.
Proof. reflexivity. Qed.

Lemma findLegal_found fuel squares target piece position square :
  findLegal fuel squares target piece position = Some (Some square) ->
  In square squares
  /\ isLegalMove fuel square target piece position = Some true.
Proof.
  induction squares as [|sq l IH]; simpl; [discriminate|].
  destruct (isLegalMove fuel sq target piece position) as [[|]|] eqn:E;
    try discriminate.
  - intros H. injection H as <-. auto.
  - intros H. destruct (IH H). auto.
Qed.

Lemma classify_color cleanMove isWhiteTurn piece disambiguation target :
  classify cleanMove isWhiteTurn = (piece, disambiguation, target) ->
  isWhitePiece piece = isWhiteTurn.
Proof.
  unfold classify.
  destruct cleanMove as [|c rest].
  - intros H. injection H as <- _ _. now destruct isWhiteTurn.
  - repeat match goal with
           | |- context [let '(_, _) := ?x in _] => destruct x
           | |- context [if ?b then _ else _] =>
               lazymatch b with
               | isWhiteTurn => fail
               | _ => destruct b
               end
           end;
      intros H; injection H as <- _ _; now destruct isWhiteTurn.
Qed.

(** The parts of a resolved token that is not a castling token. *)
Lemma findPieceForMove_found fuel position move isWhiteTurn detail :
  move <> "O-O" -> move <> "O-O-O" ->
  findPieceForMove fuel position move isWhiteTurn = Some (Some detail) ->
  secondaryMove detail = None
  /\ String.length (md_to detail) = 2%nat
  /\ isWhitePiece (md_piece detail) = isWhiteTurn
  /\ Obj.get position (md_from detail) = Some (md_piece detail)
  /\ isLegalMove fuel (md_from detail) (md_to detail) (md_piece detail)
       position = Some true.
Proof.
  intros H1 H2. unfold findPieceForMove.
  destruct (String.eqb_spec move "O-O"); [contradiction|].
  destruct (String.eqb_spec move "O-O-O"); [contradiction|].
  destruct (classify _ _) as [[piece dis] target] eqn:Ec.
  destruct (Nat.eqb_spec (String.length target) 2) as [Hlen|]; simpl;
    [|discriminate].
  match goal with
  | |- context [findLegal fuel ?l target piece position] =>
      destruct (findLegal fuel l target piece position)
        as [[[|c r]|]|] eqn:E; try discriminate;
      apply findLegal_found in E; destruct E as [Hin Hlegal]
  end.
  intros H. injection H as <-. simpl.
  repeat split; auto.
  - eapply classify_color; eauto.
  - assert (In (String c r)
              (filter (fun square =>
                         match Obj.get position square with
                         | Some pieceAtSquare =>
                             StandardPiece_eqb pieceAtSquare piece
                         | None => false
                         end) (Obj.keys position))) as Hc.
    { destruct (JS.nonEmpty dis); [|assumption].
      apply filter_In in Hin. tauto. }
    apply filter_In in Hc. destruct Hc as [_ Hc].
    destruct (Obj.get position (String c r)) as [q|]; [|discriminate].
    apply StandardPiece_eqb_eq in Hc. congruence.
Qed.

(** ** The opening sequence *)

(** C1. From the standard initial position, the moves e4, e5, Nf3, Nc6 give
    four positions; the third has the white knight on f3 and nothing on
    g1.  The initial position is the decoding of the standard board
    section, and the result does not depend on the fuel. *)
Theorem C1_opening_sequence :
  forall fuel,
    parsePosition initialBoard = inr initialPosition /\
    exists r log,
      generatePositions fuel initialPosition ["e4"; "e5"; "Nf3"; "Nc6"]
        = Some (r, log)
      /\ List.length (positions r) = 4%nat
      /\ exists third,
           nth_error (positions r) 2 = Some third
           /\ Obj.get third "f3" = Some WhiteKnight
           /\ Obj.get third "g1" = None.
Proof.
  intros fuel. split; [reflexivity|].
  destruct (generatePositions 0 initialPosition ["e4"; "e5"; "Nf3"; "Nc6"])
    as [[r log]|] eqn:E; [|vm_compute in E; discriminate].
  exists r, log.
  split; [apply (generatePositions_mono 0 fuel); [lia|exact E]|].
  vm_compute in E. injection E as <- _.
  split; [reflexivity|].
  eexists. split; [reflexivity|]. split; reflexivity.
Qed.

(** ** Castling *)

(** C6. The token O-O resolves to the king move e1-g1 with the rook move
    h1-f1 for white (e8-g8 and h8-f8 for black), and O-O-O to e1-c1 with
    a1-d1 (e8-c8 and a8-d8), whatever the position contains. *)
Theorem C6_castling_is_fixed :
  forall fuel position,
    findPieceForMove fuel position "O-O" true
      = Some (Some {| md_from := "e1"; md_to := "g1"; md_piece := WhiteKing;
                      secondaryMove :=
                        Some {| sm_from := "h1"; sm_to := "f1";
                                sm_piece := WhiteRook |} |})
    /\ findPieceForMove fuel position "O-O" false
      = Some (Some {| md_from := "e8"; md_to := "g8"; md_piece := BlackKing;
                      secondaryMove :=
                        Some {| sm_from := "h8"; sm_to := "f8";
                                sm_piece := BlackRook |} |})
    /\ findPieceForMove fuel position "O-O-O" true
      = Some (Some {| md_from := "e1"; md_to := "c1"; md_piece := WhiteKing;
                      secondaryMove :=
                        Some {| sm_from := "a1"; sm_to := "d1";
                                sm_piece := WhiteRook |} |})
    /\ findPieceForMove fuel position "O-O-O" false
      = Some (Some {| md_from := "e8"; md_to := "c8"; md_piece := BlackKing;
                      secondaryMove :=
                        Some {| sm_from := "a8"; sm_to := "d8";
                                sm_piece := BlackRook |} |}).
Proof. intros fuel position. repeat split. Qed.

(** ** Resolved moves *)

(** C10. When the resolver returns a move for a token other than O-O and
    O-O-O, the position holds the returned piece on the returned origin
    square, the piece has the colour of the side to move, and the move
    passes [isLegalMove]. *)
Theorem C10_resolved_move_is_legal :
  forall fuel position move isWhiteTurn detail,
    move <> "O-O" -> move <> "O-O-O" ->
    findPieceForMove fuel position move isWhiteTurn = Some (Some detail) ->
    Obj.get position (md_from detail) = Some (md_piece detail)
    /\ isWhitePiece (md_piece detail) = isWhiteTurn
    /\ isLegalMove fuel (md_from detail) (md_to detail) (md_piece detail)
         position = Some true.
Proof.
  intros fuel position move isWhiteTurn detail H1 H2 H.
  destruct (findPieceForMove_found _ _ _ _ _ H1 H2 H) as (_ & _ & ? & ? & ?).
  auto.
Qed.

Lemma C10_resolved_move_is_legal_witness :
  Obj.get initialPosition "g1" = Some WhiteKnight
  /\ isWhitePiece WhiteKnight = true
  /\ isLegalMove 0 "g1" "f3" WhiteKnight initialPosition = Some true.
Proof.
  apply (C10_resolved_move_is_legal 0 initialPosition "Nf3" true
           {| md_from := "g1"; md_to := "f3"; md_piece := WhiteKnight;
              secondaryMove := None |});
    [discriminate | discriminate | reflexivity].
Defined.

(** ** Squares, keys and coordinates *)

Lemma code_range c : 0 <= JS.code c < 256.
Proof.
  unfold JS.code. pose proof (N_ascii_bounded c). lia.
Qed.

Lemma fromCharCode_code c :
  JS.fromCharCode (Some (JS.code c)) = Some c.
Proof.
  unfold JS.fromCharCode. pose proof (code_range c) as R.
  rewrite Z.mod_small by lia.
  destruct (Z.ltb_spec (JS.code c) 256); [|lia].
  unfold JS.code. rewrite N2Z.id, ascii_N_embedding. reflexivity.
Qed.

Lemma toString_digit d :
  JS.isDigit d = true ->
  JS.toString (Some (JS.digitValue d)) = String d "".
Proof.
  destruct d as [[] [] [] [] [] [] [] []]; try discriminate; reflexivity.
Qed.

Lemma squareLike_inv k :
  squareLike k = true ->
  exists c d, k = String c (String d "") /\ JS.isDigit d = true.
Proof.
  destruct k as [|c [|d [|]]]; try discriminate. eauto.
Qed.

Lemma fileOf_cons c r : fileOf (String c r) = Some (JS.code c - 97).
Proof. reflexivity. Qed.

Lemma rankOf_digit c d r :
  JS.isDigit d = true ->
  rankOf (String c (String d r)) = Some (8 - JS.digitValue d).
Proof.
  intros H. unfold rankOf. simpl. unfold JS.parseInt_char. rewrite H.
  reflexivity.
Qed.

Lemma digitValue_range d : JS.isDigit d = true -> 0 <= JS.digitValue d <= 9.
Proof. unfold JS.isDigit, JS.digitValue. lia. Qed.

(** The file of any string is between -97 and 158, its rank between -1 and
    8, when they are numbers. *)
Lemma fileOf_range s f : fileOf s = Some f -> -97 <= f <= 158.
Proof.
  destruct s as [|c r]; [discriminate|].
  rewrite fileOf_cons. intros H. injection H as <-.
  pose proof (code_range c). lia.
Qed.

Lemma rankOf_range s r : rankOf s = Some r -> -1 <= r <= 8.
Proof.
  unfold rankOf, JS.parseInt_char.
  destruct (JS.at1 s) as [c|].
  - destruct (JS.isDigit c) eqn:D; unfold JS.sub, JS.NaN; [|discriminate].
    intros H.
    assert (r = 8 - JS.digitValue c) as -> by congruence.
    pose proof (digitValue_range _ D). lia.
  - simpl. intros H. injection H as <-. cbv. split; discriminate.
Qed.

(** A square-like key is where its own coordinates point. *)
Lemma squareAt_self k :
  squareLike k = true ->
  exists f r,
    fileOf k = Some f /\ rankOf k = Some r
    /\ squareAt (Some f) (Some r) = Some k.
Proof.
  intros H. destruct (squareLike_inv _ H) as (c & d & -> & D).
  exists (JS.code c - 97), (8 - JS.digitValue d).
  split; [reflexivity|]. split; [apply rankOf_digit; assumption|].
  unfold squareAt, JS.add, JS.sub.
  replace (97 + (JS.code c - 97)) with (JS.code c) by lia.
  rewrite fromCharCode_code.
  replace (8 - (8 - JS.digitValue d)) with (JS.digitValue d) by lia.
  rewrite toString_digit by assumption. reflexivity.
Qed.

Lemma get_In {V} (o : Obj.t V) k v :
  Obj.get o k = Some v -> In (k, v) o.
Proof.
  induction o as [|[k' v'] o IH]; simpl; [discriminate|].
  destruct (String.eqb_spec k' k) as [->|].
  - intros H. injection H as ->. auto.
  - auto.
Qed.

Lemma squareKeys_get position k v :
  squareKeys position -> Obj.get position k = Some v ->
  squareLike k = true.
Proof.
  intros W H. apply get_In in H.
  unfold squareKeys in W. rewrite Forall_forall in W.
  apply (W _ H).
Qed.

Lemma squareKeys_set position k v :
  squareKeys position -> squareLike k = true ->
  squareKeys (Obj.set position k v).
Proof.
  unfold squareKeys. intros W K.
  induction position as [|[k' v'] o IH]; simpl.
  - repeat constructor. assumption.
  - inversion W; subst.
    destruct (String.eqb k' k); constructor; auto.
Qed.

Lemma squareKeys_delete position k :
  squareKeys position -> squareKeys (Obj.delete position k).
Proof.
  unfold squareKeys, Obj.delete. intros W.
  apply Forall_forall. intros x Hx. apply filter_In in Hx.
  rewrite Forall_forall in W. apply W. tauto.
Qed.

Lemma isBoardSquare_squareLike k :
  isBoardSquare k = true -> squareLike k = true.
Proof.
  destruct k as [|f [|r [|]]]; simpl; try discriminate.
  unfold JS.isDigit. lia.
Qed.

(** ** Termination of the walk between two squares *)

(** A walk that is [n] steps away from its target, in a direction that is
    not null, ends within [n + 1] evaluations of the loop condition. *)
Lemma betweenLoop_line position fileStep rankStep :
  fileStep <> 0 \/ rankStep <> 0 ->
  forall (n fuel : nat) currentFile currentRank toFile toRank,
    toFile = currentFile + Z.of_nat n * fileStep ->
    toRank = currentRank + Z.of_nat n * rankStep ->
    (n < fuel)%nat ->
    exists b,
      betweenLoop fuel position fileStep rankStep (Some toFile) (Some toRank)
        (Some currentFile) (Some currentRank) = Some b.
Proof.
  intros Hdir. induction n as [|n IH]; intros fuel cf cr tf tr Hf Hr Hfuel;
    (destruct fuel as [|fuel]; [lia|]);
    cbn [betweenLoop]; unfold JS.sne, JS.seq, JS.add.
  - replace (cf =? tf) with true by (symmetry; apply Z.eqb_eq; lia).
    replace (cr =? tr) with true by (symmetry; apply Z.eqb_eq; lia).
    cbn [negb orb]. eauto.
  - assert (negb (cf =? tf) || negb (cr =? tr) = true) as ->.
    { apply orb_true_iff.
      destruct Hdir; [left|right]; apply negb_true_iff, Z.eqb_neq; nia. }
    destruct (truthy _); [eauto|].
    apply IH; lia.
Qed.

(** Two squares with numeric coordinates on one file, one rank or one
    diagonal: the walk ends. *)
Lemma isPieceBetween_aligned fuel from to position ff fr tf tr :
  fileOf from = Some ff -> rankOf from = Some fr ->
  fileOf to = Some tf -> rankOf to = Some tr ->
  ff = tf \/ fr = tr \/ Z.abs (tf - ff) = Z.abs (tr - fr) ->
  Z.abs (tf - ff) <= Z.of_nat fuel ->
  Z.abs (tr - fr) <= Z.of_nat fuel ->
  (1 <= fuel)%nat ->
  exists b, isPieceBetween fuel from to position = Some b.
Proof.
  intros Hff Hfr Htf Htr Hal Bf Br B1.
  unfold isPieceBetween. rewrite Hff, Hfr, Htf, Htr.
  cbv [JS.sub JS.sign JS.or0 JS.add option_map].
  destruct (Z.eq_dec tf ff) as [->|Nf];
    [destruct (Z.eq_dec tr fr) as [->|Nr]|].
  - rewrite !Z.sub_diag. change (Z.sgn 0) with 0. rewrite !Z.add_0_r.
    destruct fuel as [|fuel]; [lia|].
    cbn [betweenLoop]. unfold JS.sne, JS.seq.
    rewrite !Z.eqb_refl. cbn [negb orb]. eauto.
  - rewrite Z.sub_diag. change (Z.sgn 0) with 0.
    destruct (Z.sgn_spec (tr - fr)) as [[? E]|[[? E]|[? E]]]; rewrite E;
      try lia;
      apply betweenLoop_line with (n := Z.to_nat (Z.abs (tr - fr) - 1));
      lia.
  - destruct (Z.sgn_spec (tf - ff)) as [[? E1]|[[? E1]|[? E1]]]; rewrite E1;
      try lia;
      (destruct (Z.sgn_spec (tr - fr)) as [[? E2]|[[? E2]|[? E2]]];
       rewrite E2;
       apply betweenLoop_line with (n := Z.to_nat (Z.abs (tf - ff) - 1));
       lia).
Qed.

(** With a null direction the first square examined is the origin itself:
    the walk stops at once, on the target or on the piece that stands on
    the origin. *)
Lemma isPieceBetween_still fuel from to position :
  squareLike from = true ->
  truthy (Obj.get position from) = true ->
  JS.or0 (JS.sign (JS.sub (fileOf to) (fileOf from))) = 0 ->
  JS.or0 (JS.sign (JS.sub (rankOf to) (rankOf from))) = 0 ->
  isPieceBetween (S fuel) from to position
  = Some (JS.sne (fileOf from) (fileOf to)
          || JS.sne (rankOf from) (rankOf to)).
Proof.
  intros K Occ Hf Hr.
  destruct (squareAt_self _ K) as (f & r & Ef & Er & Esq).
  unfold isPieceBetween. rewrite Hf, Hr, Ef, Er.
  unfold JS.add. rewrite !Z.add_0_r.
  cbn [betweenLoop]. rewrite Esq. cbn [pieceAt]. rewrite Occ.
  destruct (JS.sne (Some f) (fileOf to) || JS.sne (Some r) (rankOf to));
    reflexivity.
Qed.

Lemma isPieceBetween_guarded fuel from to position :
  squareLike from = true ->
  truthy (Obj.get position from) = true ->
  walkGuard from to = true ->
  (256 <= fuel)%nat ->
  exists b, isPieceBetween fuel from to position = Some b.
Proof.
  intros K Occ G Hfuel.
  destruct (squareAt_self _ K) as (f & r & Ef & Er & _).
  pose proof (fileOf_range _ _ Ef). pose proof (rankOf_range _ _ Er).
  unfold walkGuard in G. rewrite Ef, Er in G.
  destruct (fileOf to) as [tf|] eqn:Etf; destruct (rankOf to) as [tr|] eqn:Etr.
  - pose proof (fileOf_range _ _ Etf). pose proof (rankOf_range _ _ Etr).
    apply (isPieceBetween_aligned fuel from to position f r tf tr);
      auto; try lia.
    unfold JS.seq, JS.abs, JS.sub, option_map in G. lia.
  - destruct fuel as [|fuel]; [lia|].
    rewrite isPieceBetween_still; eauto.
    + rewrite Etf, Ef. unfold JS.seq, JS.abs, JS.sub, option_map in G.
      assert (f = tf) as -> by lia.
      cbv [JS.sub JS.sign JS.or0 option_map]. rewrite Z.sub_diag. reflexivity.
    + rewrite Etr, Er. reflexivity.
  - destruct fuel as [|fuel]; [lia|].
    rewrite isPieceBetween_still; eauto.
    + rewrite Etf, Ef. reflexivity.
    + rewrite Etr, Er. unfold JS.seq, JS.abs, JS.sub, option_map in G.
      assert (r = tr) as -> by lia.
      cbv [JS.sub JS.sign JS.or0 option_map]. rewrite Z.sub_diag. reflexivity.
  - discriminate.
Qed.

Lemma andNotBetween_total c fuel from to position :
  squareLike from = true ->
  truthy (Obj.get position from) = true ->
  (c = true -> walkGuard from to = true) ->
  (256 <= fuel)%nat ->
  exists b, andNotBetween c fuel from to position = Some b.
Proof.
  intros K Occ G Hfuel. unfold andNotBetween.
  destruct c; [|eauto].
  destruct (isPieceBetween_guarded fuel from to position K Occ (G eq_refl)
              Hfuel) as [b ->].
  simpl. eauto.
Qed.

(** [isLegalMove] answers for every origin that is a square-like key
    holding a piece, whatever the target. *)
Lemma isLegalMove_total fuel from to piece position :
  squareLike from = true ->
  truthy (Obj.get position from) = true ->
  (256 <= fuel)%nat ->
  exists b, isLegalMove fuel from to piece position = Some b.
Proof.
  intros K Occ Hfuel. unfold isLegalMove.
  match goal with |- context [if ?c then Some false else _] => destruct c end;
    [eauto|].
  destruct piece; cbn [getPieceType existsb StandardPiece_eqb orb];
    cbn [String.eqb Ascii.eqb Bool.eqb andb];
    try (repeat match goal with
                | |- context [if ?c then _ else _] => destruct c
                end; eauto; fail);
    apply andNotBetween_total; auto; unfold walkGuard; intros ->;
    rewrite ?orb_true_r; reflexivity.
Qed.

(** A legal target has a numeric rank: its second character is a digit. *)
Lemma isLegalMove_target_rank fuel from to piece position :
  squareLike from = true ->
  truthy (Obj.get position from) = true ->
  isLegalMove fuel from to piece position = Some true ->
  exists r, rankOf to = Some r.
Proof.
  intros K Occ H.
  destruct (rankOf to) as [tr|] eqn:Etr; [eauto|]. exfalso.
  destruct (squareAt_self _ K) as (f & r & Ef & Er & _).
  assert (forall c,
             (c = true -> JS.seq (fileOf from) (fileOf to) = true) ->
             andNotBetween c fuel from to position <> Some true) as Hwalk.
  { intros c Hc. unfold andNotBetween. destruct c; [|discriminate].
    specialize (Hc eq_refl).
    destruct fuel as [|fuel]; [discriminate|].
    rewrite isPieceBetween_still; auto.
    - rewrite Etr, Er. unfold JS.sne at 2. cbn [JS.seq negb].
      rewrite orb_true_r. discriminate.
    - rewrite Ef in *. destruct (fileOf to) as [tf|]; [|discriminate].
      unfold JS.seq in Hc. apply Z.eqb_eq in Hc. subst.
      cbv [JS.sub JS.sign JS.or0 option_map]. rewrite Z.sub_diag. reflexivity.
    - rewrite Etr, Er. reflexivity. }
  revert H. unfold isLegalMove. rewrite Etr, Er.
  match goal with |- context [if ?c then Some false else _] => destruct c end;
    [discriminate|].
  assert (forall x, JS.seq x (JS.abs (JS.sub None (Some r))) = false) as E1
    by (intros [x|]; reflexivity).
  assert (forall x, JS.seq (JS.sub None (Some r)) x = false) as E2
    by (intros x; reflexivity).
  assert (forall x, JS.seq (JS.abs (JS.sub None (Some r))) x = false) as E3
    by (intros x; reflexivity).
  assert (forall x, JS.le (JS.abs (JS.sub None (Some r))) x = false) as E4
    by (intros x; reflexivity).
  assert (JS.seq (Some r) None = false) as E5 by reflexivity.
  destruct piece; cbn [getPieceType existsb StandardPiece_eqb orb];
    cbn [String.eqb Ascii.eqb Bool.eqb andb];
    rewrite ?E1, ?E2, ?E3, ?E4, ?E5, ?andb_false_r, ?orb_false_r;
    cbn [andb orb];
    try discriminate; apply Hwalk; trivial.
Qed.

(** ** The resolver and the sequencer answer *)

Lemma findLegal_total fuel squares target piece position :
  squareKeys position ->
  Forall (fun sq => truthy (Obj.get position sq) = true) squares ->
  (256 <= fuel)%nat ->
  exists r, findLegal fuel squares target piece position = Some r.
Proof.
  intros W Hocc Hfuel. induction Hocc as [|sq l Hsq _ IH]; simpl; [eauto|].
  assert (squareLike sq = true) as K.
  { destruct (Obj.get position sq) as [v|] eqn:E; [|discriminate].
    eapply squareKeys_get; eauto. }
  destruct (isLegalMove_total fuel sq target piece position K Hsq Hfuel)
    as [[|] ->]; eauto.
Qed.

Lemma findPieceForMove_total fuel position move isWhiteTurn :
  squareKeys position ->
  (256 <= fuel)%nat ->
  exists r, findPieceForMove fuel position move isWhiteTurn = Some r.
Proof.
  intros W Hfuel. unfold findPieceForMove.
  destruct (String.eqb move "O-O"); [eauto|].
  destruct (String.eqb move "O-O-O"); [eauto|].
  destruct (classify _ _) as [[piece dis] target].
  destruct (negb _); [eauto|].
  match goal with
  | |- context [findLegal fuel ?l target piece position] =>
      destruct (findLegal_total fuel l target piece position W) as [r ->];
      auto
  end.
  - assert (forall l,
               Forall (fun sq => truthy (Obj.get position sq) = true)
                 (filter (fun square =>
                            match Obj.get position square with
                            | Some pieceAtSquare =>
                                StandardPiece_eqb pieceAtSquare piece
                            | None => false
                            end) l)) as Hc.
    { intros l. apply Forall_forall. intros sq Hin.
      apply filter_In in Hin. destruct Hin as [_ Hin].
      destruct (Obj.get position sq); [reflexivity|discriminate]. }
    destruct (JS.nonEmpty dis); [|apply Hc].
    apply Forall_forall. intros sq Hin. apply filter_In in Hin.
    destruct Hin as [Hin _].
    specialize (Hc (Obj.keys position)). rewrite Forall_forall in Hc. auto.
  - destruct r as [[|c s]|]; eauto.
Qed.

(** A legal target of two characters is a square-like key. *)
Lemma legal_target_squareLike fuel from to piece position :
  squareKeys position ->
  Obj.get position from = Some piece ->
  String.length to = 2%nat ->
  isLegalMove fuel from to piece position = Some true ->
  squareLike to = true.
Proof.
  intros W Hget Hlen Hlegal.
  assert (squareLike from = true) as K by (eapply squareKeys_get; eauto).
  destruct (isLegalMove_target_rank fuel from to piece position K)
    as [r Hr]; auto.
  { rewrite Hget. reflexivity. }
  destruct to as [|c [|d [|]]]; try discriminate.
  unfold rankOf, JS.parseInt_char in Hr. simpl JS.at1 in Hr.
  simpl. destruct (JS.isDigit d); [reflexivity|discriminate].
Qed.

Lemma applyMove_squareKeys fuel position move isWhiteTurn detail :
  squareKeys position ->
  findPieceForMove fuel position move isWhiteTurn = Some (Some detail) ->
  squareKeys (applyMove position detail).
Proof.
  intros W H.
  assert (forall w kingTo rookFrom rookTo,
             JS.isDigit "1" = true ->
             squareKeys (applyMove position (castle w kingTo rookFrom rookTo)))
    as Hcastle.
  { intros w a b c _. unfold applyMove, castle, spread. cbn [secondaryMove].
    apply squareKeys_set; [apply squareKeys_delete|now destruct w].
    apply squareKeys_set; [apply squareKeys_delete|now destruct w].
    assumption. }
  destruct (String.eqb_spec move "O-O") as [->|N1].
  { injection H as <-. apply Hcastle. reflexivity. }
  destruct (String.eqb_spec move "O-O-O") as [->|N2].
  { injection H as <-. apply Hcastle. reflexivity. }
  destruct (findPieceForMove_found _ _ _ _ _ N1 N2 H)
    as (Hsec & Hlen & _ & Hget & Hlegal).
  unfold applyMove, spread. rewrite Hsec.
  apply squareKeys_set; [apply squareKeys_delete; assumption|].
  eapply legal_target_squareLike; eauto.
Qed.

Lemma turnAt_S w i : turnAt w (S i) = turnAt (negb w) i.
Proof.
  unfold turnAt. rewrite Nat.even_succ, <- Nat.negb_even.
  destruct (Nat.even i), w; reflexivity.
Qed.

Lemma positionBefore_S cur p ps i :
  positionBefore cur (p :: ps) (S i) = positionBefore p ps i.
Proof. destruct i; reflexivity. Qed.

Lemma resolutionAt_S fuel cur w m ms p ps i :
  resolutionAt fuel cur w (m :: ms) (p :: ps) (S i)
  = resolutionAt fuel p (negb w) ms ps i.
Proof.
  unfold resolutionAt. simpl nth_error.
  rewrite positionBefore_S, turnAt_S. reflexivity.
Qed.

Lemma flat_map_map {A B C} (f : B -> list C) (g : A -> B) l :
  flat_map f (map g l) = flat_map (fun x => f (g x)) l.
Proof. induction l; simpl; congruence. Qed.

(** What the loop adds to the state, token by token. *)
Lemma sequencerLoop_spec fuel :
  forall moveList index st st',
    sequencerLoop fuel moveList index st = Some st' ->
    exists ps ds log,
      st_positions st' = (st_positions st ++ ps)%list
      /\ st_moveDetails st' = (st_moveDetails st ++ ds)%list
      /\ st_console st' = (st_console st ++ log)%list
      /\ List.length ps = List.length moveList
      /\ (forall i move,
             nth_error moveList i = Some move ->
             exists res,
               resolutionAt fuel (st_currentPos st) (st_isWhiteTurn st)
                 moveList ps i = Some res
               /\ nth_error ps i
                  = Some (outcome (positionBefore (st_currentPos st) ps i)
                            res)
               /\ (res = None ->
                   In (InvalidMove (index + i) move (standardize move)) log))
      /\ ds = flat_map
                (recordedAt fuel (st_currentPos st) (st_isWhiteTurn st)
                   moveList ps)
                (seq 0 (List.length moveList))
      /\ (forall expected generated,
             ~ In (MovesNotExecuted expected generated) log).
Proof.
  induction moveList as [|m ms IH]; intros index st st' H.
  - simpl in H. injection H as <-.
    exists [], [], []. rewrite !app_nil_r.
    repeat split; auto.
    intros [|i] move Hm; discriminate.
  - simpl in H.
    destruct (sequencerStep fuel st m index) as [st1|] eqn:Estep;
      [|discriminate].
    destruct (IH _ _ _ H) as (ps & ds & log & Hp & Hd & Hl & Hlen & Hi & Hds
                              & Hno).
    unfold sequencerStep in Estep. fold (standardize m) in Estep.
    destruct (findPieceForMove fuel (st_currentPos st) (standardize m)
                (st_isWhiteTurn st)) as [res|] eqn:Eres; [|discriminate].
    assert (st_currentPos st1 = outcome (st_currentPos st) res
            /\ st_isWhiteTurn st1 = negb (st_isWhiteTurn st)
            /\ st_positions st1
               = (st_positions st ++ [outcome (st_currentPos st) res])%list
            /\ st_moveDetails st1
               = (st_moveDetails st
                  ++ match res with Some d => [d] | None => [] end)%list
            /\ st_console st1
               = (st_console st
                  ++ match res with
                     | Some _ => []
                     | None => [InvalidMove index m (standardize m)]
                     end)%list) as (Ec & Ew & Ep & Ed & El).
    { destruct res; injection Estep as <-; simpl; rewrite ?app_nil_r;
        repeat split. }
    exists (outcome (st_currentPos st) res :: ps),
      (match res with Some d => [d] | None => [] end ++ ds)%list,
      (match res with
       | Some _ => []
       | None => [InvalidMove index m (standardize m)]
       end ++ log)%list.
    rewrite Hp, Hd, Hl, Ep, Ed, El, <- !app_assoc.
    repeat split; auto.
    + simpl. congruence.
    + intros [|i] move Hm.
      * simpl in Hm. injection Hm as <-.
        exists res. unfold resolutionAt. simpl.
        change (turnAt (st_isWhiteTurn st) 0) with (st_isWhiteTurn st).
        repeat split; auto.
        intros ->. apply in_or_app. left. rewrite Nat.add_0_r. simpl. auto.
      * simpl in Hm. destruct (Hi i move Hm) as (r & Hr & Hn & Hw).
        exists r. rewrite resolutionAt_S, positionBefore_S, <- Ec, <- Ew.
        repeat split; auto.
        intros E. apply in_or_app. right.
        replace (index + S i)%nat with (S index + i)%nat by lia. auto.
    + simpl List.length. rewrite <- cons_seq, <- seq_shift. simpl flat_map.
      f_equal.
      * unfold recordedAt, resolutionAt. simpl.
        change (turnAt (st_isWhiteTurn st) 0) with (st_isWhiteTurn st).
        rewrite Eres. reflexivity.
      * rewrite Hds, flat_map_map.
        apply flat_map_ext. intros i. unfold recordedAt.
        rewrite resolutionAt_S, Ec, Ew. reflexivity.
    + intros e g Hin. apply in_app_or in Hin. destruct Hin as [Hin|Hin].
      * destruct res; simpl in Hin; [tauto|].
        destruct Hin as [Hin|[]]. discriminate.
      * eapply Hno; eauto.
Qed.

Lemma sequencerLoop_total fuel :
  (256 <= fuel)%nat ->
  forall moveList index st,
    squareKeys (st_currentPos st) ->
    exists st', sequencerLoop fuel moveList index st = Some st'.
Proof.
  intros Hfuel. induction moveList as [|m ms IH]; intros index st W; simpl.
  - eauto.
  - unfold sequencerStep. fold (standardize m).
    destruct (findPieceForMove_total fuel (st_currentPos st) (standardize m)
                (st_isWhiteTurn st) W Hfuel) as [res Eres].
    rewrite Eres. destruct res as [d|]; apply IH; simpl; auto.
    eapply applyMove_squareKeys; eauto.
Qed.

Lemma turnAt_true i : turnAt true i = Nat.even i.
Proof. unfold turnAt. destruct (Nat.even i); reflexivity. Qed.

(** Whenever [generatePositions] returns: one position per token, no
    [error], and a warning for each token that did not resolve. *)
Lemma generatePositions_shape fuel initialPos moveList r log :
  generatePositions fuel initialPos moveList = Some (r, log) ->
  List.length (positions r) = List.length moveList
  /\ error r = None
  /\ (forall expected generated,
         ~ In (MovesNotExecuted expected generated) log)
  /\ (forall i move,
         nth_error moveList i = Some move ->
         exists res,
           findPieceForMove fuel (positionBefore initialPos (positions r) i)
             (standardize move) (Nat.even i) = Some res
           /\ nth_error (positions r) i
              = Some (outcome (positionBefore initialPos (positions r) i) res)
           /\ (res = None ->
               In (InvalidMove i move (standardize move)) log))
  /\ moveDetails r
     = flat_map (recordedAt fuel initialPos true moveList (positions r))
         (seq 0 (List.length moveList)).
Proof.
  unfold generatePositions.
  match goal with
  | |- context [sequencerLoop fuel moveList 0 ?s] =>
      destruct (sequencerLoop fuel moveList 0 s) as [st|] eqn:E;
      [|discriminate]
  end.
  destruct (sequencerLoop_spec _ _ _ _ _ E)
    as (ps & ds & lg & Hp & Hd & Hl & Hlen & Hi & Hds & Hno).
  simpl in Hp, Hd, Hl, Hi, Hds. unfold spread in *.
  rewrite Hp, Hlen, Nat.eqb_refl. simpl.
  intros H. injection H as <- <-. simpl.
  rewrite Hl. repeat split; auto.
  - intros i move Hm. destruct (Hi i move Hm) as (res & Hr & Hn & Hw).
    exists res. unfold resolutionAt in Hr. rewrite Hm, turnAt_true in Hr.
    auto.
  - congruence.
Qed.

Lemma generatePositions_total fuel initialPos moveList :
  squareKeys initialPos ->
  (256 <= fuel)%nat ->
  exists r log, generatePositions fuel initialPos moveList = Some (r, log).
Proof.
  intros W Hfuel. unfold generatePositions.
  match goal with
  | |- context [sequencerLoop fuel moveList 0 ?s] =>
      destruct (sequencerLoop_total fuel Hfuel moveList 0 s W) as [st ->]
  end.
  eauto.
Qed.

Lemma squareKeys_forallb position :
  forallb (fun kv => squareLike (fst kv)) position = true ->
  squareKeys position.
Proof.
  intros H. apply Forall_forall. rewrite forallb_forall in H. exact H.
Qed.

Lemma squareKeys_initialPosition : squareKeys initialPosition.
Proof. apply squareKeys_forallb. vm_compute. reflexivity. Qed.

(** ** The sequencer and tokens that do not resolve *)

(** C4, as the code has it.  On an initial position keyed by squares the
    sequencer returns for every move list, with one position per token.
    Each token is resolved against the position recorded for the token
    before it, for the side whose turn it is by the parity of its index.
    When that resolution fails, the position recorded for the token is the
    prior position unchanged, nothing is recorded in [moveDetails] for it,
    and a warning naming its index is written to the console.  The tokens
    after it are processed in the same way. *)
Theorem C4_unresolved_move_keeps_position :
  forall fuel initialPos moveList,
    squareKeys initialPos ->
    (256 <= fuel)%nat ->
    exists r log,
      generatePositions fuel initialPos moveList = Some (r, log)
      /\ List.length (positions r) = List.length moveList
      /\ (forall i move,
             nth_error moveList i = Some move ->
             exists res,
               findPieceForMove fuel
                 (positionBefore initialPos (positions r) i)
                 (standardize move) (Nat.even i) = Some res
               /\ nth_error (positions r) i
                  = Some (outcome (positionBefore initialPos (positions r) i)
                            res)
               /\ (res = None ->
                   nth_error (positions r) i
                   = Some (positionBefore initialPos (positions r) i)
                   /\ recordedAt fuel initialPos true moveList (positions r) i
                      = []
                   /\ In (InvalidMove i move (standardize move)) log))
      /\ moveDetails r
         = flat_map (recordedAt fuel initialPos true moveList (positions r))
             (seq 0 (List.length moveList)).
Proof.
  intros fuel initialPos moveList W Hfuel.
  destruct (generatePositions_total fuel initialPos moveList W Hfuel)
    as (r & log & E).
  exists r, log.
  destruct (generatePositions_shape _ _ _ _ _ E)
    as (Hlen & _ & _ & Hi & Hds).
  repeat split; auto.
  intros i move Hm. destruct (Hi i move Hm) as (res & Hr & Hn & Hw).
  exists res. repeat split; auto.
  - subst res. exact Hn.
  - subst res. unfold recordedAt, resolutionAt.
    rewrite Hm, turnAt_true, Hr. reflexivity.
Qed.

Lemma C4_unresolved_move_keeps_position_witness :
  exists r log,
    generatePositions 256 initialPosition ["Qh5"; "e5"] = Some (r, log)
    /\ List.length (positions r) = 2%nat
    /\ (forall i move,
           nth_error ["Qh5"; "e5"] i = Some move ->
           exists res,
             findPieceForMove 256
               (positionBefore initialPosition (positions r) i)
               (standardize move) (Nat.even i) = Some res
             /\ nth_error (positions r) i
                = Some (outcome
                          (positionBefore initialPosition (positions r) i)
                          res)
             /\ (res = None ->
                 nth_error (positions r) i
                 = Some (positionBefore initialPosition (positions r) i)
                 /\ recordedAt 256 initialPosition true ["Qh5"; "e5"]
                      (positions r) i = []
                 /\ In (InvalidMove i move (standardize move)) log))
    /\ moveDetails r
       = flat_map
           (recordedAt 256 initialPosition true ["Qh5"; "e5"] (positions r))
           (seq 0 2).
Proof.
  apply (C4_unresolved_move_keeps_position 256 initialPosition
           ["Qh5"; "e5"]);
    [apply squareKeys_forallb; vm_compute; reflexivity | apply le_n].
Defined.

(** As the specification words it, the returned result also reports which
    indices failed.  It does not: Qh5 cannot be played from the initial
    position, the position recorded for it is the initial one, and the
    [error] field of the result is undefined. *)
Lemma C4_counterexample :
  exists r log,
    generatePositions 256 initialPosition ["Qh5"; "e5"] = Some (r, log)
    /\ findPieceForMove 256 initialPosition (standardize "Qh5") true
       = Some None
    /\ nth_error (positions r) 0 = Some initialPosition
    /\ List.length (moveDetails r) = 1%nat
    /\ error r = None.
Proof.
  destruct (generatePositions 256 initialPosition ["Qh5"; "e5"])
    as [[r log]|] eqn:E; vm_compute in E; [|discriminate].
  exists r, log. injection E as <- <-.
  repeat split; vm_compute; reflexivity.
Qed.

(** C9. The sequencer records one position per token, also for the tokens
    that do not resolve, so the comparison of the two lengths never
    differs: the [error] field of the result is undefined and the warning
    about moves that were not executed is never written.  The call returns
    on every initial position keyed by squares; on any position at all,
    whenever it returns, its result is of that shape. *)
Theorem C9_one_position_per_token_no_error :
  forall fuel initialPos moveList,
    squareKeys initialPos ->
    (256 <= fuel)%nat ->
    (exists r log,
        generatePositions fuel initialPos moveList = Some (r, log)
        /\ List.length (positions r) = List.length moveList
        /\ error r = None
        /\ (forall expected generated,
               ~ In (MovesNotExecuted expected generated) log))
    /\ (forall fuel' anyPos r log,
           generatePositions fuel' anyPos moveList = Some (r, log) ->
           List.length (positions r) = List.length moveList
           /\ error r = None).
Proof.
  intros fuel initialPos moveList W Hfuel. split.
  - destruct (generatePositions_total fuel initialPos moveList W Hfuel)
      as (r & log & E).
    exists r, log.
    destruct (generatePositions_shape _ _ _ _ _ E) as (Hlen & He & Hno & _).
    auto.
  - intros fuel' anyPos r log E.
    destruct (generatePositions_shape _ _ _ _ _ E) as (Hlen & He & _).
    auto.
Qed.

Lemma C9_one_position_per_token_no_error_witness :
  (exists r log,
      generatePositions 256 initialPosition ["Qh5"; "e5"; "zz"]
        = Some (r, log)
      /\ List.length (positions r) = 3%nat
      /\ error r = None
      /\ (forall expected generated,
             ~ In (MovesNotExecuted expected generated) log))
  /\ (forall fuel' anyPos r log,
         generatePositions fuel' anyPos ["Qh5"; "e5"; "zz"] = Some (r, log) ->
         List.length (positions r) = 3%nat
         /\ error r = None).
Proof.
  apply (C9_one_position_per_token_no_error 256 initialPosition
           ["Qh5"; "e5"; "zz"]);
    [apply squareKeys_forallb; vm_compute; reflexivity | apply le_n].
Defined.

(** The keys matter.  A queen stored under the key a1x is taken to stand on
    a1; the token Daz sends it along the a-file towards a rank that is not
    a number, in steps of zero, past the empty square a1, for ever. *)
Lemma betweenLoop_stuck fuel :
  betweenLoop fuel [("a1x", WhiteQueen)] 0 0 (Some 0) None (Some 0) (Some 7)
  = None.
Proof.
  induction fuel as [|fuel IH]; [reflexivity|].
  cbn [betweenLoop].
  change (JS.sne (Some 0) (Some 0) || JS.sne (Some 7) None) with true.
  change (truthy (pieceAt [("a1x", WhiteQueen)]
                    (squareAt (Some 0) (Some 7)))) with false.
  exact IH.
Qed.

Lemma generatePositions_ill_keyed fuel :
  generatePositions fuel [("a1x", WhiteQueen)] ["Daz"] = None.
Proof.
  assert (isLegalMove fuel "a1x" "az" WhiteQueen [("a1x", WhiteQueen)]
          = None) as L.
  { unfold isLegalMove, andNotBetween, isPieceBetween.
    change (fileOf "a1x") with (Some 0). change (rankOf "a1x") with (Some 7).
    change (fileOf "az") with (Some 0).
    change (rankOf "az") with (@None Z).
    cbn. rewrite betweenLoop_stuck. reflexivity. }
  assert (findPieceForMove fuel [("a1x", WhiteQueen)] "Qaz" true = None)
    as F.
  { unfold findPieceForMove.
    change (String.eqb "Qaz" "O-O") with false.
    change (String.eqb "Qaz" "O-O-O") with false.
    cbv -[isLegalMove]. rewrite L. reflexivity. }
  unfold generatePositions. cbn [sequencerLoop]. unfold sequencerStep.
  cbn [st_currentPos st_isWhiteTurn]. unfold spread.
  change (if isFrenchNotation "Daz" then convertMoveToStandard "Daz"
          else "Daz") with "Qaz".
  rewrite F. reflexivity.
Qed.

(** ** Termination *)






(** ** Detection of the French alphabet *)

Lemma hasFrenchLetter_app s t :
  hasFrenchLetter (s ++ t) = hasFrenchLetter s || hasFrenchLetter t.
Proof.
  induction s as [|c s IH]; simpl; [reflexivity|].
  rewrite IH, orb_assoc. reflexivity.
Qed.

(** [isFrenchFENNotation] looks at the first rank only: what follows the
    first slash does not count. *)
Lemma split_first_rank rank rest :
  JS.includesChar rank "/" = false ->
  exists ws, JS.split "/" (rank ++ String "/" rest) = rank :: ws.
Proof.
  unfold JS.includesChar.
  induction rank as [|c r IH]; intros H.
  - simpl. eauto.
  - cbn [JS.includes JS.startsWith] in H.
    destruct (Ascii.eqb_spec "/" c) as [<-|N]; [discriminate|].
    cbn [andb orb] in H. destruct (IH H) as [ws E].
    cbn [append JS.split].
    destruct (Ascii.eqb_spec c "/") as [->|_]; [contradiction|].
    rewrite E. eauto.
Qed.

Lemma isFrenchFENNotation_first_rank rank rest :
  JS.includesChar rank "/" = false ->
  isFrenchFENNotation (rank ++ String "/" rest) = hasFrenchLetter rank.
Proof.
  intros H. unfold isFrenchFENNotation.
  destruct (split_first_rank rank rest H) as [ws ->]. reflexivity.
Qed.

(** The detector of the earlier rules module reads the whole board
    section: it answers for all eight ranks. *)
Lemma Legacy_isFrenchFEN_board boardPart :
  JS.includesChar boardPart " " = false ->
  Legacy.isFrenchFEN boardPart = hasFrenchLetter boardPart.
Proof.
  intros H. unfold Legacy.isFrenchFEN.
  assert (JS.split " " boardPart = [boardPart]) as ->; [|reflexivity].
  induction boardPart as [|c r IH]; [reflexivity|].
  rewrite includesChar_cons in H. apply orb_false_iff in H.
  destruct H as [N H]. cbn [JS.split].
  rewrite Ascii.eqb_sym in N. rewrite N, (IH H). reflexivity.
Qed.

Lemma hasFrenchLetter_spec s :
  hasFrenchLetter s = true
  <-> exists c, In c (list_ascii_of_string s) /\ charIn "DTFCdtfc" c = true.
Proof.
  induction s as [|c s IH]; simpl.
  - split; [discriminate|]. intros (c & [] & _).
  - rewrite orb_true_iff, IH. split.
    + intros [H|(d & Hin & H)]; eauto.
    + intros (d & [<-|Hin] & H); eauto.
Qed.

(** C2.  The detector of the decoder does not look past the first rank: on
    the French rook ending, whose French letter T stands on the last rank,
    it answers false and the decoder rejects the letter, whereas the
    detector of the earlier rules module finds it. *)
Theorem C2_detector_reads_first_rank_only :
  hasFrenchLetter frenchRookEnding = true
  /\ isFrenchFENNotation frenchRookEnding = false
  /\ Legacy.isFrenchFEN frenchRookEnding = true
  /\ parsePosition frenchRookEnding = inl "Invalid piece character: T".
Proof. repeat split; vm_compute; reflexivity. Qed.

(** ** Which board sections decode *)

Lemma charWidth_nonneg isFrench c w :
  charWidth isFrench c = Some w -> 0 <= w.
Proof.
  unfold charWidth. destruct (JS.isDigit c) eqn:D.
  - intros H. assert (w = JS.digitValue c) as -> by congruence.
    apply digitValue_range. assumption.
  - destruct (JS.isSpace c); [discriminate|].
    destruct (recognized isFrench c); [|discriminate].
    intros H. assert (w = 1) as -> by congruence. lia.
Qed.

Lemma rankWidth_nonneg isFrench rank :
  forall w, rankWidth isFrench rank = Some w -> 0 <= w.
Proof.
  induction rank as [|c r IH]; simpl; intros w H.
  - assert (w = 0) as -> by congruence. lia.
  - destruct (charWidth isFrench c) as [a|] eqn:A; [|discriminate].
    destruct (rankWidth isFrench r) as [b|]; [|discriminate].
    assert (w = a + b) as -> by congruence.
    pose proof (charWidth_nonneg _ _ _ A). pose proof (IH _ eq_refl). lia.
Qed.

(** One character read from a numeric file index. *)
Lemma parseChar_width isFrench rankIndex c f position :
  0 <= f ->
  match charWidth isFrench c with
  | Some w =>
      if f + w <=? 8
      then exists position',
          parseChar isFrench rankIndex c (Some f, position)
          = inr (Some (f + w), position')
      else exists e,
          parseChar isFrench rankIndex c (Some f, position) = inl e
  | None =>
      (exists e, parseChar isFrench rankIndex c (Some f, position) = inl e)
      \/ (exists position',
             parseChar isFrench rankIndex c (Some f, position)
             = inr (None, position'))
  end.
Proof.
  intros H0. unfold charWidth, parseChar, JS.isNaN_Number_char,
    JS.parseInt_char.
  destruct (JS.isDigit c) eqn:D.
  - cbn [orb negb]. unfold JS.add, JS.gt.
    destruct (Z.leb_spec (f + JS.digitValue c) 8);
      destruct (Z.ltb_spec 8 (f + JS.digitValue c)); try lia; eauto.
  - destruct (JS.isSpace c) eqn:S.
    + cbn [orb negb]. unfold JS.add, JS.gt, JS.NaN. eauto.
    + cbn [orb negb]. unfold JS.ge, recognized.
      destruct (Z.leb_spec 8 f).
      * destruct (if isFrench && isFrenchPiece c then true
                  else isStandardPiece c).
        -- destruct (Z.leb_spec (f + 1) 8); [lia|eauto].
        -- eauto.
      * assert (coordsToAlgebraic (Some rankIndex) (Some f) <> None) as Hsq.
        { unfold coordsToAlgebraic, JS.fromCharCode, JS.add.
          rewrite Z.mod_small by lia.
          destruct (Z.ltb_spec (97 + f) 256); [discriminate|lia]. }
        destruct (isFrench && isFrenchPiece c) eqn:M.
        -- assert (exists p, frenchSwitch c = inr p) as [p ->].
           { apply andb_true_iff in M. destruct M as [_ M]. clear - M.
             destruct c as [[] [] [] [] [] [] [] []]; try discriminate;
               eexists; reflexivity. }
           destruct (Z.leb_spec (f + 1) 8); [|lia]. unfold JS.add. eauto.
        -- destruct (isStandardPiece c) eqn:P.
           ++ assert (exists p, standardSwitch c = inr p) as [p ->].
              { clear - P.
                destruct c as [[] [] [] [] [] [] [] []]; try discriminate;
                  eexists; reflexivity. }
              destruct (Z.leb_spec (f + 1) 8); [|lia]. unfold JS.add. eauto.
           ++ assert (exists e, standardSwitch c = inl e) as [e ->].
              { clear - P.
                destruct c as [[] [] [] [] [] [] [] []]; try discriminate;
                  eexists; reflexivity. }
              eauto.
Qed.

(** Once the file index is [NaN] it stays so. *)
Lemma parseChars_NaN isFrench rankIndex rank :
  forall position f position',
    parseChars isFrench rankIndex rank (None, position)
    = inr (f, position') ->
    f = None.
Proof.
  induction rank as [|c r IH]; intros position f position';
    cbn [parseChars].
  - intros H. congruence.
  - destruct (parseChar isFrench rankIndex c (None, position))
      as [e|[f1 p1]] eqn:E; [discriminate|].
    assert (f1 = None) as ->.
    { revert E. unfold parseChar, JS.ge, JS.gt, JS.add.
      destruct (JS.isNaN_Number_char c).
      - destruct (if isFrench && isFrenchPiece c then _ else _);
          intros H; [discriminate H|]. inversion H. reflexivity.
      - intros H. inversion H. reflexivity. }
    apply IH.
Qed.

(** A rank is read to the end with file index 8 exactly when its
    characters stand for the files that are left. *)
Lemma parseChars_width isFrench rankIndex rank :
  forall f position,
    0 <= f <= 8 ->
    (exists position',
        parseChars isFrench rankIndex rank (Some f, position)
        = inr (Some 8, position'))
    <-> rankWidth isFrench rank = Some (8 - f).
Proof.
  induction rank as [|c r IH]; intros f position Hf; cbn [parseChars rankWidth].
  - split.
    + intros [p H]. assert (f = 8) as -> by congruence. reflexivity.
    + intros H. assert (0 = 8 - f) by congruence.
      assert (f = 8) as -> by lia. eauto.
  - pose proof (parseChar_width isFrench rankIndex c f position
                  (proj1 Hf)) as Hc.
    destruct (charWidth isFrench c) as [w|] eqn:W.
    + pose proof (charWidth_nonneg _ _ _ W) as Hw.
      destruct (Z.leb_spec (f + w) 8) as [Hle|Hgt].
      * destruct Hc as [p1 ->]. rewrite (IH (f + w) p1) by lia.
        destruct (rankWidth isFrench r) as [b|]; [|split; discriminate].
        split; intros H.
        -- assert (b = 8 - (f + w)) by congruence. f_equal. lia.
        -- assert (w + b = 8 - f) by congruence. f_equal. lia.
      * destruct Hc as [e ->]. split; [intros [p H]; discriminate|].
        destruct (rankWidth isFrench r) as [b|] eqn:B; [|discriminate].
        pose proof (rankWidth_nonneg _ _ _ B). intros Hs.
        assert (w + b = 8 - f) by congruence. lia.
    + split; [|discriminate].
      intros [p H]. destruct Hc as [[e E]|[p1 E]]; rewrite E in H;
        [discriminate|].
      apply parseChars_NaN in H. discriminate.
Qed.

Lemma parseRank_width isFrench rankIndex rank position :
  (exists position',
      parseRank isFrench rankIndex rank position = inr position')
  <-> rankWidth isFrench rank = Some 8.
Proof.
  unfold parseRank.
  rewrite <- (parseChars_width isFrench rankIndex rank 0 position) by lia.
  destruct (parseChars isFrench rankIndex rank (Some 0, position))
    as [e|[[f|] p]].
  - split; intros [p H]; discriminate.
  - unfold JS.sne, JS.seq. destruct (Z.eqb_spec f 8) as [->|N]; cbn [negb].
    + split; eauto.
    + split; intros [q H]; [discriminate|]. congruence.
  - cbn. split; intros [q H]; discriminate.
Qed.

Lemma parseRanks_width isFrench ranks :
  forall rankIndex position,
    (exists position',
        parseRanks isFrench rankIndex ranks position = inr position')
    <-> forallb (fun rank =>
                   match rankWidth isFrench rank with
                   | Some w => w =? 8
                   | None => false
                   end) ranks = true.
Proof.
  induction ranks as [|r rs IH]; intros rankIndex position;
    cbn [parseRanks forallb].
  - split; eauto.
  - pose proof (parseRank_width isFrench rankIndex r position) as Hr.
    destruct (parseRank isFrench rankIndex r position) as [e|p1].
    + split; [intros [p H]; discriminate|].
      intros H. apply andb_true_iff in H. destruct H as [H _].
      destruct (rankWidth isFrench r) as [w|]; [|discriminate].
      apply Z.eqb_eq in H. subst w.
      destruct (proj2 Hr eq_refl) as [p H]. discriminate.
    + rewrite (IH (rankIndex + 1) p1).
      assert (rankWidth isFrench r = Some 8) as -> by (apply Hr; eauto).
      reflexivity.
Qed.

(** The decoder accepts a section exactly when it has eight ranks, each
    made of digits from 0 to 8 and of letters accepted in the detected mode,
    standing for eight files. *)
Lemma parsePosition_accepted boardPart :
  (exists position, parsePosition boardPart = inr position)
  <-> accepted boardPart = true.
Proof.
  unfold parsePosition, accepted.
  destruct (Nat.eqb_spec (List.length (JS.split "/" boardPart)) 8);
    cbn [negb andb].
  - apply parseRanks_width.
  - split; [intros [p H]|]; discriminate.
Qed.

(** ** Decoding errors *)

(** C5.  A zero among the digits of a rank adds no file and is accepted:
    the section below, with a rank written 08, decodes to the initial
    position and the record that carries it is reported valid. *)
Theorem C5_zero_digit_is_accepted :
  parsePosition "rnbqkbnr/pppppppp/8/08/8/8/PPPPPPPP/RNBQKBNR"
  = inr initialPosition
  /\ isValid
       (parseFEN "rnbqkbnr/pppppppp/8/08/8/8/PPPPPPPP/RNBQKBNR w KQkq - 0 1")
     = true
  /\ parseError
       (parseFEN "rnbqkbnr/pppppppp/8/08/8/8/PPPPPPPP/RNBQKBNR w KQkq - 0 1")
     = None.
Proof. repeat split; vm_compute; reflexivity. Qed.

(** ** The two alphabets *)

Lemma convertPieceToStandard_frenchLetter p :
  convertPieceToStandard (frenchLetter p) = standardLetter p.
Proof. destruct p; reflexivity. Qed.

Lemma convertPieceToStandard_not_french c :
  charIn "DTFCdtfc" (convertPieceToStandard c) = false.
Proof. destruct c as [[] [] [] [] [] [] [] []]; reflexivity. Qed.

Lemma convertPieceToStandard_slash c :
  Ascii.eqb (convertPieceToStandard c) "/" = Ascii.eqb c "/".
Proof. destruct c as [[] [] [] [] [] [] [] []]; reflexivity. Qed.

Lemma mapChars_app f s t :
  mapChars f (s ++ t) = mapChars f s ++ mapChars f t.
Proof. induction s; simpl; congruence. Qed.

Lemma hasFrenchLetter_standard s :
  hasFrenchLetter (mapChars convertPieceToStandard s) = false.
Proof.
  induction s as [|c s IH]; simpl; [reflexivity|].
  rewrite convertPieceToStandard_not_french, IH. reflexivity.
Qed.

Lemma split_mapChars s :
  JS.split "/" (mapChars convertPieceToStandard s)
  = map (mapChars convertPieceToStandard) (JS.split "/" s).
Proof.
  induction s as [|c s IH]; simpl; [reflexivity|].
  rewrite convertPieceToStandard_slash, IH.
  destruct (Ascii.eqb c "/"); [reflexivity|].
  destruct (JS.split "/" s); reflexivity.
Qed.

(** Reading a character in French mode is reading its standard letter in
    standard mode. *)
Lemma parseChar_standard rankIndex c st :
  parseChar true rankIndex c st
  = parseChar false rankIndex (convertPieceToStandard c) st.
Proof.
  destruct st as [fileIndex position].
  destruct c as [[] [] [] [] [] [] [] []]; reflexivity.
Qed.

Lemma parseChars_standard rankIndex rank :
  forall st,
    parseChars true rankIndex rank st
    = parseChars false rankIndex (mapChars convertPieceToStandard rank) st.
Proof.
  induction rank as [|c r IH]; intros st; simpl; [reflexivity|].
  rewrite parseChar_standard.
  destruct (parseChar false rankIndex (convertPieceToStandard c) st);
    [reflexivity|apply IH].
Qed.

Lemma parseRanks_standard ranks :
  forall rankIndex position,
    parseRanks true rankIndex ranks position
    = parseRanks false rankIndex
        (map (mapChars convertPieceToStandard) ranks) position.
Proof.
  induction ranks as [|r rs IH]; intros rankIndex position; simpl;
    [reflexivity|].
  unfold parseRank. rewrite parseChars_standard.
  destruct (parseChars false rankIndex _ _) as [e|[f p]]; [reflexivity|].
  destruct (JS.sne f (Some 8)); [reflexivity|apply IH].
Qed.

(** A section that the detector takes for French decodes as its
    letter-by-letter conversion to the standard alphabet does. *)
Lemma parsePosition_standard boardPart :
  isFrenchFENNotation boardPart = true ->
  parsePosition boardPart
  = parsePosition (mapChars convertPieceToStandard boardPart).
Proof.
  intros F. unfold parsePosition. rewrite F.
  assert (isFrenchFENNotation (mapChars convertPieceToStandard boardPart)
          = false) as ->.
  { unfold isFrenchFENNotation. rewrite split_mapChars.
    destruct (JS.split "/" boardPart); simpl; [reflexivity|].
    apply hasFrenchLetter_standard. }
  rewrite split_mapChars, length_map.
  destruct (negb _); [reflexivity|apply parseRanks_standard].
Qed.

(** A property of characters that holds of the 256 of them. *)
Lemma all_ascii (P : ascii -> bool) :
  forallb (fun n => P (ascii_of_nat n)) (seq 0 256) = true ->
  forall c, P c = true.
Proof.
  intros H c. rewrite forallb_forall in H.
  specialize (H (nat_of_ascii c)). rewrite ascii_nat_embedding in H.
  apply H. apply in_seq. pose proof (nat_ascii_bounded c). lia.
Qed.

(** The ten successive replacements of [frenchToStandardFEN] amount to the
    conversion of each letter. *)
Lemma replaceAllChar_mapChars x y s :
  JS.replaceAllChar x y s
  = mapChars (fun c => if Ascii.eqb c x then y else c) s.
Proof. induction s; simpl; congruence. Qed.

Lemma mapChars_mapChars f g s :
  mapChars f (mapChars g s) = mapChars (fun c => f (g c)) s.
Proof. induction s; simpl; congruence. Qed.

Lemma mapChars_ext f g s :
  (forall c, f c = g c) -> mapChars f s = mapChars g s.
Proof. intros H. induction s; simpl; congruence. Qed.

Lemma Legacy_frenchToStandardFEN_french fen :
  Legacy.isFrenchFEN fen = true ->
  Legacy.frenchToStandardFEN fen = mapChars convertPieceToStandard fen.
Proof.
  intros H. unfold Legacy.frenchToStandardFEN. rewrite H. cbn [negb].
  rewrite !replaceAllChar_mapChars, !mapChars_mapChars.
  apply mapChars_ext. intros c. apply Ascii.eqb_eq. revert c.
  apply (all_ascii
           (fun c =>
              Ascii.eqb
                ((fun c => if Ascii.eqb c "c" then "n" else c)
                   ((fun c => if Ascii.eqb c "C" then "N" else c)
                      ((fun c => if Ascii.eqb c "f" then "b" else c)
                         ((fun c => if Ascii.eqb c "F" then "B" else c)
                            ((fun c => if Ascii.eqb c "t" then "r" else c)
                               ((fun c => if Ascii.eqb c "T" then "R" else c)
                                  ((fun c => if Ascii.eqb c "d" then "q"
                                             else c)
                                     ((fun c => if Ascii.eqb c "D" then "Q"
                                                else c)
                                        ((fun c => if Ascii.eqb c "r"
                                                   then "k" else c)
                                           ((fun c => if Ascii.eqb c "R"
                                                      then "K" else c)
                                              c))))))))))%char
                (convertPieceToStandard c))).
  vm_compute. reflexivity.
Qed.

Lemma Legacy_frenchToStandardFEN_kingsOnly :
  Legacy.frenchToStandardFEN (boardSection frenchLetter kingsOnly)
  = boardSection frenchLetter kingsOnly.
Proof. vm_compute. reflexivity. Qed.

(** *** Board sections of logical positions *)

Lemma emptyRun_standard n :
  (n <= 8)%nat -> mapChars convertPieceToStandard (emptyRun n) = emptyRun n.
Proof.
  intros H. do 9 (destruct n as [|n]; [reflexivity|]). lia.
Qed.

Lemma writeRank_standard squares :
  forall run,
    (run + List.length squares <= 8)%nat ->
    mapChars convertPieceToStandard (writeRank frenchLetter run squares)
    = writeRank standardLetter run squares.
Proof.
  induction squares as [|[p|] rest IH]; intros run H; simpl in *.
  - apply emptyRun_standard. lia.
  - rewrite mapChars_app. simpl.
    rewrite emptyRun_standard, convertPieceToStandard_frenchLetter, IH
      by lia.
    reflexivity.
  - apply IH. lia.
Qed.

Lemma joinRanks_standard ranks :
  mapChars convertPieceToStandard (joinRanks ranks)
  = joinRanks (map (mapChars convertPieceToStandard) ranks).
Proof.
  induction ranks as [|r [|r' rs] IH]; try reflexivity.
  change (joinRanks (r :: r' :: rs))
    with (r ++ String "/" (joinRanks (r' :: rs))).
  rewrite mapChars_app. cbn [mapChars]. rewrite IH. reflexivity.
Qed.

Lemma isBoard_inv b :
  isBoard b = true ->
  List.length b = 8%nat
  /\ Forall (fun rank => List.length rank = 8%nat) b.
Proof.
  unfold isBoard. intros H. apply andb_true_iff in H. destruct H as [L F].
  split; [apply Nat.eqb_eq; assumption|].
  apply Forall_forall. intros rank Hin.
  rewrite forallb_forall in F. apply Nat.eqb_eq. auto.
Qed.

(** The French section of a position, converted letter by letter, is its
    standard section. *)
Lemma boardSection_standard b :
  isBoard b = true ->
  mapChars convertPieceToStandard (boardSection frenchLetter b)
  = boardSection standardLetter b.
Proof.
  intros H. destruct (isBoard_inv _ H) as [_ F].
  unfold boardSection. rewrite joinRanks_standard, map_map. f_equal.
  apply map_ext_in. intros rank Hin. rewrite Forall_forall in F.
  apply writeRank_standard. rewrite (F _ Hin). lia.
Qed.

Lemma isFrenchFENNotation_standard s :
  isFrenchFENNotation (mapChars convertPieceToStandard s) = false.
Proof.
  unfold isFrenchFENNotation. rewrite split_mapChars.
  destruct (JS.split "/" s); simpl; [reflexivity|].
  apply hasFrenchLetter_standard.
Qed.

(** *** The standard section of a position decodes *)

Lemma emptyRun_noSlash n :
  (n <= 8)%nat -> JS.includesChar (emptyRun n) "/" = false.
Proof.
  intros H. do 9 (destruct n as [|n]; [reflexivity|]). lia.
Qed.

Lemma writeRank_noSlash squares :
  forall run,
    (run + List.length squares <= 8)%nat ->
    JS.includesChar (writeRank standardLetter run squares) "/" = false.
Proof.
  induction squares as [|[p|] rest IH]; intros run H; simpl in *.
  - apply emptyRun_noSlash. lia.
  - rewrite includesChar_app, includesChar_cons, emptyRun_noSlash, IH by lia.
    destruct p; reflexivity.
  - apply IH. lia.
Qed.

Lemma split_noSlash r :
  JS.includesChar r "/" = false -> JS.split "/" r = [r].
Proof.
  induction r as [|c r IH]; [reflexivity|].
  rewrite includesChar_cons. intros H. apply orb_false_iff in H.
  destruct H as [N H]. cbn [JS.split].
  rewrite Ascii.eqb_sym in N. rewrite N, (IH H). reflexivity.
Qed.

Lemma split_app_slash r t :
  JS.includesChar r "/" = false ->
  JS.split "/" (r ++ String "/" t) = r :: JS.split "/" t.
Proof.
  induction r as [|c r IH]; [reflexivity|].
  rewrite includesChar_cons. intros H. apply orb_false_iff in H.
  destruct H as [N H]. cbn [append JS.split].
  rewrite Ascii.eqb_sym in N. rewrite N, (IH H). reflexivity.
Qed.

Lemma split_joinRanks ranks :
  ranks <> [] ->
  Forall (fun r => JS.includesChar r "/" = false) ranks ->
  JS.split "/" (joinRanks ranks) = ranks.
Proof.
  intros N F. induction F as [|r rs Hr F IH]; [contradiction|].
  destruct rs as [|r' rs].
  - apply split_noSlash. assumption.
  - change (joinRanks (r :: r' :: rs))
      with (r ++ String "/" (joinRanks (r' :: rs))).
    rewrite split_app_slash, IH by (assumption || discriminate).
    reflexivity.
Qed.

Lemma parseChars_app isFrench rankIndex s t :
  forall st,
    parseChars isFrench rankIndex (s ++ t) st
    = match parseChars isFrench rankIndex s st with
      | inl e => inl e
      | inr st' => parseChars isFrench rankIndex t st'
      end.
Proof.
  induction s as [|c s IH]; intros st; simpl; [reflexivity|].
  destruct (parseChar isFrench rankIndex c st); [reflexivity|apply IH].
Qed.

Lemma parseChar_digit isFrench rankIndex c f position :
  JS.isDigit c = true ->
  f + JS.digitValue c <= 8 ->
  parseChar isFrench rankIndex c (Some f, position)
  = inr (Some (f + JS.digitValue c), position).
Proof.
  intros D H. unfold parseChar, JS.isNaN_Number_char, JS.parseInt_char.
  rewrite D. cbn [orb negb]. unfold JS.add, JS.gt.
  destruct (Z.ltb_spec 8 (f + JS.digitValue c)); [lia|reflexivity].
Qed.

Lemma emptyRun_digit n :
  (1 <= n <= 8)%nat ->
  exists c,
    emptyRun n = String c ""
    /\ JS.isDigit c = true /\ JS.digitValue c = Z.of_nat n.
Proof.
  intros H.
  do 9 (destruct n as [|n];
        [try lia; eexists; repeat split; reflexivity|]).
  lia.
Qed.

Lemma parseChars_emptyRun isFrench rankIndex run f position :
  (run <= 8)%nat -> f + Z.of_nat run <= 8 ->
  parseChars isFrench rankIndex (emptyRun run) (Some f, position)
  = inr (Some (f + Z.of_nat run), position).
Proof.
  intros R H.
  destruct run as [|run]; [simpl; rewrite Z.add_0_r; reflexivity|].
  destruct (emptyRun_digit (S run)) as (c & -> & D & V); [lia|].
  cbn [parseChars]. rewrite parseChar_digit, V by (assumption || lia).
  reflexivity.
Qed.

Lemma parseChar_piece rankIndex p f position :
  0 <= f < 8 ->
  exists position',
    parseChar false rankIndex (standardLetter p) (Some f, position)
    = inr (Some (f + 1), position').
Proof.
  intros H. unfold parseChar.
  assert (JS.isNaN_Number_char (standardLetter p) = true) as ->
    by (destruct p; reflexivity).
  unfold JS.ge. destruct (Z.leb_spec 8 f); [lia|].
  cbn [andb].
  assert (standardSwitch (standardLetter p) = inr p) as ->
    by (destruct p; reflexivity).
  unfold JS.add. eauto.
Qed.

Lemma parseChars_writeRank rankIndex squares :
  forall run f position,
    0 <= f ->
    f + Z.of_nat run + Z.of_nat (List.length squares) = 8 ->
    exists position',
      parseChars false rankIndex (writeRank standardLetter run squares)
        (Some f, position)
      = inr (Some 8, position').
Proof.
  induction squares as [|[p|] rest IH]; intros run f position H0 H;
    cbn [writeRank List.length] in *.
  - rewrite parseChars_emptyRun by lia.
    replace (f + Z.of_nat run) with 8 by lia. eauto.
  - rewrite parseChars_app, parseChars_emptyRun by lia.
    cbn [parseChars].
    destruct (parseChar_piece rankIndex p (f + Z.of_nat run) position)
      as [position' ->]; [lia|].
    apply IH; lia.
  - apply IH; lia.
Qed.

Lemma parseRanks_writeRank rows :
  Forall (fun rank => List.length rank = 8%nat) rows ->
  forall rankIndex position,
    exists position',
      parseRanks false rankIndex (map (writeRank standardLetter 0) rows)
        position
      = inr position'.
Proof.
  induction 1 as [|rank rows Hlen _ IH]; intros rankIndex position;
    cbn [map parseRanks]; [eauto|].
  unfold parseRank.
  destruct (parseChars_writeRank rankIndex rank 0 0 position)
    as [position' ->]; [lia|rewrite Hlen; reflexivity|].
  cbn. apply IH.
Qed.

(** The standard section of every logical position decodes. *)
Lemma parsePosition_boardSection b :
  isBoard b = true ->
  exists position, parsePosition (boardSection standardLetter b) = inr position.
Proof.
  intros H. destruct (isBoard_inv _ H) as [L F].
  assert (isFrenchFENNotation (boardSection standardLetter b) = false) as N.
  { rewrite <- (boardSection_standard b H).
    apply isFrenchFENNotation_standard. }
  unfold parsePosition. rewrite N.
  unfold boardSection. rewrite split_joinRanks.
  - rewrite length_map, L. cbn [Nat.eqb negb].
    apply parseRanks_writeRank. assumption.
  - destruct b; [discriminate|discriminate].
  - apply Forall_forall. intros r Hin. apply in_map_iff in Hin.
    destruct Hin as (rank & <- & Hin). rewrite Forall_forall in F.
    apply writeRank_noSlash. rewrite (F _ Hin). lia.
Qed.

(** ** French and standard sections of one position *)

(** C3, as the code has it.  For every logical position whose French board
    section shows a French-only letter in its first rank, that section and
    the standard section of the same position decode, and to the same
    mapping; the French initial section decodes to the 32-piece layout of
    the standard initial section. *)
Theorem C3_french_section_decodes_like_standard :
  forall b,
    isBoard b = true ->
    isFrenchFENNotation (boardSection frenchLetter b) = true ->
    (exists position,
        parsePosition (boardSection frenchLetter b) = inr position
        /\ parsePosition (boardSection standardLetter b) = inr position)
    /\ parsePosition initialBoardFrench = parsePosition initialBoard
    /\ parsePosition initialBoard = inr initialPosition
    /\ List.length initialPosition = 32%nat.
Proof.
  intros b H F.
  split; [|split; [|split]; vm_compute; reflexivity].
  destruct (parsePosition_boardSection b H) as [position E].
  exists position. split; [|assumption].
  rewrite (parsePosition_standard _ F), boardSection_standard; assumption.
Qed.

Lemma C3_french_section_decodes_like_standard_witness :
  (exists position,
      parsePosition
        (boardSection frenchLetter
           [[None; None; None; Some BlackQueen; Some BlackKing; None; None;
             None];
            emptyRank; emptyRank; emptyRank; emptyRank; emptyRank; emptyRank;
            [Some WhiteRook; None; None; None; Some WhiteKing; None; None;
             None]])
      = inr position
      /\ parsePosition
           (boardSection standardLetter
              [[None; None; None; Some BlackQueen; Some BlackKing; None; None;
                None];
               emptyRank; emptyRank; emptyRank; emptyRank; emptyRank;
               emptyRank;
               [Some WhiteRook; None; None; None; Some WhiteKing; None; None;
                None]])
         = inr position)
  /\ parsePosition initialBoardFrench = parsePosition initialBoard
  /\ parsePosition initialBoard = inr initialPosition
  /\ List.length initialPosition = 32%nat.
Proof.
  apply (C3_french_section_decodes_like_standard
           [[None; None; None; Some BlackQueen; Some BlackKing; None; None;
             None];
            emptyRank; emptyRank; emptyRank; emptyRank; emptyRank; emptyRank;
            [Some WhiteRook; None; None; None; Some WhiteKing; None; None;
             None]]);
    vm_compute; reflexivity.
Defined.

(** As worded for every position the property fails.  With the two kings
    alone, the French section has no French-only letter: its letters r and
    R are read as rooks, whereas the standard section gives the kings. *)
Lemma C3_counterexample :
  isBoard kingsOnly = true
  /\ boardSection frenchLetter kingsOnly = "4r3/8/8/8/8/8/8/4R3"
  /\ boardSection standardLetter kingsOnly = "4k3/8/8/8/8/8/8/4K3"
  /\ parsePosition (boardSection frenchLetter kingsOnly)
     = inr [("e8", BlackRook); ("e1", WhiteRook)]
  /\ parsePosition (boardSection standardLetter kingsOnly)
     = inr [("e8", BlackKing); ("e1", WhiteKing)]
  /\ parsePosition (boardSection frenchLetter kingsOnly)
     <> parsePosition (boardSection standardLetter kingsOnly).
Proof.
  repeat match goal with |- _ /\ _ => split end;
    try (vm_compute; reflexivity).
  vm_compute. discriminate.
Qed.

(** ** Tokens of a move section *)

Lemma splitOn_cons p s : exists w ws, splitOn p s = w :: ws.
Proof.
  destruct s as [|c s]; simpl; [eauto|].
  destruct (p c); [eauto|]. destruct (splitOn p s); eauto.
Qed.

Lemma pieceView_splitOn c s :
  pieceView (splitOn JS.isSpace (String c s))
  = pieceStep c (pieceView (splitOn JS.isSpace s)).
Proof.
  unfold pieceStep. cbn [splitOn].
  destruct (splitOn_cons JS.isSpace s) as (w & ws & ->).
  destruct (JS.isSpace c); unfold pieceView; cbn [hd tl fst snd filter];
    [|reflexivity].
  destruct (JS.nonEmpty w); reflexivity.
Qed.

Lemma filter_pieceView l :
  l <> [] ->
  filter JS.nonEmpty l
  = ((if JS.nonEmpty (fst (pieceView l)) then [fst (pieceView l)] else [])
     ++ snd (pieceView l))%list.
Proof.
  destruct l as [|w ws]; [contradiction|]. intros _. simpl.
  destruct (JS.nonEmpty w); reflexivity.
Qed.

Lemma pieceView_space_head c s :
  JS.isSpace c = true ->
  fst (pieceView (splitOn JS.isSpace (String c s))) = "".
Proof. intros H. cbn [splitOn]. rewrite H. reflexivity. Qed.

Lemma splitSpaces_cons s : exists w ws, JS.splitSpaces s = w :: ws.
Proof.
  induction s as [|c s IH]; simpl; [eauto|].
  destruct (JS.isSpace c).
  - destruct s as [|d s']; [eauto|]. destruct (JS.isSpace d); eauto.
  - destruct IH as (w & ws & ->). eauto.
Qed.

(** [split(/\s+/)] and the split at every white-space character differ by
    empty pieces only. *)
Lemma pieceView_splitSpaces s :
  pieceView (JS.splitSpaces s) = pieceView (splitOn JS.isSpace s).
Proof.
  induction s as [|c s IH]; [reflexivity|].
  rewrite pieceView_splitOn. unfold pieceStep.
  cbn [JS.splitSpaces].
  destruct (JS.isSpace c) eqn:Ec.
  - destruct s as [|d s'].
    + reflexivity.
    + destruct (JS.isSpace d) eqn:Ed.
      * rewrite IH.
        pose proof (pieceView_space_head d s' Ed) as Hd.
        destruct (pieceView (splitOn JS.isSpace (String d s'))) as [h r].
        simpl in Hd. subst h. reflexivity.
      * rewrite <- IH. unfold pieceView. cbn [hd tl fst snd].
        destruct (splitSpaces_cons (String d s')) as (w & ws & ->).
        cbn [hd tl filter]. destruct (JS.nonEmpty w); reflexivity.
  - rewrite <- IH.
    destruct (splitSpaces_cons s) as (w & ws & ->). reflexivity.
Qed.

Lemma splitOn_nonnil p s : splitOn p s <> [].
Proof. destruct (splitOn_cons p s) as (w & ws & ->). discriminate. Qed.

Lemma splitSpaces_nonnil s : JS.splitSpaces s <> [].
Proof. destruct (splitSpaces_cons s) as (w & ws & ->). discriminate. Qed.

Lemma filter_splitSpaces s :
  filter JS.nonEmpty (JS.splitSpaces s)
  = filter JS.nonEmpty (splitOn JS.isSpace s).
Proof.
  rewrite (filter_pieceView _ (splitSpaces_nonnil s)),
    (filter_pieceView _ (splitOn_nonnil JS.isSpace s)),
    pieceView_splitSpaces.
  reflexivity.
Qed.

Lemma isSpace_space : JS.isSpace " " = true.
Proof. reflexivity. Qed.

Lemma pieceView_collapseSpaces s :
  pieceView (splitOn JS.isSpace (JS.collapseSpaces s))
  = pieceView (splitOn JS.isSpace s).
Proof.
  induction s as [|c s IH]; [reflexivity|].
  rewrite (pieceView_splitOn c s). cbn [JS.collapseSpaces].
  destruct (JS.isSpace c) eqn:Ec.
  - destruct s as [|d s'].
    + unfold pieceStep. rewrite Ec. reflexivity.
    + destruct (JS.isSpace d) eqn:Ed.
      * rewrite IH. unfold pieceStep. rewrite Ec.
        pose proof (pieceView_space_head d s' Ed) as Hd.
        destruct (pieceView (splitOn JS.isSpace (String d s'))) as [h r].
        simpl in Hd. subst h. reflexivity.
      * rewrite pieceView_splitOn, IH. unfold pieceStep.
        rewrite isSpace_space, Ec. reflexivity.
  - rewrite pieceView_splitOn, IH. reflexivity.
Qed.

Lemma pieceView_trimEnd s :
  pieceView (splitOn JS.isSpace (JS.trimEnd s))
  = pieceView (splitOn JS.isSpace s).
Proof.
  induction s as [|c s IH]; [reflexivity|].
  rewrite (pieceView_splitOn c s), <- IH. cbn [JS.trimEnd].
  destruct (JS.trimEnd s) as [|d r] eqn:E.
  - unfold pieceStep. destruct (JS.isSpace c) eqn:Ec; [reflexivity|].
    cbn [splitOn]. rewrite Ec. reflexivity.
  - rewrite pieceView_splitOn. reflexivity.
Qed.

Lemma filter_splitOn_space c s :
  JS.isSpace c = true ->
  filter JS.nonEmpty (splitOn JS.isSpace (String c s))
  = filter JS.nonEmpty (splitOn JS.isSpace s).
Proof. intros H. cbn [splitOn]. rewrite H. reflexivity. Qed.

Lemma filter_splitOn_trimStart s :
  filter JS.nonEmpty (splitOn JS.isSpace (JS.trimStart s))
  = filter JS.nonEmpty (splitOn JS.isSpace s).
Proof.
  induction s as [|c s IH]; [reflexivity|].
  cbn [JS.trimStart]. destruct (JS.isSpace c) eqn:Ec; [|reflexivity].
  rewrite IH, filter_splitOn_space by assumption. reflexivity.
Qed.

Lemma filter_splitOn_view s t :
  pieceView (splitOn JS.isSpace s) = pieceView (splitOn JS.isSpace t) ->
  filter JS.nonEmpty (splitOn JS.isSpace s)
  = filter JS.nonEmpty (splitOn JS.isSpace t).
Proof.
  intros H.
  rewrite (filter_pieceView _ (splitOn_nonnil JS.isSpace s)),
    (filter_pieceView _ (splitOn_nonnil JS.isSpace t)), H.
  reflexivity.
Qed.

(** Collapsing, trimming and splitting at runs of white space give the
    pieces between white-space characters that are not empty. *)
Lemma words_of_section s :
  filter JS.nonEmpty (JS.splitSpaces (JS.trim (JS.collapseSpaces s)))
  = filter JS.nonEmpty (splitOn JS.isSpace s).
Proof.
  rewrite filter_splitSpaces. unfold JS.trim.
  rewrite (filter_splitOn_view _ _ (pieceView_trimEnd _)),
    filter_splitOn_trimStart.
  apply filter_splitOn_view, pieceView_collapseSpaces.
Qed.

(** A piece between white-space characters contains none. *)
Lemma splitOn_noSpace s :
  Forall (fun w => noSpace w = true) (splitOn JS.isSpace s).
Proof.
  induction s as [|c s IH]; cbn [splitOn]; [repeat constructor|].
  destruct (JS.isSpace c) eqn:Ec; [constructor; [reflexivity|assumption]|].
  destruct (splitOn JS.isSpace s) as [|w ws]; [repeat constructor|].
  - simpl. rewrite Ec. reflexivity.
  - inversion IH; subst. constructor; [|assumption].
    simpl. rewrite Ec. assumption.
Qed.

Lemma trimStart_noSpace s : noSpace s = true -> JS.trimStart s = s.
Proof.
  destruct s as [|c s]; [reflexivity|]. simpl.
  destruct (JS.isSpace c); [discriminate|reflexivity].
Qed.

Lemma trimEnd_noSpace s : noSpace s = true -> JS.trimEnd s = s.
Proof.
  induction s as [|c s IH]; [reflexivity|]. simpl.
  destruct (JS.isSpace c) eqn:Ec; [discriminate|]. simpl. intros H.
  rewrite (IH H). destruct s; reflexivity.
Qed.

Lemma afterDigits_noSpace s :
  noSpace s = true -> noSpace (JS.afterDigits s) = true.
Proof.
  induction s as [|c s IH]; [reflexivity|]. intros H. cbn [JS.afterDigits].
  destruct (JS.isDigit c); [|assumption].
  apply IH. simpl in H. apply andb_true_iff in H. tauto.
Qed.

Lemma stripMoveNumber_noSpace s :
  noSpace s = true -> noSpace (JS.stripMoveNumber s) = true.
Proof.
  intros H. unfold JS.stripMoveNumber, JS.matchMoveNumber.
  destruct s as [|c s]; [reflexivity|].
  destruct (JS.isDigit c); [|assumption].
  pose proof (afterDigits_noSpace _ H) as A.
  destruct (JS.afterDigits (String c s)) as [|d r]; [assumption|].
  destruct d as [[] [] [] [] [] [] [] []]; assumption.
Qed.

(** The tokenizer of the parser, in terms of the tokens of the section. *)
Lemma parseMoves_tokens movePart :
  parseMoves movePart
  = map (fun move =>
           if String.eqb move "O-O" || String.eqb move "O-O-O" then move
           else replaceLeadingFrench move)
      (tokensOf movePart).
Proof.
  unfold parseMoves, tokensOf.
  destruct movePart as [|c s]; [reflexivity|]. cbn [JS.nonEmpty negb].
  rewrite words_of_section. do 2 f_equal.
  apply map_ext_in. intros w Hin. apply filter_In in Hin.
  destruct Hin as [Hin _].
  pose proof (splitOn_noSpace (String c s)) as F.
  rewrite Forall_forall in F. specialize (F _ Hin).
  apply stripMoveNumber_noSpace in F.
  unfold JS.trim. rewrite trimStart_noSpace, trimEnd_noSpace by assumption.
  reflexivity.
Qed.


(** The pawn moves d4, d5, c4 and f5 are handed on as q4, q5, n4 and
    b5. *)
Lemma parseMoves_pawn_files :
  tokensOf "1.d4 d5 2.c4 f5" = ["d4"; "d5"; "c4"; "f5"]
  /\ parseMoves "1.d4 d5 2.c4 f5" = ["q4"; "q5"; "n4"; "b5"].
Proof. split; vm_compute; reflexivity. Qed.

(** What stripping a move number means: a token made of one or more
    digits, a dot and a rest is replaced by the rest; any other token is
    kept. *)
Lemma leadingDigits_afterDigits s :
  s = leadingDigits s ++ JS.afterDigits s
  /\ Obj.allDigits (leadingDigits s) = true.
Proof.
  induction s as [|c s [IH1 IH2]]; [split; reflexivity|].
  cbn [leadingDigits JS.afterDigits].
  destruct (JS.isDigit c) eqn:D.
  - cbn [append Obj.allDigits]. rewrite D, IH2, <- IH1. split; reflexivity.
  - split; reflexivity.
Qed.

Lemma afterDigits_numbered digits rest :
  Obj.allDigits digits = true ->
  JS.afterDigits (digits ++ String "." rest) = String "." rest.
Proof.
  induction digits as [|c d IH]; intros H; [reflexivity|].
  cbn [Obj.allDigits] in H. apply andb_true_iff in H. destruct H as [D H].
  cbn [append JS.afterDigits]. rewrite D. apply IH. assumption.
Qed.

Lemma stripMoveNumber_numbered digits rest :
  digits <> "" -> Obj.allDigits digits = true ->
  JS.stripMoveNumber (digits ++ String "." rest) = rest.
Proof.
  intros N H. unfold JS.stripMoveNumber, JS.matchMoveNumber.
  rewrite (afterDigits_numbered digits rest H).
  destruct digits as [|c d]; [contradiction|].
  cbn [Obj.allDigits] in H. apply andb_true_iff in H. destruct H as [D _].
  cbn [append]. rewrite D. reflexivity.
Qed.

Lemma stripMoveNumber_other s :
  (forall digits rest,
      digits <> "" -> Obj.allDigits digits = true ->
      s <> digits ++ String "." rest) ->
  JS.stripMoveNumber s = s.
Proof.
  intros H. unfold JS.stripMoveNumber, JS.matchMoveNumber.
  destruct s as [|c s']; [reflexivity|].
  destruct (JS.isDigit c) eqn:D; [|reflexivity].
  destruct (leadingDigits_afterDigits (String c s')) as [E A].
  destruct (JS.afterDigits (String c s')) as [|a r]; [reflexivity|].
  destruct (Ascii.eqb_spec a ".") as [->|Na].
  - exfalso. apply (H (leadingDigits (String c s')) r); try assumption.
    cbn [leadingDigits]. rewrite D. discriminate.
  - destruct a as [[] [] [] [] [] [] [] []]; try reflexivity.
    contradiction Na. reflexivity.
Qed.


(** The tokenizer of the earlier rules module removes the move numbers
    first and hands every token on unchanged. *)
Lemma Legacy_parseMoves_tokens moveString :
  Legacy.parseMoves moveString
  = filter JS.nonEmpty
      (splitOn JS.isSpace (JS.stripAllMoveNumbers moveString)).
Proof.
  unfold Legacy.parseMoves.
  destruct moveString as [|c s]; [reflexivity|]. cbn [JS.nonEmpty negb].
  rewrite filter_splitSpaces. unfold JS.trim.
  rewrite (filter_splitOn_view _ _ (pieceView_trimEnd _)),
    filter_splitOn_trimStart.
  reflexivity.
Qed.

(** * Further properties of the code *)

(** ** Objects: lookup after assignment and deletion *)

Lemma get_set {V} (o : Obj.t V) k v k' :
  Obj.get (Obj.set o k v) k'
  = if String.eqb k k' then Some v else Obj.get o k'.
Proof.
  induction o as [|[k0 v0] o IH]; simpl.
  - destruct (String.eqb k k'); reflexivity.
  - destruct (String.eqb_spec k0 k) as [->|N]; simpl.
    + destruct (String.eqb k k'); reflexivity.
    + rewrite IH. destruct (String.eqb_spec k0 k') as [->|N'];
        [|reflexivity].
      destruct (String.eqb_spec k k') as [->|_]; [contradiction|reflexivity].
Qed.

Lemma get_delete {V} (o : Obj.t V) k k' :
  Obj.get (Obj.delete o k) k'
  = if String.eqb k k' then None else Obj.get o k'.
Proof.
  unfold Obj.delete. induction o as [|[k0 v0] o IH]; simpl.
  - destruct (String.eqb k k'); reflexivity.
  - destruct (String.eqb_spec k0 k) as [->|N]; simpl.
    + rewrite IH. destruct (String.eqb k k'); reflexivity.
    + rewrite IH. destruct (String.eqb_spec k0 k') as [->|N'];
        [|reflexivity].
      destruct (String.eqb_spec k k') as [->|_]; [contradiction|reflexivity].
Qed.

Lemma get_None_keys {V} (o : Obj.t V) k :
  Obj.get o k = None <-> ~ In k (map fst o).
Proof.
  induction o as [|[k0 v0] o IH]; simpl.
  - tauto.
  - destruct (String.eqb_spec k0 k) as [->|N].
    + split; [discriminate|]. intros H. contradiction H. auto.
    + rewrite IH. split; [intros H [E|I]; auto|tauto].
Qed.

Lemma keys_delete {V} (o : Obj.t V) k x :
  In x (map fst (Obj.delete o k)) <-> In x (map fst o) /\ x <> k.
Proof.
  unfold Obj.delete. rewrite !in_map_iff. split.
  - intros ([k0 v0] & <- & H). apply filter_In in H. destruct H as [H N].
    simpl in *. split; [exists (k0, v0); auto|].
    destruct (String.eqb_spec k0 k); [discriminate|assumption].
  - intros (([k0 v0] & <- & H) & N). exists (k0, v0). split; [reflexivity|].
    apply filter_In. split; [assumption|]. simpl in *.
    destruct (String.eqb_spec k0 k); [contradiction|reflexivity].
Qed.

Lemma distinctKeys_delete {V} (o : Obj.t V) k :
  distinctKeys o -> distinctKeys (Obj.delete o k).
Proof.
  unfold distinctKeys, Obj.delete.
  induction o as [|[k0 v0] o IH]; simpl; intros H; [constructor|].
  inversion H as [|? ? Hn Hd]; subst.
  destruct (String.eqb k0 k); simpl; [auto|].
  constructor; [|auto].
  intros Hin. apply Hn. apply (keys_delete o k k0) in Hin. tauto.
Qed.

Lemma keys_set {V} (o : Obj.t V) k v x :
  In x (map fst (Obj.set o k v)) <-> In x (map fst o) \/ x = k.
Proof.
  induction o as [|[k0 v0] o IH]; simpl.
  - split; [intros [E|F]; [auto|destruct F]|intros [F|E]; [destruct F|auto]].
  - destruct (String.eqb_spec k0 k) as [->|N]; simpl.
    + split; [tauto|intros [[E|I]|E]; auto].
    + rewrite IH. tauto.
Qed.

Lemma distinctKeys_set {V} (o : Obj.t V) k v :
  distinctKeys o -> distinctKeys (Obj.set o k v).
Proof.
  unfold distinctKeys.
  induction o as [|[k0 v0] o IH]; simpl; intros H.
  - repeat constructor. intros [].
  - inversion H as [|? ? Hn Hd]; subst.
    destruct (String.eqb_spec k0 k) as [->|N]; simpl.
    + constructor; assumption.
    + constructor; [|auto].
      intros Hin. apply keys_set in Hin. destruct Hin as [Hin|E]; auto.
Qed.

Lemma length_set {V} (o : Obj.t V) k v :
  List.length (Obj.set o k v)
  = match Obj.get o k with
    | Some _ => List.length o
    | None => S (List.length o)
    end.
Proof.
  induction o as [|[k0 v0] o IH]; simpl; [reflexivity|].
  destruct (String.eqb k0 k); simpl; [reflexivity|].
  rewrite IH. destruct (Obj.get o k); reflexivity.
Qed.

Lemma length_delete {V} (o : Obj.t V) k :
  distinctKeys o ->
  List.length o
  = match Obj.get o k with
    | Some _ => S (List.length (Obj.delete o k))
    | None => List.length (Obj.delete o k)
    end.
Proof.
  unfold distinctKeys, Obj.delete.
  induction o as [|[k0 v0] o IH]; simpl; intros H; [reflexivity|].
  inversion H as [|? ? Hn Hd]; subst.
  destruct (String.eqb_spec k0 k) as [->|N]; simpl.
  - f_equal. apply get_None_keys in Hn. specialize (IH Hd).
    unfold Obj.t in *. rewrite Hn in IH. exact IH.
  - specialize (IH Hd). destruct (Obj.get o k); lia.
Qed.

(** ** The notation converter *)

(** X1. [convertPieceToFrench] followed by [convertPieceToStandard] gives
    the standard letter of every piece, and the French letter produced is
    one [isFrenchPiece] knows.  Converting a letter that is already standard
    keeps it, except for the rooks: their standard letters are the French
    letters of the kings. *)
Theorem convertPiece_round_trip :
  forall p,
    convertPieceToStandard (convertPieceToFrench p) = standardLetter p
    /\ isFrenchPiece (convertPieceToFrench p) = true
    /\ isStandardPiece (convertPieceToStandard (convertPieceToFrench p))
       = true
    /\ (convertPieceToStandard (standardLetter p) = standardLetter p
        <-> p <> WhiteRook /\ p <> BlackRook)
    /\ convertPieceToStandard (standardLetter WhiteRook)
       = standardLetter WhiteKing
    /\ convertPieceToStandard (standardLetter BlackRook)
       = standardLetter BlackKing.
Proof.
  intros p.
  repeat match goal with |- _ /\ _ => split end;
    try (destruct p; reflexivity).
  destruct p; cbn; (split; [intros H; try discriminate H;
                             split; discriminate
                           |intros [H1 H2]; try reflexivity;
                            congruence]).
Qed.

(** ** The resolver, beyond the specification *)

(** What the resolver classifies is the cleaned token. *)
Lemma findPieceForMove_classified fuel position move isWhiteTurn detail :
  move <> "O-O" -> move <> "O-O-O" ->
  findPieceForMove fuel position move isWhiteTurn = Some (Some detail) ->
  exists disambiguation,
    classify (cleanToken move) isWhiteTurn
    = (md_piece detail, disambiguation, md_to detail)
    /\ (JS.nonEmpty disambiguation = true ->
        JS.includes (md_from detail) disambiguation = true).
Proof.
  intros H1 H2. unfold findPieceForMove, cleanToken.
  destruct (String.eqb_spec move "O-O"); [contradiction|].
  destruct (String.eqb_spec move "O-O-O"); [contradiction|].
  destruct (classify _ _) as [[piece dis] target] eqn:Ec.
  destruct (Nat.eqb_spec (String.length target) 2) as [Hlen|]; simpl;
    [|discriminate].
  match goal with
  | |- context [findLegal fuel ?l target piece position] =>
      destruct (findLegal fuel l target piece position)
        as [[[|c r]|]|] eqn:E; try discriminate;
      apply findLegal_found in E; destruct E as [Hin Hlegal]
  end.
  intros H. injection H as <-. simpl. exists dis. split; [reflexivity|].
  intros Hd. rewrite Hd in Hin. apply filter_In in Hin. tauto.
Qed.

Lemma classify_king rest isWhiteTurn :
  fst (fst (classify (String "K" rest) isWhiteTurn))
  = if isWhiteTurn then WhiteKing else BlackKing.
Proof.
  unfold classify.
  change (charIn "KQRBN" "K") with true. cbv iota.
  change (Ascii.eqb "K" "K") with true. cbv iota.
  destruct (JS.includesChar rest "x").
  - destruct (splitCapture rest). reflexivity.
  - destruct (2 <? String.length rest)%nat; reflexivity.
Qed.

(** X2. In the sequencer a token is converted before it is resolved, and
    the resolver converts it again.  A token that starts with T (the French
    rook) reaches the resolver with an R, which the resolver reads as the
    French king; a token that starts with R is read as a king as well.
    Whatever the position, such a token is resolved, if at all, as a move
    of the king of the side to move. *)
Theorem rook_token_resolves_as_king :
  forall fuel position c rest isWhiteTurn detail,
    c = "T"%char \/ c = "R"%char ->
    findPieceForMove fuel position (standardize (String c rest)) isWhiteTurn
    = Some (Some detail) ->
    md_piece detail = if isWhiteTurn then WhiteKing else BlackKing.
Proof.
  intros fuel position c rest w detail Hc H.
  assert (standardize (String c rest) = String "R" rest
          \/ standardize (String c rest) = String "K" rest) as Hs.
  { destruct Hc as [->| ->]; [left|right]; reflexivity. }
  assert (cleanToken (standardize (String c rest))
          = String "K" (JS.removeChars (charIn "+#!?") rest)) as Hk.
  { destruct Hs as [-> | ->]; reflexivity. }
  apply findPieceForMove_classified in H.
  - destruct H as (dis & Hcl & _). rewrite Hk in Hcl.
    rewrite <- classify_king with (rest := JS.removeChars (charIn "+#!?") rest).
    rewrite Hcl. reflexivity.
  - destruct Hs as [-> | ->]; discriminate.
  - destruct Hs as [-> | ->]; discriminate.
Qed.

Lemma rook_token_resolves_as_king_witness :
  findPieceForMove 0 [("d1", WhiteRook); ("e1", WhiteKing)]
    (standardize "Td2") true
  = Some (Some {| md_from := "e1"; md_to := "d2"; md_piece := WhiteKing;
                  secondaryMove := None |})
  /\ md_piece {| md_from := "e1"; md_to := "d2"; md_piece := WhiteKing;
                 secondaryMove := None |}
     = WhiteKing.
Proof.
  split; [vm_compute; reflexivity|].
  apply (rook_token_resolves_as_king 0
           [("d1", WhiteRook); ("e1", WhiteKing)] "T" "d2" true
           {| md_from := "e1"; md_to := "d2"; md_piece := WhiteKing;
              secondaryMove := None |});
    [left; reflexivity | vm_compute; reflexivity].
Defined.

Lemma filter_nil_iff {A} (f : A -> bool) l :
  (forall x, In x l -> f x = false) -> filter f l = [].
Proof.
  induction l as [|a l IH]; simpl; intros H; [reflexivity|].
  rewrite (H a) by auto. apply IH. auto.
Qed.

(** X3. A side that has no piece on the board resolves nothing: every
    token other than the two castling tokens fails, whatever the fuel. *)
Theorem no_piece_no_move :
  forall fuel position move isWhiteTurn,
    move <> "O-O" -> move <> "O-O-O" ->
    (forall square piece,
        Obj.get position square = Some piece ->
        isWhitePiece piece = negb isWhiteTurn) ->
    findPieceForMove fuel position move isWhiteTurn = Some None.
Proof.
  intros fuel position move w H1 H2 Hside. unfold findPieceForMove.
  destruct (String.eqb_spec move "O-O"); [contradiction|].
  destruct (String.eqb_spec move "O-O-O"); [contradiction|].
  destruct (classify _ _) as [[piece dis] target] eqn:Ec.
  destruct (negb (String.length target =? 2)%nat); [reflexivity|].
  apply classify_color in Ec.
  rewrite (filter_nil_iff _ (Obj.keys position)).
  - destruct (JS.nonEmpty dis); reflexivity.
  - intros square _.
    destruct (Obj.get position square) as [q|] eqn:Eq; [|reflexivity].
    apply Hside in Eq.
    destruct (StandardPiece_eqb q piece) eqn:Ep; [|reflexivity].
    apply StandardPiece_eqb_eq in Ep. subst q.
    rewrite Ec in Eq. now destruct w.
Qed.

Lemma no_piece_no_move_witness :
  findPieceForMove 0 [("e8", BlackKing); ("d8", BlackQueen)] "Qd2" true
  = Some None.
Proof.
  apply (no_piece_no_move 0 [("e8", BlackKing); ("d8", BlackQueen)]
           "Qd2" true); [discriminate | discriminate |].
  intros square piece Hg. apply get_In in Hg.
  destruct Hg as [E|[E|[]]]; injection E as _ <-; reflexivity.
Defined.

Lemma removeChars_idem p s :
  JS.removeChars p (JS.removeChars p s) = JS.removeChars p s.
Proof.
  induction s as [|c s IH]; simpl; [reflexivity|].
  destruct (p c) eqn:E; simpl; [assumption|].
  rewrite E, IH. reflexivity.
Qed.

(** X4. The castling tokens are recognised before the glyphs [+ # ! ?] are
    removed: a token that is a castling token only once its glyphs are
    removed, such as [O-O+], is read as a pawn move to a square named
    [O-O] and fails on every position. *)
Theorem castling_with_glyph_fails :
  forall fuel position move isWhiteTurn,
    move <> "O-O" -> move <> "O-O-O" ->
    JS.removeChars (charIn "+#!?") move = "O-O"
    \/ JS.removeChars (charIn "+#!?") move = "O-O-O" ->
    findPieceForMove fuel position move isWhiteTurn = Some None.
Proof.
  intros fuel position move w H1 H2 Hc. unfold findPieceForMove.
  destruct (String.eqb_spec move "O-O"); [contradiction|].
  destruct (String.eqb_spec move "O-O-O"); [contradiction|].
  destruct Hc as [-> | ->]; reflexivity.
Qed.

Lemma castling_with_glyph_fails_witness :
  findPieceForMove 0 initialPosition "O-O+" true = Some None.
Proof.
  apply (castling_with_glyph_fails 0 initialPosition "O-O+" true);
    [discriminate | discriminate | left; reflexivity].
Defined.

(** X5. Apart from that, the glyphs are ignored: a token resolves as the
    token without its glyphs does. *)
Theorem glyphs_are_ignored :
  forall fuel position move isWhiteTurn,
    move <> "O-O" -> move <> "O-O-O" ->
    JS.removeChars (charIn "+#!?") move <> "O-O" ->
    JS.removeChars (charIn "+#!?") move <> "O-O-O" ->
    findPieceForMove fuel position move isWhiteTurn
    = findPieceForMove fuel position
        (JS.removeChars (charIn "+#!?") move) isWhiteTurn.
Proof.
  intros fuel position move w H1 H2 H3 H4. unfold findPieceForMove.
  destruct (String.eqb_spec move "O-O"); [contradiction|].
  destruct (String.eqb_spec move "O-O-O"); [contradiction|].
  destruct (String.eqb_spec (JS.removeChars (charIn "+#!?") move) "O-O");
    [contradiction|].
  destruct (String.eqb_spec (JS.removeChars (charIn "+#!?") move) "O-O-O");
    [contradiction|].
  rewrite removeChars_idem. reflexivity.
Qed.

Lemma glyphs_are_ignored_witness :
  findPieceForMove 0 initialPosition "Nf3+!" true
  = findPieceForMove 0 initialPosition
      (JS.removeChars (charIn "+#!?") "Nf3+!") true.
Proof.
  apply (glyphs_are_ignored 0 initialPosition "Nf3+!" true);
    discriminate.
Defined.

Lemma isLegalMove_target fuel from to piece position :
  isLegalMove fuel from to piece position = Some true ->
  match Obj.get position to with
  | Some t => isWhitePiece t = negb (isWhitePiece piece)
  | None => True
  end.
Proof.
  unfold isLegalMove.
  destruct (Obj.get position to) as [t|]; [|trivial].
  destruct (Bool.eqb (isWhitePiece piece) (isWhitePiece t)) eqn:E;
    [discriminate|].
  intros _. destruct (isWhitePiece piece), (isWhitePiece t);
    try reflexivity; discriminate.
Qed.

Lemma resolved_target_not_own
    fuel position move isWhiteTurn detail :
  move <> "O-O" -> move <> "O-O-O" ->
  findPieceForMove fuel position move isWhiteTurn = Some (Some detail) ->
  md_from detail <> md_to detail
  /\ match Obj.get position (md_to detail) with
     | Some captured => isWhitePiece captured = negb isWhiteTurn
     | None => True
     end.
Proof.
  intros H1 H2 H.
  destruct (findPieceForMove_found _ _ _ _ _ H1 H2 H)
    as (_ & _ & Hcol & Hget & Hlegal).
  apply isLegalMove_target in Hlegal. rewrite Hcol in Hlegal.
  split; [|assumption].
  intros E. rewrite <- E, Hget, Hcol in Hlegal. now destruct isWhiteTurn.
Qed.

(** X6. A resolved move never lands on a piece of the side that moves: its
    target is empty or holds a piece of the other colour, and it differs
    from the origin. *)
Theorem resolved_move_spares_own_pieces :
  forall fuel position move isWhiteTurn detail,
    move <> "O-O" -> move <> "O-O-O" ->
    findPieceForMove fuel position move isWhiteTurn = Some (Some detail) ->
    md_from detail <> md_to detail
    /\ match Obj.get position (md_to detail) with
       | Some captured => isWhitePiece captured = negb isWhiteTurn
       | None => True
       end.
Proof.
  intros fuel position move w detail H1 H2 H.
  now apply resolved_target_not_own with fuel move.
Qed.

Lemma resolved_move_spares_own_pieces_witness :
  "g1" <> "f3"
  /\ match Obj.get initialPosition "f3" with
     | Some captured => isWhitePiece captured = negb true
     | None => True
     end.
Proof.
  apply (resolved_move_spares_own_pieces 0 initialPosition "Nf3" true
           {| md_from := "g1"; md_to := "f3"; md_piece := WhiteKnight;
              secondaryMove := None |});
    [discriminate | discriminate | reflexivity].
Defined.

(** ** The effect of a move on the position *)

Lemma eqb_sym_string a b : String.eqb a b = String.eqb b a.
Proof.
  destruct (String.eqb_spec a b) as [->|N].
  - symmetry. apply String.eqb_refl.
  - symmetry. apply String.eqb_neq. congruence.
Qed.

(** X7. A resolved move that is not castling changes two squares and no
    other: the target holds the piece that moved, the origin is empty,
    every other square is as before.  So no pawn is promoted and no piece
    is taken elsewhere than on the target. *)
Theorem resolved_move_changes_two_squares :
  forall fuel position move isWhiteTurn detail square,
    move <> "O-O" -> move <> "O-O-O" ->
    findPieceForMove fuel position move isWhiteTurn = Some (Some detail) ->
    Obj.get position (md_from detail) = Some (md_piece detail)
    /\ Obj.get (applyMove position detail) square
       = if String.eqb square (md_to detail) then Some (md_piece detail)
         else if String.eqb square (md_from detail) then None
         else Obj.get position square.
Proof.
  intros fuel position move w detail square H1 H2 H.
  destruct (findPieceForMove_found _ _ _ _ _ H1 H2 H)
    as (Hsec & _ & _ & Hget & _).
  split; [assumption|].
  unfold applyMove, spread. rewrite Hsec, get_set, get_delete.
  rewrite (eqb_sym_string (md_to detail)), (eqb_sym_string (md_from detail)).
  reflexivity.
Qed.

Lemma resolved_move_changes_two_squares_witness :
  Obj.get initialPosition "g1" = Some WhiteKnight
  /\ Obj.get
       (applyMove initialPosition
          {| md_from := "g1"; md_to := "f3"; md_piece := WhiteKnight;
             secondaryMove := None |}) "g1"
     = if String.eqb "g1" "f3" then Some WhiteKnight
       else if String.eqb "g1" "g1" then None
       else Obj.get initialPosition "g1".
Proof.
  apply (resolved_move_changes_two_squares 0 initialPosition "Nf3" true
           {| md_from := "g1"; md_to := "f3"; md_piece := WhiteKnight;
              secondaryMove := None |} "g1");
    [discriminate | discriminate | reflexivity].
Defined.

(** X8. On an object whose keys are pairwise different, a resolved move
    that is not castling keeps the number of pieces when its target is
    empty and lowers it by one when the target is occupied; the keys stay
    pairwise different. *)
Theorem resolved_move_piece_count :
  forall fuel position move isWhiteTurn detail,
    distinctKeys position ->
    move <> "O-O" -> move <> "O-O-O" ->
    findPieceForMove fuel position move isWhiteTurn = Some (Some detail) ->
    distinctKeys (applyMove position detail)
    /\ List.length (applyMove position detail)
       = match Obj.get position (md_to detail) with
         | Some _ => (List.length position - 1)%nat
         | None => List.length position
         end.
Proof.
  intros fuel position move w detail Hd H1 H2 H.
  destruct (findPieceForMove_found _ _ _ _ _ H1 H2 H)
    as (Hsec & _ & _ & Hget & _).
  destruct (resolved_target_not_own _ _ _ _ _ H1 H2 H)
    as [Hne _].
  unfold applyMove, spread. rewrite Hsec. split.
  - apply distinctKeys_set, distinctKeys_delete, Hd.
  - rewrite length_set, get_delete.
    pose proof (length_delete position (md_from detail) Hd) as Hl.
    rewrite Hget in Hl.
    destruct (String.eqb_spec (md_from detail) (md_to detail));
      [contradiction|].
    destruct (Obj.get position (md_to detail)); lia.
Qed.

Lemma resolved_move_piece_count_witness :
  distinctKeys
    (applyMove [("d1", WhiteQueen); ("d8", BlackQueen); ("e1", WhiteKing)]
       {| md_from := "d1"; md_to := "d8"; md_piece := WhiteQueen;
          secondaryMove := None |})
  /\ List.length
       (applyMove [("d1", WhiteQueen); ("d8", BlackQueen); ("e1", WhiteKing)]
          {| md_from := "d1"; md_to := "d8"; md_piece := WhiteQueen;
             secondaryMove := None |})
     = match Obj.get
               [("d1", WhiteQueen); ("d8", BlackQueen); ("e1", WhiteKing)]
               "d8" with
       | Some _ => (3 - 1)%nat
       | None => 3%nat
       end.
Proof.
  apply (resolved_move_piece_count 8
           [("d1", WhiteQueen); ("d8", BlackQueen); ("e1", WhiteKing)]
           "Qxd8" true
           {| md_from := "d1"; md_to := "d8"; md_piece := WhiteQueen;
              secondaryMove := None |});
    [ repeat constructor; simpl; intuition discriminate
    | discriminate | discriminate | vm_compute; reflexivity ].
Defined.

(** X9. Castling is applied without looking at the position: after the
    castling token of either side, the king and the rook of the side to
    move stand on their castled squares, the king's square and the corner
    are empty, and every other square is as before, whether or not the
    king and the rook were on their squares. *)
Theorem castling_is_applied_unchecked :
  forall fuel position (isWhiteTurn : bool) square,
    let rank : string := if isWhiteTurn then "1" else "8" in
    let king := if isWhiteTurn then WhiteKing else BlackKing in
    let rook := if isWhiteTurn then WhiteRook else BlackRook in
    (exists detail,
        findPieceForMove fuel position "O-O" isWhiteTurn
        = Some (Some detail)
        /\ Obj.get (applyMove position detail) square
           = if String.eqb square ("g" ++ rank) then Some king
             else if String.eqb square ("f" ++ rank) then Some rook
             else if String.eqb square ("e" ++ rank) then None
             else if String.eqb square ("h" ++ rank) then None
             else Obj.get position square)
    /\ (exists detail,
           findPieceForMove fuel position "O-O-O" isWhiteTurn
           = Some (Some detail)
           /\ Obj.get (applyMove position detail) square
              = if String.eqb square ("c" ++ rank) then Some king
                else if String.eqb square ("d" ++ rank) then Some rook
                else if String.eqb square ("e" ++ rank) then None
                else if String.eqb square ("a" ++ rank) then None
                else Obj.get position square).
Proof.
  intros fuel position w square rank king rook.
  split; (eexists; split; [reflexivity|]);
    unfold applyMove, spread, castle; cbn [secondaryMove md_from md_to
      md_piece sm_from sm_to sm_piece];
    repeat (rewrite get_set || rewrite get_delete);
    subst rank king rook;
    rewrite !(eqb_sym_string square);
    destruct w; cbn [append];
    repeat match goal with
           | |- context [String.eqb ?a square] =>
               destruct (String.eqb_spec a square) as [<-|?]
           end; reflexivity.
Qed.

(** ** The sequencer: details and warnings *)

Lemma sequencerLoop_account fuel :
  forall moveList index st st',
    sequencerLoop fuel moveList index st = Some st' ->
    exists ds log,
      st_moveDetails st' = (st_moveDetails st ++ ds)%list
      /\ st_console st' = (st_console st ++ log)%list
      /\ (List.length ds + List.length log = List.length moveList)%nat
      /\ Forall (fun w =>
                   exists i m,
                     w = InvalidMove (index + i) m (standardize m)
                     /\ nth_error moveList i = Some m) log.
Proof.
  induction moveList as [|m ms IH]; intros index st st' H.
  - simpl in H. injection H as <-. exists [], [].
    rewrite !app_nil_r. repeat split; auto.
  - simpl in H.
    destruct (sequencerStep fuel st m index) as [st1|] eqn:Estep;
      [|discriminate].
    destruct (IH _ _ _ H) as (ds & log & Hd & Hl & Hn & Hw).
    unfold sequencerStep in Estep. fold (standardize m) in Estep.
    assert (Forall (fun w =>
                      exists i m0,
                        w = InvalidMove (index + i) m0 (standardize m0)
                        /\ nth_error (m :: ms) i = Some m0) log) as Hw'.
    { eapply Forall_impl; [|exact Hw]. intros w (i & m0 & -> & Hi).
      exists (S i), m0. split; [f_equal; lia|assumption]. }
    destruct (findPieceForMove fuel (st_currentPos st) (standardize m)
                (st_isWhiteTurn st)) as [[d|]|]; [| |discriminate];
      injection Estep as <-; simpl in Hd, Hl.
    + exists (d :: ds), log. rewrite Hd, Hl, <- app_assoc.
      repeat split; auto. simpl. lia.
    + exists ds, (InvalidMove index m (standardize m) :: log).
      rewrite Hd, Hl, <- app_assoc. repeat split; auto.
      * simpl. lia.
      * constructor; [|assumption].
        exists O, m. split; [f_equal; lia|reflexivity].
Qed.

(** X10. Every token is accounted for once: it either adds a detail or
    writes a warning that names its index, the token and its converted
    form.  The details and the warnings together are as many as the
    tokens; no other warning is written. *)
Theorem every_token_is_recorded_or_warned :
  forall fuel initialPos moveList r log,
    generatePositions fuel initialPos moveList = Some (r, log) ->
    (List.length (moveDetails r) + List.length log
     = List.length moveList)%nat
    /\ Forall (fun w =>
                 exists i m,
                   w = InvalidMove i m (standardize m)
                   /\ nth_error moveList i = Some m) log.
Proof.
  intros fuel initialPos moveList r log. unfold generatePositions.
  match goal with
  | |- context [sequencerLoop fuel moveList 0 ?s] =>
      destruct (sequencerLoop fuel moveList 0 s) as [st|] eqn:E;
      [|discriminate]
  end.
  destruct (sequencerLoop_spec _ _ _ _ _ E)
    as (ps & _ & _ & Hp & _ & _ & Hlen & _).
  destruct (sequencerLoop_account _ _ _ _ _ E)
    as (ds & lg & Hd & Hl & Hn & Hw).
  simpl in Hp, Hd, Hl, Hw.
  rewrite Hp, Hlen, Nat.eqb_refl. simpl.
  intros H. injection H as <- <-. simpl.
  rewrite Hd, Hl. split; assumption.
Qed.

Lemma every_token_is_recorded_or_warned_witness :
  (List.length
     [{| md_from := "e7"; md_to := "e5"; md_piece := BlackPawn;
         secondaryMove := None |}]
   + List.length [InvalidMove 0 "Qh5" "Qh5"; InvalidMove 2 "zz" "zz"]
   = List.length ["Qh5"; "e5"; "zz"])%nat
  /\ Forall (fun w =>
               exists i m,
                 w = InvalidMove i m (standardize m)
                 /\ nth_error ["Qh5"; "e5"; "zz"] i = Some m)
       [InvalidMove 0 "Qh5" "Qh5"; InvalidMove 2 "zz" "zz"].
Proof.
  apply (every_token_is_recorded_or_warned 8 initialPosition
           ["Qh5"; "e5"; "zz"]
           {| positions :=
                [initialPosition;
                 applyMove initialPosition
                   {| md_from := "e7"; md_to := "e5"; md_piece := BlackPawn;
                      secondaryMove := None |};
                 applyMove initialPosition
                   {| md_from := "e7"; md_to := "e5"; md_piece := BlackPawn;
                      secondaryMove := None |}];
              moveDetails :=
                [{| md_from := "e7"; md_to := "e5"; md_piece := BlackPawn;
                    secondaryMove := None |}];
              error := None |}).
  vm_compute. reflexivity.
Defined.

(** ** The record parser, beyond the specification *)

(** X11. [parsePosition] returns a position for the board sections made of
    eight ranks, each of digits and known letters that stand for eight
    files in all, and throws for every other string. *)
Theorem parsePosition_accepts_exactly :
  forall boardPart,
    ((exists position, parsePosition boardPart = inr position)
     <-> accepted boardPart = true)
    /\ ((exists message, parsePosition boardPart = inl message)
        <-> accepted boardPart = false).
Proof.
  intros boardPart. pose proof (parsePosition_accepted boardPart) as H.
  split; [assumption|].
  destruct (accepted boardPart); destruct (parsePosition boardPart) as [e|p].
  - destruct H as [_ H]. destruct (H eq_refl). discriminate.
  - split; [intros [m Hm]|]; discriminate.
  - split; eauto.
  - destruct H as [H _]. assert (false = true) by eauto. discriminate.
Qed.

(** X12. [parseFEN] declares a record valid exactly when it has at least
    four fields before its first move number and its first field is an
    accepted board section.  The colour, castling, en passant and clock
    fields are not examined; the error message is absent exactly for the
    valid records. *)
Theorem parseFEN_valid_iff :
  forall fenString,
    isValid (parseFEN fenString)
    = (4 <=? List.length (fenFields fenString))%nat
      && accepted (nthOr (fenFields fenString) 0 "")
    /\ (parseError (parseFEN fenString) = None
        <-> isValid (parseFEN fenString) = true).
Proof.
  intros s. unfold parseFEN, parseFEN_try. fold (fenFields s).
  destruct (Nat.ltb_spec (List.length (fenFields s)) 4) as [Hl|Hl].
  - assert ((4 <=? List.length (fenFields s))%nat = false) as ->
        by (apply Nat.leb_gt; assumption).
    cbn [isValid parseError andb].
    split; [reflexivity|]. split; discriminate.
  - assert ((4 <=? List.length (fenFields s))%nat = true) as ->
        by (apply Nat.leb_le; assumption).
    pose proof (parsePosition_accepted (nthOr (fenFields s) 0 "")) as H.
    destruct (parsePosition (nthOr (fenFields s) 0 "")) as [e|p];
      cbn [isValid parseError andb].
    + destruct (accepted _).
      * destruct H as [_ H]. destruct (H eq_refl). discriminate.
      * split; [reflexivity|]. split; discriminate.
    + destruct (accepted _).
      * split; [reflexivity|]. split; reflexivity.
      * destruct H as [H _]. assert (false = true) by eauto. discriminate.
Qed.

Lemma digitDot_tail c s : digitDot (String c s) = false -> digitDot s = false.
Proof.
  destruct s as [|d s']; [reflexivity|].
  cbn [digitDot]. intros H. apply orb_false_iff in H. tauto.
Qed.

Lemma afterDigits_no_dot s :
  digitDot s = false ->
  match s with String c _ => JS.isDigit c = true | EmptyString => False end ->
  forall r, JS.afterDigits s <> String "." r.
Proof.
  induction s as [|c s IH]; [contradiction|].
  intros Hd Hc r. cbn [JS.afterDigits]. rewrite Hc.
  destruct s as [|d s']; [discriminate|].
  pose proof (digitDot_tail _ _ Hd) as Hd2.
  assert (Ascii.eqb d "." = false) as Hd1.
  { cbn [digitDot] in Hd. apply orb_false_iff in Hd. destruct Hd as [Hd _].
    rewrite Hc in Hd. exact Hd. }
  destruct (JS.isDigit d) eqn:Ed.
  - apply IH; [exact Hd2 | reflexivity].
  - cbn [JS.afterDigits]. rewrite Ed. intros E.
    assert (d = "."%char) as -> by congruence. discriminate.
Qed.

Lemma matchMoveNumber_no_dot s :
  digitDot s = false -> JS.matchMoveNumber s = None.
Proof.
  intros Hd. unfold JS.matchMoveNumber.
  destruct s as [|c s']; [reflexivity|].
  destruct (JS.isDigit c) eqn:Ec; [|reflexivity].
  pose proof (afterDigits_no_dot (String c s') Hd Ec) as H.
  destruct (JS.afterDigits (String c s')) as [|a r]; [reflexivity|].
  destruct (Ascii.eqb_spec a ".") as [->|N].
  - contradiction (H r). reflexivity.
  - destruct a as [[] [] [] [] [] [] [] []]; try reflexivity.
    contradiction N. reflexivity.
Qed.

Lemma searchMoveNumber_no_dot s :
  digitDot s = false -> JS.searchMoveNumber s = None.
Proof.
  induction s as [|c s IH]; intros Hd.
  - reflexivity.
  - cbn [JS.searchMoveNumber]. rewrite (matchMoveNumber_no_dot _ Hd).
    rewrite IH by (eapply digitDot_tail; eassumption). reflexivity.
Qed.

(** X13. The move section of a record starts at its first move number, a
    run of digits followed by a dot.  A record in which no digit is
    followed by a dot has no move section: [parseFEN] returns no move,
    whatever follows the fields. *)
Theorem parseFEN_moves_need_a_number :
  forall fenString,
    digitDot fenString = false ->
    moves (structure (parseFEN fenString)) = [].
Proof.
  intros s Hd. unfold parseFEN, parseFEN_try.
  rewrite (searchMoveNumber_no_dot s Hd).
  destruct (_ <? 4)%nat; [reflexivity|].
  destruct (parsePosition _); reflexivity.
Qed.

Lemma parseFEN_moves_need_a_number_witness :
  moves
    (structure
       (parseFEN
          "rnbqkbnr/pppppppp/8/8/8/8/PPPPPPPP/RNBQKBNR w KQkq - 0 1 e4 e5"))
  = [].
Proof.
  apply (parseFEN_moves_need_a_number
           "rnbqkbnr/pppppppp/8/8/8/8/PPPPPPPP/RNBQKBNR w KQkq - 0 1 e4 e5").
  vm_compute. reflexivity.
Defined.

(** ** The tokenizers, beyond the specification *)

Lemma tokensOf_tokens s :
  Forall (fun w => JS.nonEmpty w = true /\ noSpace w = true) (tokensOf s).
Proof.
  unfold tokensOf. apply Forall_forall. intros w Hw.
  apply filter_In in Hw. destruct Hw as [Hw Hn]. split; [assumption|].
  apply in_map_iff in Hw. destruct Hw as (x & <- & Hx).
  apply filter_In in Hx. destruct Hx as [Hx _].
  apply stripMoveNumber_noSpace.
  pose proof (splitOn_noSpace s) as H.
  rewrite Forall_forall in H. auto.
Qed.

Lemma isSpace_convertPieceToStandard c :
  JS.isSpace (convertPieceToStandard c) = JS.isSpace c.
Proof.
  destruct c as [[] [] [] [] [] [] [] []]; reflexivity.
Qed.

Lemma charIn_french_or_not c :
  charIn "RDTFCrdtfc" c = false -> charIn "DTFCdtfc" c = false.
Proof.
  destruct c as [[] [] [] [] [] [] [] []]; intros H;
    try reflexivity; discriminate H.
Qed.

(** X14. The moves that [parseMoves] returns are as many as the tokens of
    the section; none is empty, none holds white space, and none starts
    with D, T, F, C, d, t, f or c.  In particular a pawn move to file c, d
    or f, whose first letter the converter takes for a French piece in
    lower case, is never returned as it was written. *)
Theorem parseMoves_tokens_are_converted :
  forall movePart,
    List.length (parseMoves movePart) = List.length (tokensOf movePart)
    /\ Forall (fun w =>
                 JS.nonEmpty w = true /\ noSpace w = true
                 /\ startsIn "DTFCdtfc" w = false)
         (parseMoves movePart).
Proof.
  intros s. rewrite parseMoves_tokens. split; [apply length_map|].
  apply Forall_map. eapply Forall_impl; [|apply tokensOf_tokens].
  intros w [Hn Hs].
  destruct (String.eqb w "O-O" || String.eqb w "O-O-O") eqn:E.
  - repeat split; try assumption.
    apply orb_true_iff in E.
    destruct E as [E|E]; apply String.eqb_eq in E; subst w; reflexivity.
  - destruct w as [|c r]; [discriminate|].
    unfold replaceLeadingFrench.
    destruct (charIn "RDTFCrdtfc" c) eqn:Ec.
    + repeat split.
      * cbn [noSpace] in *. rewrite isSpace_convertPieceToStandard.
        assumption.
      * apply convertPieceToStandard_not_french.
    + repeat split; try assumption.
      apply charIn_french_or_not. assumption.
Qed.

(** X15. The earlier tokenizer removes every move number, cuts at white
    space and drops the empty pieces; it converts no letter.  Its tokens
    are not empty and hold no white space. *)
Theorem Legacy_parseMoves_tokens_are_words :
  forall moveString,
    Legacy.parseMoves moveString
    = filter JS.nonEmpty
        (splitOn JS.isSpace (JS.stripAllMoveNumbers moveString))
    /\ Forall (fun w => JS.nonEmpty w = true /\ noSpace w = true)
         (Legacy.parseMoves moveString).
Proof.
  intros s. rewrite Legacy_parseMoves_tokens. split; [reflexivity|].
  apply Forall_forall. intros w Hw. apply filter_In in Hw.
  destruct Hw as [Hw Hn]. split; [assumption|].
  pose proof (splitOn_noSpace (JS.stripAllMoveNumbers s)) as H.
  rewrite Forall_forall in H. auto.
Qed.

Lemma hasFrenchLetter_first_piece c s :
  hasFrenchLetter s = false ->
  hasFrenchLetter (match JS.split c s with b :: _ => b | [] => "" end)
  = false.
Proof.
  induction s as [|a s IH]; [reflexivity|].
  cbn [hasFrenchLetter JS.split]. intros H.
  apply orb_false_iff in H. destruct H as [Ha Hs].
  destruct (Ascii.eqb a c); [reflexivity|].
  specialize (IH Hs). destruct (JS.split c s) as [|w ws].
  - cbn [hasFrenchLetter]. rewrite Ha. reflexivity.
  - cbn [hasFrenchLetter]. rewrite Ha, IH. reflexivity.
Qed.

Lemma Legacy_frenchToStandardFEN_cases fen :
  Legacy.frenchToStandardFEN fen
  = (if Legacy.isFrenchFEN fen
     then mapChars convertPieceToStandard fen else fen)
  /\ Legacy.isFrenchFEN (Legacy.frenchToStandardFEN fen) = false.
Proof.
  assert (Legacy.frenchToStandardFEN fen
          = if Legacy.isFrenchFEN fen
            then mapChars convertPieceToStandard fen else fen) as E.
  { destruct (Legacy.isFrenchFEN fen) eqn:Ef.
    - apply Legacy_frenchToStandardFEN_french. assumption.
    - unfold Legacy.frenchToStandardFEN. rewrite Ef. reflexivity. }
  split; [assumption|].
  rewrite E. destruct (Legacy.isFrenchFEN fen) eqn:Ef; [|assumption].
  unfold Legacy.isFrenchFEN. apply hasFrenchLetter_first_piece.
  apply hasFrenchLetter_standard.
Qed.

(** X16. [frenchToStandardFEN] leaves a record alone when its board part
    holds no French letter, and otherwise converts every character of the
    record, the fields and the moves after the board part included.  It
    changes nothing when applied a second time. *)
Theorem Legacy_frenchToStandardFEN_converts_the_record :
  forall fen,
    Legacy.frenchToStandardFEN fen
    = (if Legacy.isFrenchFEN fen
       then mapChars convertPieceToStandard fen else fen)
    /\ Legacy.isFrenchFEN (Legacy.frenchToStandardFEN fen) = false
    /\ Legacy.frenchToStandardFEN (Legacy.frenchToStandardFEN fen)
       = Legacy.frenchToStandardFEN fen.
Proof.
  intros fen.
  destruct (Legacy_frenchToStandardFEN_cases fen)
    as [E N].
  repeat split; try assumption.
  unfold Legacy.frenchToStandardFEN at 1. rewrite N. reflexivity.
Qed.

(** ** The keys of a decoded position *)

Lemma coordsToAlgebraic_board r f :
  0 <= r < 8 -> 0 <= f < 8 ->
  exists k,
    coordsToAlgebraic (Some r) (Some f) = Some k /\ isBoardSquare k = true.
Proof.
  intros Hr Hf.
  assert (r = 0 \/ r = 1 \/ r = 2 \/ r = 3 \/ r = 4 \/ r = 5 \/ r = 6
          \/ r = 7) as Er by lia.
  assert (f = 0 \/ f = 1 \/ f = 2 \/ f = 3 \/ f = 4 \/ f = 5 \/ f = 6
          \/ f = 7) as Ef by lia.
  clear Hr Hf.
  repeat (destruct Er as [->|Er]);
    try subst r;
    repeat (destruct Ef as [->|Ef]);
    try subst f;
    eexists; split; reflexivity.
Qed.

Lemma boardKeys_set position k v :
  boardKeys position -> isBoardSquare k = true ->
  boardKeys (Obj.set position k v).
Proof.
  unfold boardKeys. intros H Hk.
  induction position as [|[k0 v0] o IH]; simpl.
  - constructor; [assumption|constructor].
  - inversion H as [|? ? H0 H1]; subst.
    destruct (String.eqb k0 k); constructor; auto.
Qed.

Lemma parseChar_keys isFrench rankIndex c f position x position' :
  0 <= rankIndex < 8 -> 0 <= f ->
  boardKeys position -> distinctKeys position ->
  parseChar isFrench rankIndex c (Some f, position) = inr (x, position') ->
  boardKeys position' /\ distinctKeys position'
  /\ match x with Some f' => f <= f' | None => True end.
Proof.
  intros Hr Hf Hb Hd. unfold parseChar.
  destruct (JS.isNaN_Number_char c).
  - unfold JS.ge. destruct (Z.leb_spec 8 f) as [|Hlt]; [discriminate|].
    destruct (coordsToAlgebraic_board rankIndex f Hr (conj Hf Hlt))
      as (k & -> & Hk).
    destruct (if isFrench && isFrenchPiece c then frenchSwitch c
              else standardSwitch c) as [e|piece]; [discriminate|].
    intros H. assert (x = Some (f + 1)) as -> by (unfold JS.add in H; congruence).
    assert (position' = Obj.set position k piece) as -> by congruence.
    repeat split.
    + apply boardKeys_set; assumption.
    + apply distinctKeys_set; assumption.
    + lia.
  - unfold JS.parseInt_char.
    destruct (JS.isDigit c) eqn:D.
    + unfold JS.add, JS.gt.
      destruct (Z.ltb_spec 8 (f + JS.digitValue c)) as [Hgt|Hle];
        [discriminate|].
      intros H. assert (x = Some (f + JS.digitValue c)) as -> by congruence.
      assert (position' = position) as -> by congruence.
      pose proof (digitValue_range c D). repeat split; auto. lia.
    + unfold JS.add, JS.gt, JS.NaN. intros H.
      assert (x = None) as -> by congruence.
      assert (position' = position) as -> by congruence.
      repeat split; auto.
Qed.

Lemma parseChars_keys isFrench rankIndex rank :
  0 <= rankIndex < 8 ->
  forall f position f' position',
    0 <= f ->
    boardKeys position -> distinctKeys position ->
    parseChars isFrench rankIndex rank (Some f, position)
    = inr (Some f', position') ->
    boardKeys position' /\ distinctKeys position'.
Proof.
  intros Hr. induction rank as [|c r IH];
    intros f position f' position' Hf Hb Hd; cbn [parseChars].
  - intros H. assert (position' = position) as -> by congruence. auto.
  - destruct (parseChar isFrench rankIndex c (Some f, position))
      as [e|[x p1]] eqn:E; [discriminate|].
    destruct (parseChar_keys _ _ _ _ _ _ _ Hr Hf Hb Hd E) as (Hb1 & Hd1 & Hx).
    destruct x as [f1|].
    + apply IH; [lia|assumption|assumption].
    + intros H. apply parseChars_NaN in H. discriminate.
Qed.

Lemma parseRanks_keys isFrench ranks :
  forall rankIndex position position',
    0 <= rankIndex ->
    rankIndex + Z.of_nat (List.length ranks) <= 8 ->
    boardKeys position -> distinctKeys position ->
    parseRanks isFrench rankIndex ranks position = inr position' ->
    boardKeys position' /\ distinctKeys position'.
Proof.
  induction ranks as [|rank ranks IH];
    intros rankIndex position position' H0 H8 Hb Hd; cbn [parseRanks].
  - intros H. assert (position' = position) as -> by congruence. auto.
  - cbn [List.length] in H8. unfold parseRank.
    destruct (parseChars isFrench rankIndex rank (Some 0, position))
      as [e|[[f|] p1]] eqn:E; try discriminate.
    destruct (JS.sne (Some f) (Some 8)); [discriminate|].
    assert (boardKeys p1 /\ distinctKeys p1) as [Hb1 Hd1].
    { assert (0 <= rankIndex < 8) as Hr.
      { lia. }
      apply (parseChars_keys isFrench rankIndex rank Hr 0 position f p1);
        [lia|assumption|assumption|exact E]. }
    apply IH; try assumption; lia.
Qed.

Lemma parsePosition_wellKeyed boardPart position :
  parsePosition boardPart = inr position ->
  boardKeys position /\ distinctKeys position.
Proof.
  unfold parsePosition.
  destruct (Nat.eqb_spec (List.length (JS.split "/" boardPart)) 8) as [E|];
    cbn [negb]; [|discriminate].
  apply parseRanks_keys; try lia.
  - constructor.
  - constructor.
Qed.

Lemma boardKeys_squareKeys position :
  boardKeys position -> squareKeys position.
Proof.
  unfold boardKeys, squareKeys. apply Forall_impl.
  intros kv. apply isBoardSquare_squareLike.
Qed.

Lemma isBoardSquare_allSquares k :
  isBoardSquare k = true -> In k allSquares.
Proof.
  intros H. destruct k as [|f [|r [|]]]; try discriminate H.
  assert (existsb (String.eqb (String f (String r ""))) allSquares = true)
    as E.
  { revert H.
    assert (forall f,
               forallb
                 (fun n =>
                    implb
                      (isBoardSquare
                         (String f (String (ascii_of_nat n) "")))
                      (existsb
                         (String.eqb
                            (String f (String (ascii_of_nat n) "")))
                         allSquares))
                 (seq 0 256) = true) as Hall.
    { apply (all_ascii
               (fun f =>
                  forallb
                    (fun n =>
                       implb
                         (isBoardSquare
                            (String f (String (ascii_of_nat n) "")))
                         (existsb
                            (String.eqb
                               (String f (String (ascii_of_nat n) "")))
                            allSquares))
                    (seq 0 256))).
      vm_compute. reflexivity. }
    specialize (Hall f). rewrite forallb_forall in Hall.
    specialize (Hall (nat_of_ascii r)).
    rewrite ascii_nat_embedding in Hall.
    intros H. rewrite H in Hall. apply Hall.
    apply in_seq. pose proof (nat_ascii_bounded r). lia. }
  apply existsb_exists in E. destruct E as (x & Hin & E).
  apply String.eqb_eq in E. rewrite E. assumption.
Qed.

(** X17. The keys of a position that [parsePosition] returns are squares
    of the board, a1 to h8, and they are pairwise different; so the
    position holds at most 64 pieces. *)
Theorem parsePosition_keys_are_board_squares :
  forall boardPart position,
    parsePosition boardPart = inr position ->
    boardKeys position /\ distinctKeys position
    /\ (List.length position <= 64)%nat.
Proof.
  intros boardPart position H.
  destruct (parsePosition_wellKeyed _ _ H) as [Hb Hd].
  split; [assumption|]. split; [assumption|].
  rewrite <- (length_map fst position).
  change 64%nat with (List.length allSquares).
  apply NoDup_incl_length; [exact Hd|].
  intros k Hk. apply in_map_iff in Hk. destruct Hk as ([k0 v] & <- & Hin).
  apply isBoardSquare_allSquares.
  unfold boardKeys in Hb. rewrite Forall_forall in Hb.
  apply (Hb _ Hin).
Qed.

Lemma parsePosition_keys_are_board_squares_witness :
  boardKeys initialPosition /\ distinctKeys initialPosition
  /\ (List.length initialPosition <= 64)%nat.
Proof.
  apply (parsePosition_keys_are_board_squares initialBoard initialPosition).
  vm_compute. reflexivity.
Defined.

(** X18. A record that [parseFEN] declares valid can always be played:
    with fuel for 256 steps of the walk, [generatePositions] returns on the
    position and the moves of the record, with one position for each move
    and no error. *)
Theorem valid_record_is_played :
  forall fenString fuel,
    isValid (parseFEN fenString) = true ->
    (256 <= fuel)%nat ->
    exists r log,
      generatePositions fuel (position (structure (parseFEN fenString)))
        (moves (structure (parseFEN fenString))) = Some (r, log)
      /\ List.length (positions r)
         = List.length (moves (structure (parseFEN fenString)))
      /\ error r = None.
Proof.
  intros s fuel Hv Hfuel.
  assert (squareKeys (position (structure (parseFEN s)))) as W.
  { unfold parseFEN in *. unfold parseFEN_try in *.
    destruct (_ <? 4)%nat; [discriminate Hv|].
    destruct (parsePosition _) as [e|p] eqn:E; [discriminate Hv|].
    cbn [structure position]. apply boardKeys_squareKeys.
    apply (parsePosition_wellKeyed _ _ E). }
  destruct (generatePositions_total fuel _
              (moves (structure (parseFEN s))) W Hfuel) as (r & log & E).
  exists r, log. split; [assumption|].
  destruct (generatePositions_shape _ _ _ _ _ E) as (Hl & He & _).
  auto.
Qed.

Lemma valid_record_is_played_witness :
  exists r log,
    generatePositions 256
      (position
         (structure
            (parseFEN
               "rnbqkbnr/pppppppp/8/8/8/8/PPPPPPPP/RNBQKBNR w KQkq - 0 1 1.e4 e5")))
      (moves
         (structure
            (parseFEN
               "rnbqkbnr/pppppppp/8/8/8/8/PPPPPPPP/RNBQKBNR w KQkq - 0 1 1.e4 e5")))
    = Some (r, log)
    /\ List.length (positions r)
       = List.length
           (moves
              (structure
                 (parseFEN
                    "rnbqkbnr/pppppppp/8/8/8/8/PPPPPPPP/RNBQKBNR w KQkq - 0 1 1.e4 e5")))
    /\ error r = None.
Proof.
  apply (valid_record_is_played
           "rnbqkbnr/pppppppp/8/8/8/8/PPPPPPPP/RNBQKBNR w KQkq - 0 1 1.e4 e5"
           256);
    [vm_compute; reflexivity | apply le_n].
Defined.

(** ** The walk between two squares *)

Lemma existsb_map_comp {A B} (f : B -> bool) (g : A -> B) l :
  existsb f (map g l) = existsb (fun x => f (g x)) l.
Proof. induction l; simpl; congruence. Qed.

Lemma existsb_ext_all {A} (f g : A -> bool) l :
  (forall x, f x = g x) -> existsb f l = existsb g l.
Proof. intros H. induction l; simpl; congruence. Qed.

Lemma isBoardSquare_coords k :
  isBoardSquare k = true ->
  exists f r,
    fileOf k = Some f /\ rankOf k = Some r
    /\ 0 <= f <= 7 /\ 0 <= r <= 7.
Proof.
  intros Hk.
  destruct (squareAt_self _ (isBoardSquare_squareLike _ Hk))
    as (f & r & Ef & Er & _).
  exists f, r. split; [assumption|]. split; [assumption|].
  destruct k as [|a [|b [|]]]; try discriminate.
  rewrite fileOf_cons in Ef.
  unfold rankOf, JS.parseInt_char, JS.isDigit, JS.digitValue in Er.
  cbn [JS.at1] in Er. unfold isBoardSquare in Hk.
  destruct ((48 <=? JS.code b) && (JS.code b <=? 57)) eqn:Db; [|lia].
  unfold JS.sub in Er.
  assert (f = JS.code a - 97) by congruence.
  assert (r = 8 - (JS.code b - 48)) by congruence.
  lia.
Qed.

(** Along a line the walk examines the squares one after the other and
    answers whether one of them is occupied. *)
Lemma betweenLoop_scan position fileStep rankStep :
  fileStep <> 0 \/ rankStep <> 0 ->
  forall (n fuel : nat) currentFile currentRank,
    (n < fuel)%nat ->
    betweenLoop fuel position fileStep rankStep
      (Some (currentFile + Z.of_nat n * fileStep))
      (Some (currentRank + Z.of_nat n * rankStep))
      (Some currentFile) (Some currentRank)
    = Some (existsb
              (fun k =>
                 truthy
                   (pieceAt position
                      (squareAt (Some (currentFile + Z.of_nat k * fileStep))
                         (Some (currentRank + Z.of_nat k * rankStep)))))
              (seq 0 n)).
Proof.
  intros Hs. induction n as [|n IH]; intros fuel cf cr Hlt;
    (destruct fuel as [|fuel]; [lia|]); cbn [betweenLoop].
  - unfold JS.sne, JS.seq.
    replace (cf + Z.of_nat 0 * fileStep) with cf by lia.
    replace (cr + Z.of_nat 0 * rankStep) with cr by lia.
    rewrite !Z.eqb_refl. reflexivity.
  - assert (JS.sne (Some cf) (Some (cf + Z.of_nat (S n) * fileStep))
            || JS.sne (Some cr) (Some (cr + Z.of_nat (S n) * rankStep))
            = true) as ->.
    { unfold JS.sne, JS.seq. apply orb_true_iff.
      destruct Hs as [Hs|Hs]; [left|right]; apply negb_true_iff;
        apply Z.eqb_neq; nia. }
    cbn [seq existsb].
    replace (cf + Z.of_nat 0 * fileStep) with cf by lia.
    replace (cr + Z.of_nat 0 * rankStep) with cr by lia.
    destruct (truthy (pieceAt position (squareAt (Some cf) (Some cr))));
      [reflexivity|].
    cbn [orb JS.add].
    replace (cf + Z.of_nat (S n) * fileStep)
      with (cf + fileStep + Z.of_nat n * fileStep) by lia.
    replace (cr + Z.of_nat (S n) * rankStep)
      with (cr + rankStep + Z.of_nat n * rankStep) by lia.
    rewrite IH by lia. f_equal.
    rewrite <- seq_shift, existsb_map_comp.
    apply existsb_ext_all. intros k.
    replace (cf + fileStep + Z.of_nat k * fileStep)
      with (cf + Z.of_nat (S k) * fileStep) by lia.
    replace (cr + rankStep + Z.of_nat k * rankStep)
      with (cr + Z.of_nat (S k) * rankStep) by lia.
    reflexivity.
Qed.

Lemma isPieceBetween_scan fuel from to position ff fr tf tr :
  fileOf from = Some ff -> rankOf from = Some fr ->
  fileOf to = Some tf -> rankOf to = Some tr ->
  ff = tf \/ fr = tr \/ Z.abs (tf - ff) = Z.abs (tr - fr) ->
  Z.max (Z.abs (tf - ff)) (Z.abs (tr - fr)) <= Z.of_nat fuel ->
  (1 <= fuel)%nat ->
  isPieceBetween fuel from to position
  = Some (existsb (fun sq => truthy (pieceAt position sq))
            (squaresBetween from to)).
Proof.
  intros Hff Hfr Htf Htr Hal Bf B1.
  unfold isPieceBetween, squaresBetween. rewrite Hff, Hfr, Htf, Htr.
  cbv [JS.sub JS.sign JS.or0 JS.add option_map].
  rewrite existsb_map_comp.
  remember (Z.to_nat (Z.max (Z.abs (tf - ff)) (Z.abs (tr - fr)))) as n
    eqn:En.
  destruct (Nat.eq_dec n 0) as [E0|N0].
  - assert (tf = ff) as -> by lia. assert (tr = fr) as -> by lia.
    rewrite E0, !Z.sub_diag. change (Z.sgn 0) with 0. rewrite !Z.add_0_r.
    destruct fuel as [|fuel]; [lia|].
    cbn [betweenLoop]. unfold JS.sne, JS.seq.
    rewrite !Z.eqb_refl. reflexivity.
  - rewrite <- seq_shift, existsb_map_comp.
    remember (Z.sgn (tf - ff)) as sf eqn:Esf.
    remember (Z.sgn (tr - fr)) as sr eqn:Esr.
    assert (sf <> 0 \/ sr <> 0) as Hs.
    { destruct (Z.sgn_spec (tf - ff)) as [[? E]|[[? E]|[? E]]];
        destruct (Z.sgn_spec (tr - fr)) as [[? E']|[[? E']|[? E']]];
        lia. }
    assert (tf = ff + sf + Z.of_nat (n - 1) * sf) as Etf.
    { destruct (Z.sgn_spec (tf - ff)) as [[? E]|[[? E]|[? E]]];
        rewrite <- Esf in E; rewrite E; lia. }
    assert (tr = fr + sr + Z.of_nat (n - 1) * sr) as Etr.
    { destruct (Z.sgn_spec (tr - fr)) as [[? E]|[[? E]|[? E]]];
        rewrite <- Esr in E; rewrite E; lia. }
    pose proof (betweenLoop_scan position sf sr Hs (n - 1)%nat fuel
                  (ff + sf) (fr + sr) ltac:(lia)) as Hscan.
    rewrite <- Etf, <- Etr in Hscan. rewrite Hscan. f_equal.
    apply existsb_ext_all. intros k.
    replace (ff + sf + Z.of_nat k * sf)
      with (ff + Z.of_nat (S k) * sf) by lia.
    replace (fr + sr + Z.of_nat k * sr)
      with (fr + Z.of_nat (S k) * sr) by lia.
    reflexivity.
Qed.

(** X19. Between two squares of the board that share a file, a rank or a
    diagonal, [isPieceBetween] answers, with fuel for eight steps, whether
    one of the squares strictly between them is occupied. *)
Theorem isPieceBetween_scans_the_line :
  forall fuel from to position,
    isBoardSquare from = true ->
    isBoardSquare to = true ->
    walkGuard from to = true ->
    (8 <= fuel)%nat ->
    isPieceBetween fuel from to position
    = Some (existsb (fun sq => truthy (pieceAt position sq))
              (squaresBetween from to)).
Proof.
  intros fuel from to position Hf Ht G Hfuel.
  destruct (isBoardSquare_coords _ Hf) as (ff & fr & Eff & Efr & Rf & Rr).
  destruct (isBoardSquare_coords _ Ht) as (tf & tr & Etf & Etr & Rf' & Rr').
  apply (isPieceBetween_scan fuel from to position ff fr tf tr);
    auto; try lia.
  unfold walkGuard in G. rewrite Eff, Efr, Etf, Etr in G.
  unfold JS.seq, JS.abs, JS.sub, option_map in G. lia.
Qed.

Lemma isPieceBetween_scans_the_line_witness :
  isPieceBetween 8 "a1" "a4" [("a3", BlackPawn)]
  = Some (existsb (fun sq => truthy (pieceAt [("a3", BlackPawn)] sq))
            (squaresBetween "a1" "a4")).
Proof.
  apply (isPieceBetween_scans_the_line 8 "a1" "a4" [("a3", BlackPawn)]);
    [reflexivity | reflexivity | reflexivity | apply le_n].
Defined.

Lemma truthy_false {A} (x : option A) : truthy x = false -> x = None.
Proof. destruct x; [discriminate|reflexivity]. Qed.

(** When the walk answers that nothing is in between, it has reached the
    target, and every square it examined was empty. *)
Lemma betweenLoop_false position fileStep rankStep :
  forall fuel toFile toRank currentFile currentRank,
    betweenLoop fuel position fileStep rankStep toFile toRank
      currentFile currentRank = Some false ->
    exists cf cr (k : nat),
      currentFile = Some cf /\ currentRank = Some cr
      /\ toFile = Some (cf + Z.of_nat k * fileStep)
      /\ toRank = Some (cr + Z.of_nat k * rankStep)
      /\ forall j, (j < k)%nat ->
           pieceAt position
             (squareAt (Some (cf + Z.of_nat j * fileStep))
                (Some (cr + Z.of_nat j * rankStep))) = None.
Proof.
  induction fuel as [|fuel IH]; intros tF tR cF cR; cbn [betweenLoop];
    [discriminate|].
  destruct (JS.sne cF tF || JS.sne cR tR) eqn:Ec.
  - destruct (truthy (pieceAt position (squareAt cF cR))) eqn:Et;
      [discriminate|].
    intros H. destruct (IH _ _ _ _ H) as (cf & cr & k & E1 & E2 & E3 & E4 & Hj).
    destruct cF as [cf0|]; [|discriminate E1].
    destruct cR as [cr0|]; [|discriminate E2].
    cbn [JS.add] in E1, E2.
    assert (cf = cf0 + fileStep) as -> by congruence.
    assert (cr = cr0 + rankStep) as -> by congruence.
    exists cf0, cr0, (S k). repeat split.
    + rewrite E3. f_equal. lia.
    + rewrite E4. f_equal. lia.
    + intros [|j] Hlt.
      * replace (cf0 + Z.of_nat 0 * fileStep) with cf0 by lia.
        replace (cr0 + Z.of_nat 0 * rankStep) with cr0 by lia.
        apply truthy_false. assumption.
      * replace (cf0 + Z.of_nat (S j) * fileStep)
          with (cf0 + fileStep + Z.of_nat j * fileStep) by lia.
        replace (cr0 + Z.of_nat (S j) * rankStep)
          with (cr0 + rankStep + Z.of_nat j * rankStep) by lia.
        apply Hj. lia.
  - intros _. apply orb_false_iff in Ec. destruct Ec as [Ef Er].
    unfold JS.sne, JS.seq in Ef, Er.
    destruct cF as [cf|], tF as [tf|]; try discriminate Ef.
    destruct cR as [cr|], tR as [tr|]; try discriminate Er.
    apply negb_false_iff in Ef, Er. apply Z.eqb_eq in Ef, Er. subst tf tr.
    exists cf, cr, O.
    split; [reflexivity|]. split; [reflexivity|].
    split; [f_equal; lia|]. split; [f_equal; lia|].
    intros j Hj. lia.
Qed.

Lemma isPieceBetween_false fuel from to position :
  isPieceBetween fuel from to position = Some false ->
  Forall (fun sq => pieceAt position sq = None) (squaresBetween from to).
Proof.
  unfold isPieceBetween, squaresBetween. intros H.
  apply betweenLoop_false in H.
  destruct H as (cf & cr & k & E1 & E2 & E3 & E4 & Hj).
  destruct (fileOf from) as [ff|]; [|discriminate E1].
  destruct (rankOf from) as [fr|]; [|discriminate E2].
  destruct (fileOf to) as [tf|]; [|discriminate E3].
  destruct (rankOf to) as [tr|]; [|discriminate E4].
  cbv [JS.sub JS.sign JS.or0 JS.add option_map] in E1, E2, E3, E4, Hj.
  remember (Z.sgn (tf - ff)) as sf eqn:Esf.
  remember (Z.sgn (tr - fr)) as sr eqn:Esr.
  assert (cf = ff + sf) as -> by congruence.
  assert (cr = fr + sr) as -> by congruence.
  assert (tf = ff + sf + Z.of_nat k * sf) as Etf by congruence.
  assert (tr = fr + sr + Z.of_nat k * sr) as Etr by congruence.
  clear E1 E2 E3 E4.
  remember (Z.to_nat (Z.max (Z.abs (tf - ff)) (Z.abs (tr - fr)))) as n
    eqn:En.
  apply Forall_forall. intros sq Hin. apply in_map_iff in Hin.
  destruct Hin as (j & <- & Hin). apply in_seq in Hin.
  assert (n = S k) as Hn.
  { destruct (Z.sgn_spec (tf - ff)) as [[? E]|[[? E]|[? E]]];
      rewrite <- Esf in E;
      destruct (Z.sgn_spec (tr - fr)) as [[? E']|[[? E']|[? E']]];
      rewrite <- Esr in E'; rewrite E in *; rewrite E' in *; lia. }
  destruct j as [|j]; [lia|].
  replace (ff + Z.of_nat (S j) * sf)
    with (ff + sf + Z.of_nat j * sf) by lia.
  replace (fr + Z.of_nat (S j) * sr)
    with (fr + sr + Z.of_nat j * sr) by lia.
  apply Hj. lia.
Qed.

Lemma andNotBetween_true c fuel from to position :
  andNotBetween c fuel from to position = Some true ->
  c = true /\ isPieceBetween fuel from to position = Some false.
Proof.
  unfold andNotBetween. destruct c; [|discriminate].
  destruct (isPieceBetween fuel from to position) as [[|]|];
    try discriminate. auto.
Qed.

Lemma isLegalMove_slider fuel from to piece position :
  In (getPieceType piece) ["R"; "B"; "Q"] ->
  isLegalMove fuel from to piece position = Some true ->
  walkGuard from to = true
  /\ isPieceBetween fuel from to position = Some false.
Proof.
  intros Hty. unfold isLegalMove, walkGuard.
  destruct (match Obj.get position to with
            | Some t => Bool.eqb (isWhitePiece piece) (isWhitePiece t)
            | None => false
            end); [discriminate|].
  destruct Hty as [<-|[<-|[<-|[]]]];
    cbn [String.eqb Ascii.eqb Bool.eqb andb];
    intros H; apply andNotBetween_true in H; destruct H as [Hc H];
    (split; [|exact H]); rewrite ?Hc;
    try reflexivity; apply orb_true_r.
Qed.

(** X20. A rook, bishop or queen move that the resolver returns runs along
    a file, a rank or a diagonal, and every square strictly between its
    origin and its target is empty. *)
Theorem resolved_slider_path_is_clear :
  forall fuel position move isWhiteTurn detail,
    move <> "O-O" -> move <> "O-O-O" ->
    findPieceForMove fuel position move isWhiteTurn = Some (Some detail) ->
    In (getPieceType (md_piece detail)) ["R"; "B"; "Q"] ->
    walkGuard (md_from detail) (md_to detail) = true
    /\ Forall (fun sq => pieceAt position sq = None)
         (squaresBetween (md_from detail) (md_to detail)).
Proof.
  intros fuel position move w detail H1 H2 H Hty.
  destruct (findPieceForMove_found _ _ _ _ _ H1 H2 H)
    as (_ & _ & _ & _ & Hlegal).
  destruct (isLegalMove_slider _ _ _ _ _ Hty Hlegal) as [G Hb].
  split; [assumption|]. eapply isPieceBetween_false. eassumption.
Qed.

Lemma resolved_slider_path_is_clear_witness :
  walkGuard "d1" "h5" = true
  /\ Forall (fun sq =>
               pieceAt [("d1", WhiteQueen); ("e1", WhiteKing)] sq = None)
       (squaresBetween "d1" "h5").
Proof.
  apply (resolved_slider_path_is_clear 8
           [("d1", WhiteQueen); ("e1", WhiteKing)] "Qh5" true
           {| md_from := "d1"; md_to := "h5"; md_piece := WhiteQueen;
              secondaryMove := None |});
    [ discriminate | discriminate | vm_compute; reflexivity
    | right; right; left; reflexivity ].
Defined.

(** ** Decoding the board section of a logical position *)

Lemma coordsToAlgebraic_name r f :
  (r < 8)%nat -> (f < 8)%nat ->
  coordsToAlgebraic (Some (Z.of_nat r)) (Some (Z.of_nat f))
  = Some (squareName r f).
Proof.
  intros Hr Hf.
  do 8 (destruct r as [|r];
        [do 8 (destruct f as [|f]; [reflexivity|]); lia|]).
  lia.
Qed.

Lemma squareName_inj r f r' f' :
  (r < 8)%nat -> (f < 8)%nat -> (r' < 8)%nat -> (f' < 8)%nat ->
  squareName r f = squareName r' f' -> r = r' /\ f = f'.
Proof.
  intros Hr Hf Hr' Hf' E. unfold squareName in E.
  assert (ascii_of_nat (97 + f) = ascii_of_nat (97 + f')) as E1
      by congruence.
  assert (ascii_of_nat (56 - r) = ascii_of_nat (56 - r')) as E2
      by congruence.
  apply (f_equal nat_of_ascii) in E1, E2.
  rewrite !nat_ascii_embedding in E1, E2 by lia. lia.
Qed.

Lemma parseChar_piece_exact r p f position :
  (r < 8)%nat -> (f < 8)%nat ->
  parseChar false (Z.of_nat r) (standardLetter p)
    (Some (Z.of_nat f), position)
  = inr (Some (Z.of_nat (S f)), Obj.set position (squareName r f) p).
Proof.
  intros Hr Hf. unfold parseChar.
  assert (JS.isNaN_Number_char (standardLetter p) = true) as ->
    by (destruct p; reflexivity).
  unfold JS.ge. destruct (Z.leb_spec 8 (Z.of_nat f)); [lia|].
  cbn [andb].
  assert (standardSwitch (standardLetter p) = inr p) as ->
    by (destruct p; reflexivity).
  rewrite coordsToAlgebraic_name by assumption.
  unfold JS.add. rewrite Nat2Z.inj_succ. reflexivity.
Qed.

Lemma parseChars_writeRank_exact r squares :
  (r < 8)%nat ->
  forall run f position,
    (f + run + List.length squares = 8)%nat ->
    parseChars false (Z.of_nat r) (writeRank standardLetter run squares)
      (Some (Z.of_nat f), position)
    = inr (Some 8, placeSquares r (f + run) squares position).
Proof.
  intros Hr.
  induction squares as [|[p|] rest IH]; intros run f position H;
    cbn [writeRank List.length placeSquares] in *.
  - rewrite parseChars_emptyRun by lia.
    replace (Z.of_nat f + Z.of_nat run) with 8 by lia. reflexivity.
  - rewrite parseChars_app, parseChars_emptyRun by lia.
    cbn [parseChars].
    replace (Z.of_nat f + Z.of_nat run) with (Z.of_nat (f + run)) by lia.
    rewrite parseChar_piece_exact by lia.
    rewrite (IH 0%nat (S (f + run))) by lia.
    rewrite Nat.add_0_r. reflexivity.
  - rewrite (IH (S run) f) by lia.
    replace (f + S run)%nat with (S (f + run)) by lia. reflexivity.
Qed.

Lemma parseRanks_writeRank_exact rows :
  Forall (fun rank => List.length rank = 8%nat) rows ->
  forall r position,
    (r + List.length rows <= 8)%nat ->
    parseRanks false (Z.of_nat r) (map (writeRank standardLetter 0) rows)
      position
    = inr (placeRows r rows position).
Proof.
  induction 1 as [|rank rows Hlen _ IH]; intros r position Hr;
    cbn [map parseRanks placeRows List.length] in *; [reflexivity|].
  unfold parseRank.
  rewrite (parseChars_writeRank_exact r rank ltac:(lia) 0%nat 0%nat)
    by (rewrite Hlen; reflexivity).
  cbn [JS.sne JS.seq Z.eqb Pos.eqb negb Nat.add].
  replace (Z.of_nat r + 1) with (Z.of_nat (S r)) by lia.
  apply IH. lia.
Qed.

Lemma get_set_squareName (position : PositionMap) r f p r' f' :
  (r < 8)%nat -> (f < 8)%nat -> (r' < 8)%nat -> (f' < 8)%nat ->
  Obj.get (Obj.set position (squareName r f) p) (squareName r' f')
  = if (r' =? r)%nat && (f' =? f)%nat then Some p
    else Obj.get position (squareName r' f').
Proof.
  intros Hr Hf Hr' Hf'. rewrite get_set.
  destruct (String.eqb_spec (squareName r f) (squareName r' f')) as [E|N].
  - apply squareName_inj in E; try lia. destruct E as [-> ->].
    rewrite !Nat.eqb_refl. reflexivity.
  - destruct (Nat.eqb_spec r' r) as [->|]; [|reflexivity].
    destruct (Nat.eqb_spec f' f) as [->|]; [|reflexivity].
    contradiction N. reflexivity.
Qed.

Lemma get_placeSquares r r' f' squares :
  (r < 8)%nat -> (r' < 8)%nat -> (f' < 8)%nat ->
  forall f position,
    (f + List.length squares <= 8)%nat ->
    Obj.get (placeSquares r f squares position) (squareName r' f')
    = if (r' =? r)%nat && (f <=? f')%nat
         && (f' <? f + List.length squares)%nat
      then match nth (f' - f) squares None with
           | Some p => Some p
           | None => Obj.get position (squareName r' f')
           end
      else Obj.get position (squareName r' f').
Proof.
  intros Hr Hr' Hf'.
  induction squares as [|s rest IH]; intros f position Hlen;
    cbn [placeSquares List.length] in *.
  - destruct (r' =? r)%nat, (f <=? f')%nat eqn:E1,
      (f' <? f + 0)%nat eqn:E2; cbn [andb]; try reflexivity.
    apply Nat.leb_le in E1. apply Nat.ltb_lt in E2. lia.
  - destruct s as [p|]; rewrite IH by lia;
      rewrite ?get_set_squareName by lia;
      (destruct (Nat.eqb_spec r' r) as [->|Nr]; cbn [andb];
       [|reflexivity]);
      destruct (Nat.leb_spec (S f) f') as [L1|L1];
      destruct (Nat.leb_spec f f') as [L2|L2]; try lia; cbn [andb];
      destruct (Nat.ltb_spec f' (S f + List.length rest)) as [L3|L3];
      destruct (Nat.ltb_spec f' (f + S (List.length rest))) as [L4|L4];
      try lia;
      destruct (Nat.eqb_spec f' f) as [Ef|Nf]; try lia;
      try reflexivity;
      try (replace (f' - f)%nat with (S (f' - S f)) by lia;
           reflexivity);
      subst f'; rewrite Nat.sub_diag; reflexivity.
Qed.

Lemma get_placeRows r' f' rows :
  (r' < 8)%nat -> (f' < 8)%nat ->
  Forall (fun rank => List.length rank = 8%nat) rows ->
  forall r position,
    (r + List.length rows <= 8)%nat ->
    Obj.get (placeRows r rows position) (squareName r' f')
    = if (r <=? r')%nat && (r' <? r + List.length rows)%nat
      then match nth f' (nth (r' - r) rows []) None with
           | Some p => Some p
           | None => Obj.get position (squareName r' f')
           end
      else Obj.get position (squareName r' f').
Proof.
  intros Hr' Hf'.
  induction 1 as [|row rows Hlen _ IH]; intros r position Hr;
    cbn [placeRows List.length] in *.
  - destruct (Nat.leb_spec r r'), (Nat.ltb_spec r' (r + 0)); cbn [andb];
      try reflexivity. lia.
  - rewrite IH by lia.
    rewrite (get_placeSquares r r' f' row) by (rewrite ?Hlen; lia).
    rewrite Hlen.
    destruct (Nat.leb_spec (S r) r') as [L1|L1];
      destruct (Nat.leb_spec r r') as [L2|L2]; try lia; cbn [andb].
    + destruct (Nat.eqb_spec r' r); [lia|]. cbn [andb].
      destruct (Nat.ltb_spec r' (S r + List.length rows)) as [L3|L3];
        destruct (Nat.ltb_spec r' (r + S (List.length rows))) as [L4|L4];
        try lia; [|reflexivity].
      replace (r' - r)%nat with (S (r' - S r)) by lia. reflexivity.
    + assert (r' = r) as -> by lia. rewrite Nat.eqb_refl.
      destruct (Nat.ltb_spec r (r + S (List.length rows))); [|lia].
      destruct (Nat.leb_spec 0 f'); [|lia].
      destruct (Nat.ltb_spec f' (0 + 8)); [|lia]. cbn [andb].
      rewrite Nat.sub_diag, Nat.sub_0_r. cbn [nth]. reflexivity.
    + destruct (Nat.eqb_spec r' r); [lia|]. reflexivity.
Qed.

(** X21. Decoding inverts writing: the standard board section of a logical
    position decodes to a mapping that holds, on each of the 64 squares,
    what the logical position holds there. *)
Theorem parsePosition_reads_what_was_written :
  forall b r f,
    isBoard b = true ->
    (r < 8)%nat -> (f < 8)%nat ->
    exists position,
      parsePosition (boardSection standardLetter b) = inr position
      /\ Obj.get position (squareName r f) = nth f (nth r b []) None.
Proof.
  intros b r f H Hr Hf. destruct (isBoard_inv _ H) as [L F].
  assert (isFrenchFENNotation (boardSection standardLetter b) = false) as N.
  { rewrite <- (boardSection_standard b H).
    apply isFrenchFENNotation_standard. }
  exists (placeRows 0 b []). split.
  - unfold parsePosition. rewrite N.
    unfold boardSection. rewrite split_joinRanks.
    + rewrite length_map, L. cbn [Nat.eqb negb].
      apply (parseRanks_writeRank_exact b F 0%nat). lia.
    + destruct b; [discriminate|discriminate].
    + apply Forall_forall. intros x Hin. apply in_map_iff in Hin.
      destruct Hin as (rank & <- & Hin). rewrite Forall_forall in F.
      apply writeRank_noSlash. rewrite (F _ Hin). lia.
  - rewrite (get_placeRows r f b Hr Hf F 0%nat) by lia.
    rewrite L. cbn [Nat.leb andb Nat.add].
    destruct (Nat.ltb_spec r 8); [|lia].
    rewrite Nat.sub_0_r.
    destruct (nth f (nth r b []) None); reflexivity.
Qed.

Lemma parsePosition_reads_what_was_written_witness :
  exists position,
    parsePosition (boardSection standardLetter kingsOnly) = inr position
    /\ Obj.get position (squareName 7 4) = nth 4 (nth 7 kingsOnly []) None.
Proof.
  apply (parsePosition_reads_what_was_written kingsOnly 7 4);
    [reflexivity | lia | lia].
Defined.

(** ** The earlier parser against the record parser *)

Lemma asLegacy_set position k v :
  asLegacy (Obj.set position k v)
  = Obj.set (asLegacy position) k (pieceString v).
Proof.
  induction position as [|[k0 v0] o IH]; simpl; [reflexivity|].
  destruct (String.eqb k0 k); simpl; [reflexivity|].
  rewrite IH. reflexivity.
Qed.

Lemma standardSwitch_letter c p :
  standardSwitch c = inr p -> c = standardLetter p.
Proof.
  destruct c as [[] [] [] [] [] [] [] []]; simpl; intros H;
    try discriminate H; injection H as <-; reflexivity.
Qed.

(** In standard mode the two decoders read a character alike. *)
Lemma parseChar_asLegacy rankIndex c f position x position' :
  0 <= f ->
  parseChar false rankIndex c (Some f, position) = inr (x, position') ->
  LegacyRules.parseChar rankIndex c (Some f, Some (asLegacy position))
  = (x, Some (asLegacy position'))
  /\ match x with Some f' => f <= f' | None => True end.
Proof.
  intros Hf. unfold parseChar, LegacyRules.parseChar.
  destruct (JS.isNaN_Number_char c).
  - unfold JS.ge. destruct (Z.leb_spec 8 f) as [|Hlt]; [discriminate|].
    cbn [andb].
    destruct (standardSwitch c) as [e|piece] eqn:Es; [discriminate|].
    apply standardSwitch_letter in Es. subst c.
    change (LegacyRules.coordsToAlgebraic (Some rankIndex) (Some f))
      with (coordsToAlgebraic (Some rankIndex) (Some f)).
    assert (exists sq, coordsToAlgebraic (Some rankIndex) (Some f) = Some sq)
      as [sq ->].
    { unfold coordsToAlgebraic, JS.fromCharCode, JS.add.
      rewrite Z.mod_small by lia.
      destruct (Z.ltb_spec (97 + f) 256); [eauto|lia]. }
    intros H. assert (x = Some (f + 1)) as ->
        by (unfold JS.add in H; congruence).
    assert (position' = Obj.set position sq piece) as -> by congruence.
    rewrite asLegacy_set. split; [reflexivity|lia].
  - unfold JS.parseInt_char.
    destruct (JS.isDigit c) eqn:D.
    + unfold JS.add, JS.gt.
      destruct (Z.ltb_spec 8 (f + JS.digitValue c)) as [Hgt|Hle];
        [discriminate|].
      intros H. assert (x = Some (f + JS.digitValue c)) as -> by congruence.
      assert (position' = position) as -> by congruence.
      pose proof (digitValue_range c D). split; [reflexivity|lia].
    + unfold JS.add, JS.gt, JS.NaN. intros H.
      assert (x = None) as -> by congruence.
      assert (position' = position) as -> by congruence.
      split; [reflexivity|trivial].
Qed.

Lemma parseChars_asLegacy rankIndex rank :
  forall f position f' position',
    0 <= f ->
    parseChars false rankIndex rank (Some f, position)
    = inr (Some f', position') ->
    LegacyRules.parseChars rankIndex rank (Some f, Some (asLegacy position))
    = (Some f', Some (asLegacy position')).
Proof.
  induction rank as [|c r IH]; intros f position f' position' Hf;
    cbn [parseChars LegacyRules.parseChars].
  - intros H. assert (f' = f) as -> by congruence.
    assert (position' = position) as -> by congruence. reflexivity.
  - destruct (parseChar false rankIndex c (Some f, position))
      as [e|[x p1]] eqn:E; [discriminate|].
    destruct (parseChar_asLegacy _ _ _ _ _ _ Hf E) as [-> Hx].
    destruct x as [f1|].
    + apply IH. lia.
    + intros H. apply parseChars_NaN in H. discriminate.
Qed.

Lemma parseRanks_asLegacy ranks :
  forall rankIndex position position',
    parseRanks false rankIndex ranks position = inr position' ->
    LegacyRules.parseRanks rankIndex ranks (Some (asLegacy position))
    = Some (asLegacy position').
Proof.
  induction ranks as [|rank ranks IH]; intros rankIndex position position';
    cbn [parseRanks LegacyRules.parseRanks].
  - intros H. assert (position' = position) as -> by congruence.
    reflexivity.
  - unfold parseRank.
    destruct (parseChars false rankIndex rank (Some 0, position))
      as [e|[[f|] p1]] eqn:E; try discriminate.
    destruct (JS.sne (Some f) (Some 8)); [discriminate|].
    rewrite (parseChars_asLegacy _ _ _ _ _ _ (Z.le_refl 0) E).
    cbn [snd]. apply IH.
Qed.

Lemma parsePosition_asLegacy boardPart position :
  isFrenchFENNotation boardPart = false ->
  parsePosition boardPart = inr position ->
  LegacyRules.parseRanks 0 (JS.split "/" boardPart) (Some [])
  = Some (asLegacy position).
Proof.
  intros N. unfold parsePosition. rewrite N.
  destruct (negb _); [discriminate|].
  apply (parseRanks_asLegacy _ 0 []).
Qed.

(** What an accepted board section is made of. *)
Lemma charWidth_plain isFrench c w :
  charWidth isFrench c = Some w ->
  Ascii.eqb " " c = false
  /\ (isFrench = false -> charIn "DTFCdtfc" c = false).
Proof.
  destruct isFrench;
    destruct c as [[] [] [] [] [] [] [] []]; intros H;
    try discriminate H; split; try reflexivity; discriminate.
Qed.

Lemma rankWidth_plain isFrench rank :
  forall w,
    rankWidth isFrench rank = Some w ->
    JS.includesChar rank " " = false
    /\ (isFrench = false -> hasFrenchLetter rank = false).
Proof.
  induction rank as [|c r IH]; intros w; cbn [rankWidth hasFrenchLetter].
  - intros _. split; reflexivity.
  - destruct (charWidth isFrench c) as [a|] eqn:Ec; [|discriminate].
    destruct (rankWidth isFrench r) as [b|]; [|discriminate].
    intros _. destruct (charWidth_plain _ _ _ Ec) as [Hs Hf].
    destruct (IH b eq_refl) as [IHs IHf].
    rewrite includesChar_cons, Hs, IHs. split; [reflexivity|].
    intros E. rewrite (Hf E), (IHf E). reflexivity.
Qed.

Lemma includesChar_split s x :
  Ascii.eqb x "/" = false ->
  JS.includesChar s x = existsb (fun w => JS.includesChar w x) (JS.split "/" s).
Proof.
  intros Hx. induction s as [|a s IH]; [reflexivity|].
  rewrite includesChar_cons. cbn [JS.split].
  destruct (Ascii.eqb_spec a "/") as [->|Na].
  - rewrite Hx. exact IH.
  - destruct (JS.split "/" s) as [|w ws].
    + cbn [existsb] in *. rewrite IH, (includesChar_cons a "").
      change (JS.includesChar "" x) with false.
      rewrite !orb_false_r. reflexivity.
    + cbn [existsb] in *. rewrite IH, (includesChar_cons a w), orb_assoc.
      reflexivity.
Qed.

Lemma hasFrenchLetter_split s :
  hasFrenchLetter s = existsb hasFrenchLetter (JS.split "/" s).
Proof.
  induction s as [|a s IH]; [reflexivity|].
  cbn [hasFrenchLetter JS.split].
  destruct (Ascii.eqb_spec a "/") as [->|Na].
  - exact IH.
  - destruct (JS.split "/" s) as [|w ws].
    + cbn [existsb hasFrenchLetter] in *. rewrite IH.
      rewrite !orb_false_r. reflexivity.
    + cbn [existsb hasFrenchLetter] in *. rewrite IH, orb_assoc.
      reflexivity.
Qed.

Lemma accepted_plain boardPart :
  accepted boardPart = true ->
  JS.includesChar boardPart " " = false
  /\ (isFrenchFENNotation boardPart = false ->
      hasFrenchLetter boardPart = false).
Proof.
  unfold accepted. intros H. apply andb_true_iff in H. destruct H as [_ H].
  rewrite forallb_forall in H.
  rewrite (includesChar_split boardPart " ") by reflexivity.
  rewrite hasFrenchLetter_split.
  split; [|intros N; rewrite N in H];
    apply not_true_is_false; intros E; apply existsb_exists in E;
    destruct E as (rank & Hin & E); specialize (H rank Hin).
  - destruct (rankWidth _ rank) as [w|] eqn:Ew; [|discriminate].
    destruct (rankWidth_plain _ _ _ Ew) as [Hs _]. congruence.
  - destruct (rankWidth false rank) as [w|] eqn:Ew; [|discriminate].
    destruct (rankWidth_plain _ _ _ Ew) as [_ Hf].
    rewrite (Hf eq_refl) in E. discriminate.
Qed.

Lemma split_first_field b rest :
  JS.includesChar b " " = false ->
  match JS.split " " b with w :: _ => w | [] => "" end = b
  /\ match JS.split " " (b ++ String " " rest) with
     | w :: _ => w
     | [] => ""
     end = b.
Proof.
  induction b as [|c b IH]; intros H.
  - split; reflexivity.
  - rewrite includesChar_cons in H. apply orb_false_iff in H.
    destruct H as [N H]. destruct (IH H) as [IH1 IH2].
    rewrite Ascii.eqb_sym in N.
    cbn [JS.split append]. rewrite N. split.
    + destruct (JS.split " " b); congruence.
    + destruct (JS.split " " (b ++ String " " rest)); congruence.
Qed.

Lemma hasFrenchLetter_first_rank s :
  hasFrenchLetter s = false -> isFrenchFENNotation s = false.
Proof.
  intros H. unfold isFrenchFENNotation.
  pose proof (hasFrenchLetter_first_piece "/" s H) as H1.
  destruct (JS.split "/" s); exact H1.
Qed.

Lemma split_space_mapChars s :
  JS.split " " (mapChars convertPieceToStandard s)
  = map (mapChars convertPieceToStandard) (JS.split " " s).
Proof.
  induction s as [|c s IH]; simpl; [reflexivity|].
  assert (Ascii.eqb (convertPieceToStandard c) " " = Ascii.eqb c " ") as ->
      by (destruct c as [[] [] [] [] [] [] [] []]; reflexivity).
  rewrite IH.
  destruct (Ascii.eqb c " "); [reflexivity|].
  destruct (JS.split " " s); reflexivity.
Qed.

Lemma LegacyRules_parseFEN_field fen boardPart position :
  parsePosition boardPart = inr position ->
  match JS.split " " fen with w :: _ => w | [] => "" end = boardPart ->
  LegacyRules.parseFEN fen = Some (asLegacy position).
Proof.
  intros Hp Hfield.
  assert (accepted boardPart = true) as Ha
      by (apply parsePosition_accepted; eauto).
  destruct (accepted_plain _ Ha) as [Hs Hf].
  unfold LegacyRules.parseFEN.
  destruct (Legacy_frenchToStandardFEN_cases fen)
    as [-> _].
  unfold Legacy.isFrenchFEN. rewrite Hfield.
  destruct (hasFrenchLetter boardPart) eqn:L.
  - assert (match JS.split " " (mapChars convertPieceToStandard fen) with
            | w :: _ => w
            | [] => ""
            end = mapChars convertPieceToStandard boardPart) as ->.
    { rewrite split_space_mapChars, <- Hfield.
      destruct (JS.split " " fen); reflexivity. }
    destruct (isFrenchFENNotation boardPart) eqn:T.
    + rewrite (parsePosition_standard _ T) in Hp.
      apply parsePosition_asLegacy; [|assumption].
      apply isFrenchFENNotation_standard.
    + discriminate (Hf eq_refl).
  - rewrite Hfield. apply parsePosition_asLegacy; [|assumption].
    apply hasFrenchLetter_first_rank. assumption.
Qed.

(** X22. The earlier [parseFEN] agrees with [parsePosition] wherever the
    latter accepts: on a board section that [parsePosition] decodes,
    alone or followed by other fields, it returns the same squares in the
    same order, each piece written as its standard letter. *)
Theorem LegacyRules_parseFEN_agrees_with_parsePosition :
  forall boardPart rest position,
    parsePosition boardPart = inr position ->
    LegacyRules.parseFEN boardPart = Some (asLegacy position)
    /\ LegacyRules.parseFEN (boardPart ++ String " " rest)
       = Some (asLegacy position).
Proof.
  intros boardPart rest position Hp.
  assert (accepted boardPart = true) as Ha
      by (apply parsePosition_accepted; eauto).
  destruct (accepted_plain _ Ha) as [Hs _].
  destruct (split_first_field boardPart rest Hs) as [F1 F2].
  split; eapply LegacyRules_parseFEN_field; eassumption.
Qed.

Lemma LegacyRules_parseFEN_agrees_with_parsePosition_witness :
  LegacyRules.parseFEN initialBoardFrench = Some (asLegacy initialPosition)
  /\ LegacyRules.parseFEN (initialBoardFrench ++ String " " "w - - 0 1")
     = Some (asLegacy initialPosition).
Proof.
  apply (LegacyRules_parseFEN_agrees_with_parsePosition
           initialBoardFrench "w - - 0 1" initialPosition).
  vm_compute. reflexivity.
Defined.

(** ** The earlier resolver against the resolver *)

Lemma get_asLegacy position k :
  Obj.get (asLegacy position) k = option_map pieceString (Obj.get position k).
Proof.
  induction position as [|[k0 v0] o IH]; simpl; [reflexivity|].
  destruct (String.eqb k0 k); [reflexivity|assumption].
Qed.

Lemma keys_asLegacy position : Obj.keys (asLegacy position) = Obj.keys position.
Proof.
  unfold Obj.keys, asLegacy. rewrite !map_map. reflexivity.
Qed.

Lemma isUpperCase_pieceString p :
  LegacyRules.isUpperCase (pieceString p) = isWhitePiece p.
Proof. destruct p; reflexivity. Qed.

Lemma upperIs_pieceString p t :
  LegacyRules.upperIs (pieceString p) t = String.eqb (getPieceType p) t.
Proof. destruct p; reflexivity. Qed.

Lemma pieceString_eqb q p :
  String.eqb (pieceString q) (pieceString p) = StandardPiece_eqb q p.
Proof. destruct q, p; reflexivity. Qed.

Lemma truthy_asLegacy position sq :
  LegacyRules.truthy (LegacyRules.pieceAt (asLegacy position) sq)
  = truthy (pieceAt position sq).
Proof.
  destruct sq as [k|]; [|reflexivity].
  cbn [LegacyRules.pieceAt pieceAt]. rewrite get_asLegacy.
  destruct (Obj.get position k); reflexivity.
Qed.

Lemma betweenLoop_asLegacy position fileStep rankStep toFile toRank :
  forall fuel currentFile currentRank,
    LegacyRules.betweenLoop fuel (asLegacy position) fileStep rankStep
      toFile toRank currentFile currentRank
    = betweenLoop fuel position fileStep rankStep toFile toRank
        currentFile currentRank.
Proof.
  induction fuel as [|fuel IH]; intros cF cR;
    cbn [LegacyRules.betweenLoop betweenLoop]; [reflexivity|].
  rewrite truthy_asLegacy, IH. reflexivity.
Qed.

Lemma rankOf_asLegacy sq :
  (2 <= String.length sq)%nat -> LegacyRules.rankOf sq = rankOf sq.
Proof.
  destruct sq as [|a [|b r]]; cbn [String.length]; intros H; try lia.
  reflexivity.
Qed.

Lemma isPieceBetween_asLegacy fuel from to position :
  (2 <= String.length from)%nat -> (2 <= String.length to)%nat ->
  LegacyRules.isPieceBetween fuel from to (asLegacy position)
  = isPieceBetween fuel from to position.
Proof.
  intros Hf Ht. unfold LegacyRules.isPieceBetween, isPieceBetween.
  rewrite !rankOf_asLegacy by assumption.
  apply betweenLoop_asLegacy.
Qed.

Lemma andNotBetween_asLegacy c fuel from to position :
  (2 <= String.length from)%nat -> (2 <= String.length to)%nat ->
  LegacyRules.andNotBetween c fuel from to (asLegacy position)
  = andNotBetween c fuel from to position.
Proof.
  intros Hf Ht. unfold LegacyRules.andNotBetween, andNotBetween.
  rewrite isPieceBetween_asLegacy by assumption. reflexivity.
Qed.

(** The two forms of the pawn rule. *)
Lemma pawn_rule_forms (sameFile target advance1 start advance2 between
                       side : bool) :
  (if sameFile && negb target
   then if advance1 then Some true
        else if start && advance2 && negb between then Some true
             else Some (side && advance1 && target)
   else Some (side && advance1 && target))
  = (if sameFile && negb target && advance1 then Some true
     else if sameFile && negb target && start && advance2
          then Some (negb between)
          else Some (side && advance1 && target)).
Proof.
  destruct sameFile, target, advance1, start, advance2, between, side;
    reflexivity.
Qed.

Lemma isLegalMove_asLegacy fuel from to piece position :
  (2 <= String.length from)%nat -> (2 <= String.length to)%nat ->
  LegacyRules.isLegalMove fuel from to (pieceString piece)
    (asLegacy position)
  = isLegalMove fuel from to piece position.
Proof.
  intros Hf Ht. unfold LegacyRules.isLegalMove, isLegalMove.
  change (LegacyRules.fileOf from) with (fileOf from).
  change (LegacyRules.fileOf to) with (fileOf to).
  rewrite !rankOf_asLegacy by assumption.
  rewrite !upperIs_pieceString, !isUpperCase_pieceString, !get_asLegacy.
  rewrite !andNotBetween_asLegacy by assumption.
  rewrite truthy_asLegacy.
  assert (match option_map pieceString (Obj.get position to) with
          | Some t =>
              JS.nonEmpty t
              && Bool.eqb (isWhitePiece piece) (LegacyRules.isUpperCase t)
          | None => false
          end
          = match Obj.get position to with
            | Some t => Bool.eqb (isWhitePiece piece) (isWhitePiece t)
            | None => false
            end) as ->.
  { destruct (Obj.get position to) as [t|]; [|reflexivity].
    cbn [option_map]. rewrite isUpperCase_pieceString. reflexivity. }
  assert (LegacyRules.truthy
            (option_map pieceString (Obj.get position to))
          = truthy (Obj.get position to)) as ->
      by (destruct (Obj.get position to); reflexivity).
  destruct (match Obj.get position to with
            | Some t => Bool.eqb (isWhitePiece piece) (isWhitePiece t)
            | None => false
            end); [reflexivity|].
  destruct (String.eqb (getPieceType piece) "P"); [|reflexivity].
  apply pawn_rule_forms.
Qed.

Lemma findLegal_asLegacy fuel squares target piece position :
  Forall (fun sq => (2 <= String.length sq)%nat) squares ->
  (2 <= String.length target)%nat ->
  LegacyRules.findLegal fuel squares target (pieceString piece)
    (asLegacy position)
  = findLegal fuel squares target piece position.
Proof.
  intros Hs Ht. induction Hs as [|sq l Hsq _ IH];
    cbn [LegacyRules.findLegal findLegal]; [reflexivity|].
  rewrite isLegalMove_asLegacy, IH by assumption. reflexivity.
Qed.

Lemma charIn_KQRBN c :
  charIn "KQRBN" c = true ->
  c = "K"%char \/ c = "Q"%char \/ c = "R"%char \/ c = "B"%char
  \/ c = "N"%char.
Proof.
  destruct c as [[] [] [] [] [] [] [] []]; intros H; try discriminate H;
    first [ left; reflexivity
          | right; left; reflexivity
          | right; right; left; reflexivity
          | right; right; right; left; reflexivity
          | right; right; right; right; reflexivity ].
Qed.

(** The two resolvers split a cleaned token alike; the earlier one names
    the piece by its letter. *)
Lemma classify_asLegacy cleanMove isWhiteTurn :
  exists letter,
    LegacyRules.classify cleanMove
    = (letter, snd (fst (classify cleanMove isWhiteTurn)),
       snd (classify cleanMove isWhiteTurn))
    /\ (if negb isWhiteTurn then LegacyRules.toLowerCase letter else letter)
       = pieceString (fst (fst (classify cleanMove isWhiteTurn))).
Proof.
  unfold LegacyRules.classify, classify.
  destruct cleanMove as [|c rest].
  - eexists. split; [reflexivity|]. destruct isWhiteTurn; reflexivity.
  - destruct (charIn "KQRBN" c) eqn:Ec.
    + apply charIn_KQRBN in Ec.
      destruct (JS.includesChar rest "x");
        [destruct (splitCapture rest)
        |destruct (2 <? String.length rest)%nat];
        (eexists; split; [reflexivity|]);
        destruct Ec as [->|[->|[->|[->| ->]]]];
        destruct isWhiteTurn; reflexivity.
    + destruct (JS.includesChar (String c rest) "x");
        [destruct (splitCapture (String c rest))|];
        (eexists; split; [reflexivity|]);
        destruct isWhiteTurn; reflexivity.
Qed.

Lemma squareLike_length k : squareLike k = true -> String.length k = 2%nat.
Proof.
  intros H. apply squareLike_inv in H. destruct H as (c & d & -> & _).
  reflexivity.
Qed.

Lemma asLegacyMove_castle isWhiteTurn kingTo rookFrom rookTo :
  asLegacyMove (castle isWhiteTurn kingTo rookFrom rookTo)
  = LegacyRules.castle isWhiteTurn kingTo rookFrom rookTo.
Proof. destruct isWhiteTurn; reflexivity. Qed.

Lemma findPieceForMove_asLegacy fuel position move isWhiteTurn :
  squareKeys position ->
  isCastlingToken move = true \/ directToken move = true ->
  LegacyRules.findPieceForMove fuel (asLegacy position) move isWhiteTurn
  = option_map (option_map asLegacyMove)
      (findPieceForMove fuel position move isWhiteTurn).
Proof.
  intros W Hm. unfold LegacyRules.findPieceForMove, findPieceForMove.
  destruct (String.eqb move "O-O") eqn:E1.
  { cbn [orb option_map]. rewrite asLegacyMove_castle. reflexivity. }
  destruct (String.eqb move "O-O-O") eqn:E2.
  { cbn [orb option_map]. rewrite asLegacyMove_castle. reflexivity. }
  cbn [orb].
  destruct Hm as [Hm|Hm];
    [unfold isCastlingToken in Hm; rewrite E1, E2 in Hm; discriminate|].
  unfold directToken in Hm. apply andb_true_iff in Hm.
  destruct Hm as [Hfr Hlen]. apply negb_true_iff in Hfr.
  apply Nat.eqb_eq in Hlen. rewrite Hfr.
  destruct (classify_asLegacy (JS.removeChars (charIn "+#!?") move)
              isWhiteTurn) as (letter & EL & EP).
  rewrite EL in Hlen. rewrite EL. cbn [snd] in Hlen.
  destruct (classify (JS.removeChars (charIn "+#!?") move) isWhiteTurn)
    as [[piece dis] target].
  cbn [fst snd] in *. rewrite EP, Hlen. cbn [Nat.eqb negb].
  rewrite keys_asLegacy.
  assert (filter
            (fun square =>
               match Obj.get (asLegacy position) square with
               | Some pieceAtSquare =>
                   String.eqb pieceAtSquare (pieceString piece)
               | None => false
               end) (Obj.keys position)
          = filter
              (fun square =>
                 match Obj.get position square with
                 | Some pieceAtSquare => StandardPiece_eqb pieceAtSquare piece
                 | None => false
                 end) (Obj.keys position)) as ->.
  { apply filter_ext. intros sq. rewrite get_asLegacy.
    destruct (Obj.get position sq); [apply pieceString_eqb|reflexivity]. }
  match goal with
  | |- context [findLegal fuel ?l target piece position] =>
      assert (Forall (fun sq => (2 <= String.length sq)%nat) l) as Hl
  end.
  { apply Forall_forall. intros sq Hin.
    assert (In sq
              (filter
                 (fun square =>
                    match Obj.get position square with
                    | Some pieceAtSquare =>
                        StandardPiece_eqb pieceAtSquare piece
                    | None => false
                    end) (Obj.keys position))) as Hc.
    { destruct (JS.nonEmpty dis); [|assumption].
      apply filter_In in Hin. tauto. }
    apply filter_In in Hc. destruct Hc as [_ Hc].
    destruct (Obj.get position sq) as [q|] eqn:Eq; [|discriminate].
    rewrite (squareLike_length sq); [lia|].
    eapply squareKeys_get; eassumption. }
  rewrite findLegal_asLegacy by (assumption || lia).
  match goal with
  | |- context [findLegal fuel ?l target piece position] =>
      destruct (findLegal fuel l target piece position) as [[[|c r]|]|]
  end; reflexivity.
Qed.

(** X23. The earlier resolver and the resolver agree on the tokens that
    need no conversion.  On a position whose keys are squares, for a
    castling token or a token that, without its glyphs, starts with no
    French letter and names a square of two characters, the earlier
    [findPieceForMove] returns, on the position written with letters, what
    [findPieceForMove] returns, written with letters. *)
Theorem LegacyRules_findPieceForMove_agrees :
  forall fuel position move isWhiteTurn,
    squareKeys position ->
    isCastlingToken move = true \/ directToken move = true ->
    LegacyRules.findPieceForMove fuel (asLegacy position) move isWhiteTurn
    = option_map (option_map asLegacyMove)
        (findPieceForMove fuel position move isWhiteTurn).
Proof. exact findPieceForMove_asLegacy. Qed.

Lemma LegacyRules_findPieceForMove_agrees_witness :
  LegacyRules.findPieceForMove 8 (asLegacy initialPosition) "Nf3+" true
  = option_map (option_map asLegacyMove)
      (findPieceForMove 8 initialPosition "Nf3+" true).
Proof.
  apply (LegacyRules_findPieceForMove_agrees 8 initialPosition "Nf3+" true);
    [apply squareKeys_forallb; vm_compute; reflexivity
    | right; reflexivity].
Defined.

(** ** The earlier sequencer *)

Lemma asLegacy_delete position k :
  asLegacy (Obj.delete position k) = Obj.delete (asLegacy position) k.
Proof.
  unfold Obj.delete, asLegacy.
  induction position as [|[k0 v0] o IH]; simpl; [reflexivity|].
  destruct (String.eqb k0 k); simpl; congruence.
Qed.

Lemma applyMove_asLegacy position detail :
  LegacyRules.applyMove (asLegacy position) (asLegacyMove detail)
  = asLegacy (applyMove position detail).
Proof.
  unfold LegacyRules.applyMove, applyMove, spread, asLegacyMove.
  cbn [LegacyRules.mi_from LegacyRules.mi_to LegacyRules.mi_piece
       LegacyRules.mi_secondaryMove].
  destruct (secondaryMove detail) as [sm|]; cbn [option_map];
    cbn [LegacyRules.ls_from LegacyRules.ls_to LegacyRules.ls_piece];
    rewrite ?asLegacy_set, ?asLegacy_delete, ?asLegacy_set, ?asLegacy_delete;
    reflexivity.
Qed.

Lemma standardize_direct move :
  isCastlingToken move = true \/ directToken move = true ->
  standardize move = move.
Proof.
  unfold standardize, isCastlingToken, directToken. intros [H|H].
  - apply orb_true_iff in H.
    destruct H as [H|H]; apply String.eqb_eq in H; subst; reflexivity.
  - apply andb_true_iff in H. destruct H as [H _].
    apply negb_true_iff in H.
    destruct move as [|c r]; [reflexivity|].
    cbn [JS.removeChars] in H. cbn [isFrenchNotation].
    destruct (charIn "RDTFC" c) eqn:Ec; [|reflexivity].
    assert (charIn "+#!?" c = false) as G.
    { clear - Ec. destruct c as [[] [] [] [] [] [] [] []];
        try reflexivity; discriminate Ec. }
    rewrite G in H. cbn [isFrenchNotation] in H. congruence.
Qed.

Lemma sequencerLoop_asLegacy fuel :
  forall moveList index st lst,
    squareKeys (st_currentPos st) ->
    Forall (fun m => isCastlingToken m = true \/ directToken m = true)
      moveList ->
    LegacyRules.lst_currentPos lst = asLegacy (st_currentPos st) ->
    LegacyRules.lst_isWhiteTurn lst = st_isWhiteTurn st ->
    match sequencerLoop fuel moveList index st with
    | Some st' =>
        exists ds,
          st_moveDetails st' = (st_moveDetails st ++ ds)%list
          /\ LegacyRules.sequencerLoop fuel moveList lst
             = Some
                 {| LegacyRules.lst_positions :=
                      (LegacyRules.lst_positions lst
                       ++ map asLegacy (replay (st_currentPos st) ds))%list;
                    LegacyRules.lst_moveDetails :=
                      (LegacyRules.lst_moveDetails lst
                       ++ map asLegacyDetail ds)%list;
                    LegacyRules.lst_currentPos :=
                      asLegacy (st_currentPos st');
                    LegacyRules.lst_isWhiteTurn := st_isWhiteTurn st' |}
    | None => LegacyRules.sequencerLoop fuel moveList lst = None
    end.
Proof.
  induction moveList as [|m ms IH]; intros index st lst W Hms Hc Hw.
  - cbn [sequencerLoop LegacyRules.sequencerLoop].
    exists []. cbn [map replay]. rewrite !app_nil_r.
    split; [reflexivity|]. destruct lst. cbn in Hc, Hw. subst.
    reflexivity.
  - inversion Hms as [|? ? Hm Hms']; subst.
    cbn [sequencerLoop LegacyRules.sequencerLoop].
    unfold sequencerStep, LegacyRules.sequencerStep.
    fold (standardize m). rewrite (standardize_direct m Hm).
    rewrite Hc, Hw.
    rewrite (findPieceForMove_asLegacy fuel (st_currentPos st) m
               (st_isWhiteTurn st) W Hm).
    destruct (findPieceForMove fuel (st_currentPos st) m (st_isWhiteTurn st))
      as [[d|]|] eqn:Er; cbn [option_map]; [| |reflexivity].
    + rewrite applyMove_asLegacy.
      match goal with
      | |- match sequencerLoop fuel ms (S index) ?s1 with _ => _ end =>
          match goal with
          | |- context [LegacyRules.sequencerLoop fuel ms ?l1] =>
              specialize (IH (S index) s1 l1)
          end
      end.
      cbn [st_currentPos st_isWhiteTurn st_moveDetails
           LegacyRules.lst_currentPos LegacyRules.lst_isWhiteTurn
           LegacyRules.lst_positions LegacyRules.lst_moveDetails] in IH.
      specialize (IH (applyMove_squareKeys _ _ _ _ _ W Er) Hms'
                    eq_refl eq_refl).
      match goal with
      | |- match ?x with _ => _ end =>
          destruct x as [st'|]; [|exact IH]
      end.
      destruct IH as (ds & Hd & Hl). exists (d :: ds).
      rewrite Hd, Hl, <- !app_assoc. split; reflexivity.
    + match goal with
      | |- match sequencerLoop fuel ms (S index) ?s1 with _ => _ end =>
          match goal with
          | |- context [LegacyRules.sequencerLoop fuel ms ?l1] =>
              specialize (IH (S index) s1 l1)
          end
      end.
      cbn [st_currentPos st_isWhiteTurn st_moveDetails
           LegacyRules.lst_currentPos LegacyRules.lst_isWhiteTurn
           LegacyRules.lst_positions LegacyRules.lst_moveDetails] in IH.
      specialize (IH W Hms' eq_refl eq_refl).
      match goal with
      | |- match ?x with _ => _ end =>
          destruct x as [st'|]; [|exact IH]
      end.
      destruct IH as (ds & Hd & Hl). exists ds.
      rewrite Hd, Hl. split; reflexivity.
Qed.

(** X24. On a position whose keys are squares and a list of tokens that
    need no conversion, the earlier [generatePositions] returns exactly
    when [generatePositions] does; its details are the details of the
    latter written with letters, and its positions are the initial
    position followed by the position after each detail.  A token that
    fails adds no position there, where the later form repeats the current
    one. *)
Theorem LegacyRules_generatePositions_agrees :
  forall fuel initialPos moveList,
    squareKeys initialPos ->
    Forall (fun m => isCastlingToken m = true \/ directToken m = true)
      moveList ->
    LegacyRules.generatePositions fuel (asLegacy initialPos) moveList
    = option_map
        (fun rl =>
           {| LegacyRules.lr_positions :=
                map asLegacy
                  (initialPos :: replay initialPos (moveDetails (fst rl)));
              LegacyRules.lr_moveDetails :=
                map asLegacyDetail (moveDetails (fst rl)) |})
        (generatePositions fuel initialPos moveList).
Proof.
  intros fuel initialPos moveList W Hms.
  unfold LegacyRules.generatePositions, generatePositions.
  match goal with
  | |- context [sequencerLoop fuel moveList 0 ?s] =>
      match goal with
      | |- context [LegacyRules.sequencerLoop fuel moveList ?l] =>
          pose proof (sequencerLoop_asLegacy fuel moveList 0 s l W Hms
                        eq_refl eq_refl) as H;
          destruct (sequencerLoop fuel moveList 0 s) as [st|]
      end
  end.
  - destruct H as (ds & Hd & ->). cbn [option_map fst moveDetails].
    cbn [st_moveDetails app] in Hd. rewrite Hd. reflexivity.
  - rewrite H. reflexivity.
Qed.

Lemma LegacyRules_generatePositions_agrees_witness :
  LegacyRules.generatePositions 8 (asLegacy initialPosition)
    ["e4"; "Qh4"; "Nf3"]
  = option_map
      (fun rl =>
         {| LegacyRules.lr_positions :=
              map asLegacy
                (initialPosition
                 :: replay initialPosition (moveDetails (fst rl)));
            LegacyRules.lr_moveDetails :=
              map asLegacyDetail (moveDetails (fst rl)) |})
      (generatePositions 8 initialPosition ["e4"; "Qh4"; "Nf3"]).
Proof.
  apply (LegacyRules_generatePositions_agrees 8 initialPosition
           ["e4"; "Qh4"; "Nf3"]);
    [ apply squareKeys_forallb; vm_compute; reflexivity
    | repeat constructor; right; reflexivity ].
Defined.

Lemma LegacyRules_sequencerLoop_shape fuel :
  forall moveList st st',
    LegacyRules.sequencerLoop fuel moveList st = Some st' ->
    exists ps ds,
      LegacyRules.lst_positions st'
      = (LegacyRules.lst_positions st ++ ps)%list
      /\ LegacyRules.lst_moveDetails st'
         = (LegacyRules.lst_moveDetails st ++ ds)%list
      /\ List.length ps = List.length ds
      /\ (List.length ds <= List.length moveList)%nat.
Proof.
  induction moveList as [|m ms IH]; intros st st' H.
  - cbn in H. assert (st' = st) as -> by congruence.
    exists [], []. rewrite !app_nil_r. repeat split. cbn. lia.
  - cbn [LegacyRules.sequencerLoop] in H.
    destruct (LegacyRules.sequencerStep fuel st m) as [st1|] eqn:E;
      [|discriminate].
    destruct (IH _ _ H) as (ps & ds & Hp & Hd & Hl & Hle).
    unfold LegacyRules.sequencerStep in E.
    destruct (LegacyRules.findPieceForMove fuel
                (LegacyRules.lst_currentPos st) m
                (LegacyRules.lst_isWhiteTurn st)) as [[mi|]|];
      [| |discriminate];
      assert (Some st1 = _) as E' by (symmetry; exact E);
      injection E' as ->;
      cbn [LegacyRules.lst_positions LegacyRules.lst_moveDetails
           LegacyRules.lst_currentPos] in *.
    + exists (LegacyRules.applyMove (LegacyRules.lst_currentPos st) mi :: ps),
        (LegacyRules.detailOf mi :: ds).
      rewrite Hp, Hd, <- !app_assoc. repeat split.
      * cbn. lia.
      * cbn. lia.
    + exists ps, ds. repeat split; auto. cbn. lia.
Qed.

(** X25. Whenever the earlier [generatePositions] returns, its first
    position is the initial one and each detail adds one position: there
    is one position more than there are details, and at most as many
    details as tokens. *)
Theorem LegacyRules_one_position_per_detail :
  forall fuel initialPos moveList r,
    LegacyRules.generatePositions fuel initialPos moveList = Some r ->
    hd_error (LegacyRules.lr_positions r) = Some initialPos
    /\ List.length (LegacyRules.lr_positions r)
       = S (List.length (LegacyRules.lr_moveDetails r))
    /\ (List.length (LegacyRules.lr_moveDetails r)
        <= List.length moveList)%nat.
Proof.
  intros fuel initialPos moveList r. unfold LegacyRules.generatePositions.
  match goal with
  | |- context [LegacyRules.sequencerLoop fuel moveList ?s] =>
      destruct (LegacyRules.sequencerLoop fuel moveList s) as [st|] eqn:E;
      [|discriminate]
  end.
  destruct (LegacyRules_sequencerLoop_shape _ _ _ _ E)
    as (ps & ds & Hp & Hd & Hl & Hle).
  cbn [LegacyRules.lst_positions LegacyRules.lst_moveDetails app] in Hp, Hd.
  intros H. assert (r = _) as -> by (symmetry; injection H as H; exact H).
  cbn [LegacyRules.lr_positions LegacyRules.lr_moveDetails].
  rewrite Hp, Hd. cbn. repeat split; auto.
Qed.

Lemma LegacyRules_one_position_per_detail_witness :
  hd_error
    (LegacyRules.lr_positions
       {| LegacyRules.lr_positions :=
            [[("e2", "P")]; [("e4", "P")]];
          LegacyRules.lr_moveDetails :=
            [{| LegacyRules.ld_from := "e2"; LegacyRules.ld_to := "e4";
                LegacyRules.ld_piece := "P";
                LegacyRules.ld_secondaryFrom := None;
                LegacyRules.ld_secondaryTo := None;
                LegacyRules.ld_secondaryPiece := None |}] |})
  = Some [("e2", "P")]
  /\ List.length
       (LegacyRules.lr_positions
          {| LegacyRules.lr_positions :=
               [[("e2", "P")]; [("e4", "P")]];
             LegacyRules.lr_moveDetails :=
               [{| LegacyRules.ld_from := "e2"; LegacyRules.ld_to := "e4";
                   LegacyRules.ld_piece := "P";
                   LegacyRules.ld_secondaryFrom := None;
                   LegacyRules.ld_secondaryTo := None;
                   LegacyRules.ld_secondaryPiece := None |}] |})
     = S (List.length
            (LegacyRules.lr_moveDetails
               {| LegacyRules.lr_positions :=
                    [[("e2", "P")]; [("e4", "P")]];
                  LegacyRules.lr_moveDetails :=
                    [{| LegacyRules.ld_from := "e2";
                        LegacyRules.ld_to := "e4";
                        LegacyRules.ld_piece := "P";
                        LegacyRules.ld_secondaryFrom := None;
                        LegacyRules.ld_secondaryTo := None;
                        LegacyRules.ld_secondaryPiece := None |}] |}))
  /\ (List.length
        (LegacyRules.lr_moveDetails
           {| LegacyRules.lr_positions :=
                [[("e2", "P")]; [("e4", "P")]];
              LegacyRules.lr_moveDetails :=
                [{| LegacyRules.ld_from := "e2"; LegacyRules.ld_to := "e4";
                    LegacyRules.ld_piece := "P";
                    LegacyRules.ld_secondaryFrom := None;
                    LegacyRules.ld_secondaryTo := None;
                    LegacyRules.ld_secondaryPiece := None |}] |})
      <= List.length ["e4"; "zz"])%nat.
Proof.
  apply (LegacyRules_one_position_per_detail 8 [("e2", "P")] ["e4"; "zz"]).
  vm_compute. reflexivity.
Defined.

(** ** Converting a token twice *)

(** X26. The sequencer's conversion of a token is not idempotent on the
    rook: converting a converted token changes it exactly when the token
    starts with T, whose conversion starts with R, the French king. *)
Theorem standardize_twice :
  forall move,
    standardize (standardize move) = standardize move
    <-> startsIn "T" move = false.
Proof.
  intros [|c rest]; [split; reflexivity|].
  unfold standardize, convertMoveToStandard.
  cbn [isFrenchNotation startsIn].
  destruct (charIn "RDTFC" c) eqn:Ec.
  - assert (String.eqb (String c rest) "O-O" = false) as E1.
    { cbn [String.eqb].
      destruct c as [[] [] [] [] [] [] [] []];
        try discriminate Ec; reflexivity. }
    assert (String.eqb (String c rest) "O-O-O" = false) as E2.
    { cbn [String.eqb].
      destruct c as [[] [] [] [] [] [] [] []];
        try discriminate Ec; reflexivity. }
    rewrite E1, E2. cbn [orb replaceLeadingFrench].
    assert (charIn "RDTFCrdtfc" c = true) as ->
        by (destruct c as [[] [] [] [] [] [] [] []];
            try discriminate Ec; reflexivity).
    cbn [isFrenchNotation].
    destruct (charIn "RDTFC" (convertPieceToStandard c)) eqn:Ek.
    + assert (c = "T"%char) as ->
          by (destruct c as [[] [] [] [] [] [] [] []];
              try discriminate Ec; try discriminate Ek; reflexivity).
      split; [intros H; discriminate H|intros H; discriminate H].
    + split; [intros _|reflexivity].
      destruct c as [[] [] [] [] [] [] [] []];
        try discriminate Ec; try discriminate Ek; reflexivity.
  - cbn [isFrenchNotation]. rewrite Ec. split; [intros _|reflexivity].
    destruct c as [[] [] [] [] [] [] [] []];
      try discriminate Ec; reflexivity.
Qed.

(** ** The player *)

Lemma goToPosition_coherent st index :
  Player.coherent st -> Player.coherent (Player.goToPosition st index).
Proof.
  intros H. unfold Player.goToPosition.
  destruct ((0 <=? index)
            && (index <? Z.of_nat (List.length (Player.pl_positions st))));
    [|assumption].
  destruct (nthZ (Player.pl_positions st) index) as [p|] eqn:E;
    [|assumption].
  right. exact E.
Qed.

Lemma step_coherent fuel st a st' :
  Player.coherent st -> Player.step fuel st a = Some st' ->
  Player.coherent st'.
Proof.
  intros H. destruct a; cbn [Player.step]; intros E;
    try (assert (st' = _) as -> by (symmetry; injection E as E; exact E)).
  - apply goToPosition_coherent. assumption.
  - unfold Player.coherent, Player.resetToInitial.
    cbn [Player.pl_positions Player.pl_currentMoveIndex
         Player.pl_currentPosition].
    destruct (Player.pl_positions st) as [|p ps]; [left; reflexivity|].
    right. reflexivity.
  - unfold Player.stepForward.
    destruct (_ <? _); [apply goToPosition_coherent|]; assumption.
  - unfold Player.stepBack.
    destruct (_ <? _); [apply goToPosition_coherent|]; assumption.
  - exact H.
  - exact H.
  - unfold Player.sync in E.
    destruct (negb (JS.nonEmpty (Player.pl_fenInput st))
              || (String.length (JS.trim (Player.pl_fenInput st)) =? 0)%nat).
    { assert (st' = st) as -> by congruence. assumption. }
    destruct (negb (isValid (parseFEN (Player.pl_fenInput st)))).
    { assert (st' = st) as -> by congruence. assumption. }
    destruct (generatePositions fuel _ _) as [[r log]|]; [|discriminate].
    assert (st' = _) as -> by (symmetry; injection E as E; exact E).
    right. reflexivity.
Qed.

(** X27. The player shows the position stored at its current index: this
    holds at the first render, where no position is stored yet, and after
    every sequence of steps, resets, jumps, changes of the record and runs
    of the effect that follows the record. *)
Theorem player_shows_the_indexed_position :
  forall fuel actions st st',
    Player.coherent st ->
    Player.run fuel st actions = Some st' ->
    Player.coherent st'.
Proof.
  intros fuel actions. induction actions as [|a actions IH];
    intros st st' H; cbn [Player.run].
  - intros E. assert (st' = st) as -> by congruence. assumption.
  - destruct (Player.step fuel st a) as [st1|] eqn:E; [|discriminate].
    apply IH. eapply step_coherent; eassumption.
Qed.

Lemma player_shows_the_indexed_position_witness :
  Player.coherent
    (match
        Player.run 256 Player.initialState
          [Player.Sync; Player.Forward; Player.Forward; Player.Back;
           Player.SetFen "4k3/8/8/8/8/8/8/4K3 w - - 0 1 1.Ke2";
           Player.Sync; Player.Forward]
      with
      | Some st => st
      | None => Player.initialState
      end).
Proof.
  apply (player_shows_the_indexed_position 256
           [Player.Sync; Player.Forward; Player.Forward; Player.Back;
            Player.SetFen "4k3/8/8/8/8/8/8/4K3 w - - 0 1 1.Ke2";
            Player.Sync; Player.Forward]
           Player.initialState);
    [left; reflexivity | vm_compute; reflexivity].
Defined.

Lemma nth_error_flat_map_single {A} (F : nat -> list A) :
  forall n s,
    (forall j, (s <= j < s + n)%nat -> exists x, F j = [x]) ->
    forall i, (i < n)%nat ->
      nth_error (flat_map F (seq s n)) i = nth_error (F (s + i)%nat) 0.
Proof.
  induction n as [|n IH]; intros s H i Hi; [lia|].
  cbn [seq flat_map].
  assert (s <= s < s + S n)%nat as Hs by lia.
  destruct (H s Hs) as [x Ex]. rewrite Ex.
  destruct i as [|i].
  - rewrite Nat.add_0_r, Ex. reflexivity.
  - cbn [app nth_error]. rewrite IH.
    + replace (S s + i)%nat with (s + S i)%nat by lia. reflexivity.
    + intros j Hj. apply H. lia.
    + lia.
Qed.

(** When no warning is written every token has resolved: the details are
    those of the tokens, in order. *)
Lemma generatePositions_all_resolved fuel initialPos moveList r :
  generatePositions fuel initialPos moveList = Some (r, []) ->
  forall i move,
    nth_error moveList i = Some move ->
    exists d,
      nth_error (moveDetails r) i = Some d
      /\ nth_error (positions r) i
         = Some (applyMove (positionBefore initialPos (positions r) i) d)
      /\ findPieceForMove fuel (positionBefore initialPos (positions r) i)
           (standardize move) (Nat.even i) = Some (Some d).
Proof.
  intros H. destruct (generatePositions_shape _ _ _ _ _ H)
    as (Hlen & _ & _ & Hi & Hds).
  assert (forall j m,
             nth_error moveList j = Some m ->
             exists d,
               findPieceForMove fuel
                 (positionBefore initialPos (positions r) j)
                 (standardize m) (Nat.even j) = Some (Some d)
               /\ nth_error (positions r) j
                  = Some (applyMove
                            (positionBefore initialPos (positions r) j) d))
    as Hres.
  { intros j m Hm. destruct (Hi j m Hm) as ([d|] & Hr & Hp & Hw).
    - exists d. split; assumption.
    - destruct (Hw eq_refl). }
  intros i move Hm. destruct (Hres i move Hm) as (d & Hr & Hp).
  exists d. split; [|split; assumption].
  rewrite Hds.
  rewrite nth_error_flat_map_single.
  - cbn [Nat.add]. unfold recordedAt, resolutionAt.
    rewrite Hm, turnAt_true, Hr. reflexivity.
  - intros j Hj.
    destruct (nth_error moveList j) as [m|] eqn:Em.
    + destruct (Hres j m Em) as (dj & Hrj & _). exists dj.
      unfold recordedAt, resolutionAt. rewrite Em, turnAt_true, Hrj.
      reflexivity.
    + apply nth_error_None in Em. lia.
  - apply nth_error_Some. congruence.
Qed.

Lemma applyMove_frame position detail square :
  ~ In square
      ([md_from detail; md_to detail]
       ++ match secondaryMove detail with
          | Some sm => [sm_from sm; sm_to sm]
          | None => []
          end) ->
  Obj.get (applyMove position detail) square = Obj.get position square.
Proof.
  intros H. unfold applyMove, spread.
  destruct (secondaryMove detail) as [sm|];
    repeat (rewrite get_set || rewrite get_delete);
    repeat match goal with
           | |- context [String.eqb ?a square] =>
               destruct (String.eqb_spec a square) as [E|_];
               [exfalso; apply H; rewrite <- E; simpl; tauto|]
           end; reflexivity.
Qed.

(** X28. When the record is valid and each of its moves resolves, the
    squares that the player highlights at an index cover the change: a
    square that is not highlighted holds at that index what it held at
    the index before. *)
Theorem highlight_covers_the_change :
  forall fuel st r,
    JS.nonEmpty (Player.pl_fenInput st) = true ->
    (String.length (JS.trim (Player.pl_fenInput st)) =? 0)%nat = false ->
    isValid (parseFEN (Player.pl_fenInput st)) = true ->
    generatePositions fuel
      (position (structure (parseFEN (Player.pl_fenInput st))))
      (moves (structure (parseFEN (Player.pl_fenInput st)))) = Some (r, []) ->
    exists st',
      Player.sync fuel st = Some st'
      /\ Player.pl_currentMoveIndex st' = 0
      /\ forall i p q square,
           0 < i ->
           nthZ (Player.pl_positions st') i = Some p ->
           nthZ (Player.pl_positions st') (i - 1) = Some q ->
           ~ In square
               (Player.lastMoveSquares i (Player.pl_moveDetails st')) ->
           Obj.get p square = Obj.get q square.
Proof.
  intros fuel st r H1 H2 H3 H4.
  unfold Player.sync. rewrite H1, H2, H3, H4. cbn [negb orb].
  eexists. split; [reflexivity|]. split; [reflexivity|].
  cbn [Player.pl_positions Player.pl_moveDetails].
  intros i p q square Hi Hp Hq Hn.
  set (initialPos := position (structure (parseFEN (Player.pl_fenInput st))))
    in *.
  set (moveList := moves (structure (parseFEN (Player.pl_fenInput st))))
    in *.
  unfold nthZ in Hp, Hq.
  destruct (Z.ltb_spec i 0); [lia|].
  destruct (Z.ltb_spec (i - 1) 0); [lia|].
  remember (Z.to_nat (i - 1)) as k eqn:Ek.
  replace (Z.to_nat i) with (S k) in Hp by lia.
  cbn [nth_error] in Hp.
  destruct (generatePositions_shape _ _ _ _ _ H4) as (Hlen & _).
  assert (k < List.length moveList)%nat as Hk.
  { rewrite <- Hlen. apply nth_error_Some. congruence. }
  destruct (nth_error moveList k) as [move|] eqn:Em;
    [|apply nth_error_None in Em; lia].
  destruct (generatePositions_all_resolved _ _ _ _ H4 k move Em)
    as (d & Hd & Hpos & _).
  assert (q = positionBefore initialPos (positions r) k) as ->.
  { destruct k as [|k]; cbn [nth_error positionBefore] in *.
    - congruence.
    - symmetry. apply nth_error_nth. assumption. }
  assert (p = applyMove (positionBefore initialPos (positions r) k) d)
    as -> by congruence.
  apply applyMove_frame.
  unfold Player.lastMoveSquares in Hn.
  destruct (Z.eqb_spec i 0); [lia|].
  unfold nthZ in Hn. destruct (Z.ltb_spec (i - 1) 0); [lia|].
  rewrite <- Ek, Hd in Hn. exact Hn.
Qed.

Lemma highlight_covers_the_change_witness :
  exists st',
    Player.sync 256 Player.initialState = Some st'
    /\ Player.pl_currentMoveIndex st' = 0
    /\ forall i p q square,
         0 < i ->
         nthZ (Player.pl_positions st') i = Some p ->
         nthZ (Player.pl_positions st') (i - 1) = Some q ->
         ~ In square
             (Player.lastMoveSquares i (Player.pl_moveDetails st')) ->
         Obj.get p square = Obj.get q square.
Proof.
  apply (highlight_covers_the_change 256 Player.initialState
           (fst
              (match
                  generatePositions 256
                    (position
                       (structure
                          (parseFEN
                             (Player.pl_fenInput Player.initialState))))
                    (moves
                       (structure
                          (parseFEN
                             (Player.pl_fenInput Player.initialState))))
                with
                | Some x => x
                | None =>
                    ({| positions := []; moveDetails := [];
                        error := None |}, [])
                end)));
    vm_compute; reflexivity.
Defined.

(** ** The earlier player *)

(** A move of the earlier resolver carries a rook move with two named
    squares, or none. *)
Lemma LegacyRules_findPieceForMove_secondary fuel position move w info :
  LegacyRules.findPieceForMove fuel position move w = Some (Some info) ->
  match LegacyRules.mi_secondaryMove info with
  | Some sm =>
      JS.nonEmpty (LegacyRules.ls_from sm) = true
      /\ JS.nonEmpty (LegacyRules.ls_to sm) = true
  | None => True
  end.
Proof.
  unfold LegacyRules.findPieceForMove.
  destruct (String.eqb move "O-O" || String.eqb move "O-O-O").
  - destruct (String.eqb move "O-O"); intros H;
      assert (info = _) as -> by (symmetry; injection H as H; exact H);
      split; reflexivity.
  - destruct (LegacyRules.classify _) as [[piece dis] target].
    match goal with
    | |- context [LegacyRules.findLegal fuel ?l ?t ?p position] =>
        destruct (LegacyRules.findLegal fuel l t p position)
          as [[[|c r]|]|]; try discriminate
    end.
    intros H.
    assert (info = _) as -> by (symmetry; injection H as H; exact H).
    exact I.
Qed.

Lemma LegacyRules_sequencerLoop_replay fuel :
  forall moveList st st',
    LegacyRules.sequencerLoop fuel moveList st = Some st' ->
    exists infos,
      LegacyRules.lst_positions st'
      = (LegacyRules.lst_positions st
         ++ replayLegacy (LegacyRules.lst_currentPos st) infos)%list
      /\ LegacyRules.lst_moveDetails st'
         = (LegacyRules.lst_moveDetails st
            ++ map LegacyRules.detailOf infos)%list
      /\ Forall (fun info =>
                   match LegacyRules.mi_secondaryMove info with
                   | Some sm =>
                       JS.nonEmpty (LegacyRules.ls_from sm) = true
                       /\ JS.nonEmpty (LegacyRules.ls_to sm) = true
                   | None => True
                   end) infos.
Proof.
  induction moveList as [|m ms IH]; intros st st' H.
  - cbn in H. assert (st' = st) as -> by congruence.
    exists []. cbn [replayLegacy map]. rewrite !app_nil_r. auto.
  - cbn [LegacyRules.sequencerLoop] in H.
    destruct (LegacyRules.sequencerStep fuel st m) as [st1|] eqn:E;
      [|discriminate].
    destruct (IH _ _ H) as (infos & Hp & Hd & Hw).
    unfold LegacyRules.sequencerStep in E.
    destruct (LegacyRules.findPieceForMove fuel
                (LegacyRules.lst_currentPos st) m
                (LegacyRules.lst_isWhiteTurn st)) as [[mi|]|] eqn:Ef;
      [| |discriminate];
      assert (Some st1 = _) as E' by (symmetry; exact E);
      injection E' as ->;
      cbn [LegacyRules.lst_positions LegacyRules.lst_moveDetails
           LegacyRules.lst_currentPos] in *.
    + exists (mi :: infos). cbn [replayLegacy map].
      rewrite Hp, Hd, <- !app_assoc. repeat split.
      constructor; [|assumption].
      eapply LegacyRules_findPieceForMove_secondary. eassumption.
    + exists infos. auto.
Qed.

Lemma replayLegacy_step infos :
  forall initialPos k info,
    nth_error infos k = Some info ->
    exists q,
      nth_error (initialPos :: replayLegacy initialPos infos) k = Some q
      /\ nth_error (initialPos :: replayLegacy initialPos infos) (S k)
         = Some (LegacyRules.applyMove q info).
Proof.
  induction infos as [|a infos IH]; intros initialPos k info H.
  - destruct k; discriminate.
  - destruct k as [|k]; cbn [nth_error] in H.
    + assert (a = info) as -> by congruence.
      exists initialPos. split; reflexivity.
    + cbn [replayLegacy].
      destruct (IH (LegacyRules.applyMove initialPos a) k info H)
        as (q & H1 & H2).
      exists q. split; assumption.
Qed.

Lemma LegacyRules_applyMove_frame position info square :
  ~ In square
      ([LegacyRules.mi_from info; LegacyRules.mi_to info]
       ++ match LegacyRules.mi_secondaryMove info with
          | Some sm => [LegacyRules.ls_from sm; LegacyRules.ls_to sm]
          | None => []
          end) ->
  Obj.get (LegacyRules.applyMove position info) square
  = Obj.get position square.
Proof.
  intros H. unfold LegacyRules.applyMove.
  destruct (LegacyRules.mi_secondaryMove info) as [sm|];
    repeat (rewrite get_set || rewrite get_delete);
    repeat match goal with
           | |- context [String.eqb ?a square] =>
               destruct (String.eqb_spec a square) as [E|_];
               [exfalso; apply H; rewrite <- E; simpl; tauto|]
           end; reflexivity.
Qed.

(** X29. In the earlier player the highlight always covers the change.
    Whatever record is loaded, the positions stored are the positions
    generated, one more than the details, and at every index a square
    that is not highlighted holds what it held at the index before,
    whether or not some token failed. *)
Theorem LegacyPlayer_highlight_covers_the_change :
  forall fuel fenInput moveList ps ds,
    LegacyPlayer.load fuel fenInput = Some (Some (moveList, ps, ds)) ->
    List.length ps = S (List.length ds)
    /\ forall i p q square,
         0 < i ->
         nthZ ps i = Some p ->
         nthZ ps (i - 1) = Some q ->
         ~ In square (LegacyPlayer.lastMoveSquares i ds) ->
         Obj.get p square = Obj.get q square.
Proof.
  intros fuel fenInput moveList ps ds. unfold LegacyPlayer.load.
  destruct (JS.nonEmpty fenInput
            && (0 <? String.length (JS.trim fenInput))%nat);
    [|discriminate].
  destruct (LegacyRules.parseFEN _) as [initialPos|]; [|discriminate].
  unfold LegacyRules.generatePositions.
  match goal with
  | |- context [LegacyRules.sequencerLoop fuel ?l ?s] =>
      destruct (LegacyRules.sequencerLoop fuel l s) as [st|] eqn:E;
      [|discriminate]
  end.
  destruct (LegacyRules_sequencerLoop_replay _ _ _ _ E)
    as (infos & Hp & Hd & Hw).
  cbn [LegacyRules.lst_positions LegacyRules.lst_moveDetails
       LegacyRules.lst_currentPos app] in Hp, Hd.
  cbn [LegacyRules.lr_positions LegacyRules.lr_moveDetails].
  rewrite Hp, Hd. cbn [tl]. intros H.
  assert (ps = initialPos :: replayLegacy initialPos infos) as ->
      by congruence.
  assert (ds = map LegacyRules.detailOf infos) as -> by congruence.
  clear H. split.
  - cbn [List.length]. f_equal. rewrite length_map.
    clear. generalize initialPos.
    induction infos as [|a infos IH]; intros p0; cbn; [reflexivity|].
    f_equal. apply IH.
  - intros i p q square Hi Hpi Hqi Hn.
    unfold nthZ in Hpi, Hqi.
    destruct (Z.ltb_spec i 0); [lia|].
    destruct (Z.ltb_spec (i - 1) 0); [lia|].
    remember (Z.to_nat (i - 1)) as k eqn:Ek.
    replace (Z.to_nat i) with (S k) in Hpi by lia.
    unfold LegacyPlayer.lastMoveSquares in Hn.
    destruct (Z.eqb_spec i 0); [lia|].
    unfold nthZ in Hn. destruct (Z.ltb_spec (i - 1) 0); [lia|].
    rewrite <- Ek, nth_error_map in Hn.
    destruct (nth_error infos k) as [info|] eqn:Ei.
    + destruct (replayLegacy_step infos initialPos k info Ei)
        as (q' & Hq' & Hp').
      assert (q' = q) as -> by congruence.
      assert (p = LegacyRules.applyMove q info) as -> by congruence.
      apply LegacyRules_applyMove_frame.
      cbn [option_map] in Hn. unfold LegacyRules.detailOf in Hn.
      cbn [LegacyRules.ld_from LegacyRules.ld_to
           LegacyRules.ld_secondaryFrom LegacyRules.ld_secondaryTo] in Hn.
      rewrite Forall_forall in Hw.
      specialize (Hw info (nth_error_In _ _ Ei)).
      destruct (LegacyRules.mi_secondaryMove info) as [sm|];
        cbn [option_map] in Hn; [|exact Hn].
      destruct Hw as [W1 W2]. rewrite W1, W2 in Hn. exact Hn.
    + exfalso. apply nth_error_None in Ei.
      assert (nth_error (initialPos :: replayLegacy initialPos infos) (S k)
              <> None) as Hs by congruence.
      apply nth_error_Some in Hs. cbn [List.length] in Hs.
      assert (List.length (replayLegacy initialPos infos)
              = List.length infos) as Hl.
      { clear. generalize initialPos.
        induction infos as [|a infos IH]; intros p0; cbn; [reflexivity|].
        f_equal. apply IH. }
      lia.
Qed.

Lemma LegacyPlayer_highlight_covers_the_change_witness :
  List.length
    [[("e1", "K"); ("h1", "R")]; [("g1", "K"); ("f1", "R")]]
  = S (List.length
         [{| LegacyRules.ld_from := "e1"; LegacyRules.ld_to := "g1";
             LegacyRules.ld_piece := "K";
             LegacyRules.ld_secondaryFrom := Some "h1";
             LegacyRules.ld_secondaryTo := Some "f1";
             LegacyRules.ld_secondaryPiece := Some "R" |}])
  /\ forall i p q square,
       0 < i ->
       nthZ [[("e1", "K"); ("h1", "R")]; [("g1", "K"); ("f1", "R")]] i
       = Some p ->
       nthZ [[("e1", "K"); ("h1", "R")]; [("g1", "K"); ("f1", "R")]] (i - 1)
       = Some q ->
       ~ In square
           (LegacyPlayer.lastMoveSquares i
              [{| LegacyRules.ld_from := "e1"; LegacyRules.ld_to := "g1";
                  LegacyRules.ld_piece := "K";
                  LegacyRules.ld_secondaryFrom := Some "h1";
                  LegacyRules.ld_secondaryTo := Some "f1";
                  LegacyRules.ld_secondaryPiece := Some "R" |}]) ->
       Obj.get p square = Obj.get q square.
Proof.
  apply (LegacyPlayer_highlight_covers_the_change 8
           "8/8/8/8/8/8/8/4K2R w K - 0 1 1.O-O zz" ["O-O"; "zz"]).
  vm_compute. reflexivity.
Defined.

Lemma split_pieces c s :
  Forall (fun w => JS.includesChar w c = false) (JS.split c s).
Proof.
  induction s as [|a s IH]; cbn [JS.split].
  - repeat constructor.
  - destruct (Ascii.eqb_spec a c) as [->|N].
    + constructor; [reflexivity|assumption].
    + destruct (JS.split c s) as [|w ws].
      * repeat constructor. rewrite includesChar_cons.
        apply Ascii.eqb_neq in N. rewrite Ascii.eqb_sym, N. reflexivity.
      * inversion IH as [|? ? Hw Hws]; subst.
        constructor; [|assumption].
        rewrite includesChar_cons, Hw.
        apply Ascii.eqb_neq in N. rewrite Ascii.eqb_sym, N. reflexivity.
Qed.

Lemma split_piece c r :
  JS.includesChar r c = false -> JS.split c r = [r].
Proof.
  induction r as [|a r IH]; intros H; [reflexivity|].
  rewrite includesChar_cons in H. apply orb_false_iff in H.
  destruct H as [N H]. cbn [JS.split].
  rewrite Ascii.eqb_sym in N. rewrite N, (IH H). reflexivity.
Qed.

Lemma split_piece_app c r t :
  JS.includesChar r c = false ->
  JS.split c (r ++ String c t) = r :: JS.split c t.
Proof.
  induction r as [|a r IH]; intros H.
  - cbn [append JS.split]. rewrite Ascii.eqb_refl. reflexivity.
  - rewrite includesChar_cons in H. apply orb_false_iff in H.
    destruct H as [N H]. cbn [append JS.split].
    rewrite Ascii.eqb_sym in N. rewrite N, (IH H). reflexivity.
Qed.

Lemma split_joinSpace xs :
  xs <> [] ->
  Forall (fun w => JS.includesChar w " " = false) xs ->
  JS.split " " (joinSpace xs) = xs.
Proof.
  intros N H. induction H as [|x xs Hx Hxs IH]; [contradiction|].
  cbn [joinSpace]. destruct xs as [|y ys].
  - apply split_piece. assumption.
  - rewrite split_piece_app by assumption. f_equal.
    apply IH. discriminate.
Qed.

Lemma eqb_w_standard x :
  String.eqb (mapChars convertPieceToStandard x) "w" = String.eqb x "w".
Proof.
  destruct x as [|c r]; [reflexivity|].
  cbn [mapChars String.eqb].
  assert (Ascii.eqb (convertPieceToStandard c) "w" = Ascii.eqb c "w") as ->
      by (destruct c as [[] [] [] [] [] [] [] []]; reflexivity).
  destruct r; reflexivity.
Qed.

Lemma In_firstn_inv {A} n (l : list A) x : In x (firstn n l) -> In x l.
Proof.
  revert l. induction n as [|n IH]; intros [|a l]; cbn; try tauto.
  intros [H|H]; auto.
Qed.

(** X30. In the earlier player the orientation of the board does not
    depend on the conversion of the record: with a stored position, the
    board is seen from White's side exactly when the record has fewer than
    two fields or its second field is [w]. *)
Theorem LegacyPlayer_orientation_ignores_conversion :
  forall positionCount fenInput,
    LegacyPlayer.boardOrientation positionCount fenInput
    = (positionCount =? 0)%nat
      || (List.length (JS.split " " fenInput) <? 2)%nat
      || match nth_error (JS.split " " fenInput) 1 with
         | Some activeColor => String.eqb activeColor "w"
         | None => false
         end.
Proof.
  intros n fenInput. unfold LegacyPlayer.boardOrientation.
  destruct (n =? 0)%nat; [reflexivity|]. cbn [orb].
  destruct (Nat.ltb_spec (List.length (JS.split " " fenInput)) 2)
    as [|Hlen]; [reflexivity|]. cbn [orb].
  pose proof (split_pieces " " fenInput) as Hp.
  remember (JS.split " " fenInput) as parts eqn:Eparts. clear Eparts.
  assert (JS.split " " (joinSpace (firstn 6 parts)) = firstn 6 parts) as Hs.
  { apply split_joinSpace.
    - destruct parts; [cbn in Hlen; lia|discriminate].
    - apply Forall_forall. intros w Hw.
      rewrite Forall_forall in Hp. apply Hp.
      eapply In_firstn_inv. eassumption. }
  destruct (Legacy_frenchToStandardFEN_cases (joinSpace (firstn 6 parts)))
    as [-> _].
  destruct parts as [|a [|b rest]]; cbn [List.length] in Hlen; try lia.
  destruct (Legacy.isFrenchFEN (joinSpace (firstn 6 (a :: b :: rest)))).
  - rewrite split_space_mapChars, Hs.
    cbn [firstn map nth_error]. apply eqb_w_standard.
  - rewrite Hs. reflexivity.
Qed.
